(** * rx-nostr: the relay pool and subscription multiplexer of [RxNostrImpl]

    A shallow embedding of [src/index.ts].  The class [RxNostrImpl] becomes a
    record of its fields together with the objects it shares by reference (the
    [Set]s of active subscription ids and the [WebsocketSubject]s), held in
    two stores and addressed by index.  Methods become state-passing
    functions; a method that can throw returns a [Completion]. *)

From stdpp Require Import base list strings.
From Stdlib Require Import DecimalString.
From Stdlib Require DecimalNat.

Set Default Proof Using "Type".

(** ** Wire types ([Nostr] namespace) *)

Module Nostr.

Record Event := {
  id : string;
  sig : string;
  kind : nat;
  tags : list (list string);
  pubkey : string;
  content : string;
  created_at : nat;
}.

Record Filter := {
  ids : option (list string);
  kinds : option (list nat);
  authors : option (list string);
  since : option nat;
  until : option nat;
  limit : option nat;
  tagFilters : list (string * list string);
}.

(** [OutgoingMessage.REQ], the tuple [["REQ", subId, ...filters]] *)
Record REQ := { req_subId : string; req_filters : list Filter }.

(** [OutgoingMessage.Any] *)
Inductive OutgoingMessage :=
| OfREQ (req : REQ)
| CLOSE (subId : string)
| EVENT (event : Event)
| AUTH (event : Event).

(** [IncomingMessage.Any], with [NOTICE] *)
Inductive IncomingMessage :=
| InEVENT (subId : string) (event : Event)
| InEOSE (subId : string)
| InOK (eventId : string) (accepted : bool) (message : option string)
| InAUTH (challengeMessage : string)
| InNOTICE (message : string).

End Nostr.
Import Nostr.

(** Modelled from the spec: the type [ConnectionState] of [packet.js], which
    is not under src/.  The spec lists seven states; its [initialized] is the
    state the source spells ["not-started"] in [getRelayState]. *)
Inductive ConnectionState :=
| not_started | starting | ongoing | reconnecting | error | terminated | rejected.

#[global] Instance ConnectionState_eq_dec : EqDecision ConnectionState.
Proof. solve_decision. Defined.

Record MessagePacket := { mp_from : string; mp_message : IncomingMessage }.
Record EventPacket := { ep_from : string; ep_subId : string; ep_event : Event }.
Record OkPacket := { ok_from : string; ok_id : string }.
Record ErrorPacket := { err_from : string; err_reason : string }.
Record ConnectionStatePacket := { cs_from : string; cs_state : ConnectionState }.

(** ** JavaScript [Map<string, V>] and [Set<string>]

    Both iterate in insertion order, and the order of iteration decides the
    order of the frames sent, so they are kept as lists. *)

Section JsMap.
Context {V : Type}.

Fixpoint Map_get (k : string) (m : list (string * V)) : option V :=
  match m with
  | [] => None
  | (k', v) :: m' => if String.eqb k k' then Some v else Map_get k m'
  end.

(** [m.set(k, v)]: an existing key keeps its place, a new one goes last. *)
Fixpoint Map_set (k : string) (v : V) (m : list (string * V)) : list (string * V) :=
  match m with
  | [] => [(k, v)]
  | (k', v') :: m' =>
      if String.eqb k k' then (k', v) :: m' else (k', v') :: Map_set k v m'
  end.

Fixpoint Map_delete (k : string) (m : list (string * V)) : list (string * V) :=
  match m with
  | [] => []
  | (k', v') :: m' =>
      if String.eqb k k' then m' else (k', v') :: Map_delete k m'
  end.

Definition Map_keys (m : list (string * V)) : list string := m.*1.
Definition Map_values (m : list (string * V)) : list V := m.*2.
End JsMap.

(** [a.includes(e)] on an array of strings *)
Fixpoint includes (e : string) (a : list string) : bool :=
  match a with
  | [] => false
  | x :: a' => String.eqb x e || includes e a'
  end.

Definition Set_has (e : string) (s : list string) : bool := includes e s.
Definition Set_add (e : string) (s : list string) : list string :=
  if includes e s then s else s ++ [e].
Definition Set_delete (e : string) (s : list string) : list string :=
  List.filter (fun x => negb (String.eqb x e)) s.

(** [subtract] of [setRelays] *)
Definition subtract (a b : list string) : list string :=
  List.filter (fun e => negb (includes e b)) a.

(** JavaScript truthiness of an optional string: [undefined] and [""] are falsy. *)
Definition truthy (s : option string) : bool :=
  match s with
  | Some s' => negb (String.eqb s' "")
  | None => false
  end.

(** ** The client state *)

Record RxNostrOptions := { retry : nat; timeout : N }.
Definition defaultRxNostrOptions : RxNostrOptions :=
  {| retry := 10; timeout := 10000%N |}.

Record Relay := { r_url : string; r_read : bool; r_write : bool }.

(** [interface RelayState]; [activeSubIds] and [websocket] are references. *)
Record RelayState := {
  url : string;
  read : bool;
  write : bool;
  activeSubIds : nat;
  websocket : nat;
}.

(** What the client holds of one [WebsocketSubject] and of the pipeline that
    [createWebsocket] subscribes to it: the url it was made for, the state
    its [getState()] answers, the count [retry] keeps of the errors it has
    resubscribed after, and whether the pipeline is still subscribed. *)
Record Socket := {
  ws_url : string;
  ws_state : ConnectionState;
  ws_soFar : nat;
  ws_piped : bool;
}.

(** A call on a transport, in the order the client makes them. *)
Inductive Call :=
| WsStart (ws : nat)
| WsStop (ws : nat)
| WsDispose (ws : nat)
| WsSend (ws : nat) (frame : OutgoingMessage).

(** A notification on a stream handed to the caller. *)
Inductive Notification (A : Type) :=
| Next (a : A)
| Complete
| Error (reason : string).
Arguments Next {A} a.
Arguments Complete {A}.
Arguments Error {A} reason.

(** A method either returns or throws; the state it leaves is kept in both cases. *)
Inductive Completion (A : Type) :=
| Normal (a : A)
| Threw (e : string).
Arguments Normal {A} a.
Arguments Threw {A} e.

(** The fields of [class RxNostrImpl], the two stores of shared objects, the
    calls made on the transports and the packets [error$] has emitted.  The
    three [Subject]s are known by whether they have been completed. *)
Record RxNostrImpl := {
  options : RxNostrOptions;
  relays : list (string * RelayState);
  activeReqs : list (string * REQ);
  message_stopped : bool;
  error_stopped : bool;
  status_stopped : bool;
  sets : list (list string);
  sockets : list Socket;
  calls : list Call;
  errors : list ErrorPacket;
}.

Definition createRxNostr (opt : RxNostrOptions) : RxNostrImpl :=
  {| options := opt; relays := []; activeReqs := [];
     message_stopped := false; error_stopped := false; status_stopped := false;
     sets := []; sockets := []; calls := []; errors := [] |}.

Definition with_relays (v : list (string * RelayState)) (c : RxNostrImpl) :=
  {| options := options c; relays := v; activeReqs := activeReqs c;
     message_stopped := message_stopped c; error_stopped := error_stopped c;
     status_stopped := status_stopped c; sets := sets c; sockets := sockets c;
     calls := calls c; errors := errors c |}.
Definition with_activeReqs (v : list (string * REQ)) (c : RxNostrImpl) :=
  {| options := options c; relays := relays c; activeReqs := v;
     message_stopped := message_stopped c; error_stopped := error_stopped c;
     status_stopped := status_stopped c; sets := sets c; sockets := sockets c;
     calls := calls c; errors := errors c |}.
Definition with_stopped (m e : bool) (c : RxNostrImpl) :=
  {| options := options c; relays := relays c; activeReqs := activeReqs c;
     message_stopped := m; error_stopped := e;
     status_stopped := status_stopped c; sets := sets c; sockets := sockets c;
     calls := calls c; errors := errors c |}.
Definition with_sets (v : list (list string)) (c : RxNostrImpl) :=
  {| options := options c; relays := relays c; activeReqs := activeReqs c;
     message_stopped := message_stopped c; error_stopped := error_stopped c;
     status_stopped := status_stopped c; sets := v; sockets := sockets c;
     calls := calls c; errors := errors c |}.
Definition with_sockets (v : list Socket) (c : RxNostrImpl) :=
  {| options := options c; relays := relays c; activeReqs := activeReqs c;
     message_stopped := message_stopped c; error_stopped := error_stopped c;
     status_stopped := status_stopped c; sets := sets c; sockets := v;
     calls := calls c; errors := errors c |}.
Definition with_calls (v : list Call) (c : RxNostrImpl) :=
  {| options := options c; relays := relays c; activeReqs := activeReqs c;
     message_stopped := message_stopped c; error_stopped := error_stopped c;
     status_stopped := status_stopped c; sets := sets c; sockets := sockets c;
     calls := v; errors := errors c |}.
Definition with_errors (v : list ErrorPacket) (c : RxNostrImpl) :=
  {| options := options c; relays := relays c; activeReqs := activeReqs c;
     message_stopped := message_stopped c; error_stopped := error_stopped c;
     status_stopped := status_stopped c; sets := sets c; sockets := sockets c;
     calls := calls c; errors := v |}.

(** *** The stores *)

(** The contents of the [Set] behind a reference. *)
Definition subIds (c : RxNostrImpl) (s : nat) : list string :=
  default [] (sets c !! s).
Definition put_subIds (s : nat) (v : list string) (c : RxNostrImpl) : RxNostrImpl :=
  with_sets (<[s := v]> (sets c)) c.

(** [new Set()] *)
Definition newSet (c : RxNostrImpl) : nat * RxNostrImpl :=
  (length (sets c), with_sets (sets c ++ [[]]) c).

(** A call on a transport is recorded; what the transport does with it is
    the transport's business ([websocket.js] is outside the client). *)
Definition call (k : Call) (c : RxNostrImpl) : RxNostrImpl :=
  with_calls (calls c ++ [k]) c.

(** [createWebsocket(url)]: a new [WebsocketSubject], with the client
    subscribed to its states and, through [retry] and [catchError], to its
    messages. *)
Definition createWebsocket (u : string) (c : RxNostrImpl) : nat * RxNostrImpl :=
  (length (sockets c),
   with_sockets (sockets c ++ [{| ws_url := u; ws_state := not_started;
                                  ws_soFar := 0; ws_piped := true |}]) c).

Definition getRelays (c : RxNostrImpl) : list Relay :=
  map (fun r => {| r_url := url r; r_read := read r; r_write := write r |})
      (Map_values (relays c)).

(** [getReadableUrls(relays?)] and [getWritableUrls(relays?)], on the urls
    and flags of the records they are given *)
Definition getReadableUrls (rs : list RelayState) : list string :=
  map url (List.filter read rs).
Definition getWritableUrls (rs : list RelayState) : list string :=
  map url (List.filter write rs).

(** Methods that can throw: state passing with a [Completion]. *)
Definition M (A : Type) : Type := RxNostrImpl → Completion A * RxNostrImpl.

Definition ret {A} (a : A) : M A := fun c => (Normal a, c).
Definition throw {A} (e : string) : M A := fun c => (Threw e, c).
Definition bind {A B} (m : M A) (k : A → M B) : M B :=
  fun c => match m c with
           | (Normal a, c') => k a c'
           | (Threw e, c') => (Threw e, c')
           end.
(** A step that cannot throw. *)
Definition run (f : RxNostrImpl → RxNostrImpl) : M unit :=
  fun c => (Normal (), f c).
Definition liftC {A} (v : Completion A) : M A := fun c => (v, c).

Notation "'let*' x ':=' m 'in' k" := (bind m (fun x => k))
  (at level 10, x pattern, m at level 100, k at level 200).

(** ** [ensureReq] and [finalizeReq] *)

(** The body of the loop of [ensureReq], for one relay. *)
Definition ensureReq_relay (req : REQ) (overwrite : bool)
    (c : RxNostrImpl) (relay : RelayState) : RxNostrImpl :=
  if negb (read relay)
     || (negb overwrite && Set_has (req_subId req) (subIds c (activeSubIds relay)))
  then c
  else
    let c1 := call (WsSend (websocket relay) (OfREQ req)) c in
    put_subIds (activeSubIds relay)
               (Set_add (req_subId req) (subIds c1 (activeSubIds relay))) c1.

(** [ensureReq(req, options)]: [rs] is [options.relays], [overwrite] is
    [options.overwrite] ([undefined] read as [false]). *)
Definition ensureReq (req : REQ) (rs : option (list RelayState))
    (overwrite : bool) (c : RxNostrImpl) : RxNostrImpl :=
  fold_left (ensureReq_relay req overwrite)
            (default (Map_values (relays c)) rs) c.

(** The inner loop body of [finalizeReq]: one subscription id on one relay. *)
Definition finalizeReq_subId (relay : RelayState) (c : RxNostrImpl)
    (subId : string) : RxNostrImpl :=
  let c1 := if Set_has subId (subIds c (activeSubIds relay))
            then call (WsSend (websocket relay) (CLOSE subId)) c
            else c in
  put_subIds (activeSubIds relay)
             (Set_delete subId (subIds c1 (activeSubIds relay))) c1.

(** The outer loop body: [subId ? [subId] : Array.from(relay.activeSubIds)]. *)
Definition finalizeReq_relay (subId : option string) (c : RxNostrImpl)
    (relay : RelayState) : RxNostrImpl :=
  let ids := if truthy subId then [default "" subId]
             else subIds c (activeSubIds relay) in
  fold_left (finalizeReq_subId relay) ids c.

(** [unnull] of [util.js] (not under src/) is taken to throw on [undefined];
    were it to return it, the next property access would throw instead. *)
Definition unnull {A} (v : option A) : Completion A :=
  match v with
  | Some a => Normal a
  | None => Threw "unnull"
  end.

Record FinalizeParams := { fp_subId : option string; fp_url : option string }.

Definition finalizeReq (params : FinalizeParams) : M unit :=
  match fp_subId params, fp_url params with
  | None, None => throw "Error"
  | subId, u =>
      if truthy u then
        let* relay := (fun c => (unnull (Map_get (default "" u) (relays c)), c)) in
        run (fun c => finalizeReq_relay subId c relay)
      else
        run (fun c => fold_left (finalizeReq_relay subId) (Map_values (relays c)) c)
  end.

(** ** State queries *)

Definition socket_state (c : RxNostrImpl) (w : nat) : ConnectionState :=
  default not_started (ws_state <$> sockets c !! w).

Definition getRelayState (u : string) (c : RxNostrImpl)
    : Completion ConnectionState :=
  match Map_get u (relays c) with
  | None => Threw "Relay not found"
  | Some relay => Normal (socket_state c (websocket relay))
  end.

(** [Object.fromEntries] of the pairs [[e.url, this.getRelayState(e.url)]]:
    a later pair for the same key takes the place of an earlier one. *)
Fixpoint getAllRelayState_from (rs : list RelayState) (c : RxNostrImpl)
    (acc : list (string * ConnectionState))
    : Completion (list (string * ConnectionState)) :=
  match rs with
  | [] => Normal acc
  | e :: rs' =>
      match getRelayState (url e) c with
      | Threw x => Threw x
      | Normal st => getAllRelayState_from rs' c (Map_set (url e) st acc)
      end
  end.

Definition getAllRelayState (c : RxNostrImpl)
    : Completion (list (string * ConnectionState)) :=
  getAllRelayState_from (Map_values (relays c)) c [].

Definition hasRelay (u : string) (c : RxNostrImpl) : bool :=
  existsb (fun relay => String.eqb (r_url relay) u) (getRelays c).

Definition reconnect (u : string) (c : RxNostrImpl) : RxNostrImpl :=
  match Map_get u (relays c) with
  | Some relay => call (WsStart (websocket relay)) c
  | None => c
  end.

(** ** The pool: [setRelays] and the operations defined through it *)

Inductive UrlOrRelay :=
| OfUrl (u : string)
| OfRelay (r : Relay).

Record Flags := { f_read : bool; f_write : bool }.

(** The argument of [setRelays]: an array of urls and relays, or the record
    [{url: {read, write}}] that [Nip07.getRelays] answers, as its entries. *)
Inductive RelaysInput :=
| FromArray (l : list UrlOrRelay)
| FromRecord (o : list (string * Flags)).

Section Pool.

(** [normalizeUrl(url, { normalizeProtocol: false })] of the package
    [normalize-url], which the client takes as given: it answers the
    normalized url, or throws on a string it does not take for a url. *)
Variable normalizeUrl : string → Completion string.

Definition normalizeRelay (urlOrRelay : UrlOrRelay) : Completion Relay :=
  let relay := match urlOrRelay with
               | OfUrl u => {| r_url := u; r_read := true; r_write := true |}
               | OfRelay r => r
               end in
  match normalizeUrl (r_url relay) with
  | Normal u => Normal {| r_url := u; r_read := r_read relay;
                          r_write := r_write relay |}
  | Threw e => Threw e
  end.

(** [relays.map(normalizeRelay)]: the first url the normalizer throws on
    ends the call. *)
Fixpoint normalizeRelays (l : list UrlOrRelay) : Completion (list Relay) :=
  match l with
  | [] => Normal []
  | x :: l' =>
      match normalizeRelay x with
      | Threw e => Threw e
      | Normal relay =>
          match normalizeRelays l' with
          | Normal rels => Normal (relay :: rels)
          | Threw e => Threw e
          end
      end
  end.

(** The relays the loop of [getNextRelayState] runs over; an array is
    normalized in full before the loop starts. *)
Definition inputRelays (input : RelaysInput) : Completion (list Relay) :=
  match input with
  | FromArray l => normalizeRelays l
  | FromRecord o =>
      Normal (map (fun e => {| r_url := e.1; r_read := f_read e.2;
                               r_write := f_write e.2 |}) o)
  end.

(** One turn of that loop: the websocket and the set of the previous
    record for the url when there is one, new ones otherwise. *)
Definition nextRelayState_step (prev : list (string * RelayState))
    (acc : list (string * RelayState) * RxNostrImpl) (relay : Relay)
    : list (string * RelayState) * RxNostrImpl :=
  let '(next, c) := acc in
  match Map_get (r_url relay) prev with
  | Some prevState =>
      (Map_set (r_url relay)
               {| url := r_url relay; read := r_read relay;
                  write := r_write relay;
                  activeSubIds := activeSubIds prevState;
                  websocket := websocket prevState |} next, c)
  | None =>
      let '(w, c1) := createWebsocket (r_url relay) c in
      let '(s, c2) := newSet c1 in
      (Map_set (r_url relay)
               {| url := r_url relay; read := r_read relay;
                  write := r_write relay;
                  activeSubIds := s; websocket := w |} next, c2)
  end.

(** The loop of [getNextRelayState], from the empty map. *)
Definition nextRelayState_loop (prev : list (string * RelayState))
    (rels : list Relay) (c : RxNostrImpl)
    : list (string * RelayState) * RxNostrImpl :=
  fold_left (nextRelayState_step prev) rels ([], c).

Definition getNextRelayState (prev : list (string * RelayState))
    (input : RelaysInput) (c : RxNostrImpl)
    : Completion (list (string * RelayState) * RxNostrImpl) :=
  match inputRelays input with
  | Normal rels => Normal (nextRelayState_loop prev rels c)
  | Threw e => Threw e
  end.

(** [this.relays.get(url)?.websocket.m()] for a lifecycle method [m] *)
Definition lifecycle (k : nat → Call) (m : list (string * RelayState))
    (c : RxNostrImpl) (u : string) : RxNostrImpl :=
  match Map_get u m with
  | Some relay => call (k (websocket relay)) c
  | None => c
  end.

(** The loop over [urlsNoLongerRead]. *)
Fixpoint stopReading (urls : list string) : M unit :=
  match urls with
  | [] => ret ()
  | u :: urls' =>
      let* _ := finalizeReq {| fp_subId := None; fp_url := Some u |} in
      let* _ := run (fun c => lifecycle WsStop (relays c) c u) in
      stopReading urls'
  end.

(** [urlsToBeRead.map((url) => unnull(nextRelays.get(url)))] *)
Fixpoint relaysToBeRead (next : list (string * RelayState))
    (urls : list string) : Completion (list RelayState) :=
  match urls with
  | [] => Normal []
  | u :: urls' =>
      match unnull (Map_get u next), relaysToBeRead next urls' with
      | Normal r, Normal rs => Normal (r :: rs)
      | Threw e, _ | _, Threw e => Threw e
      end
  end.

(** One of the two loops over [this.activeReqs.values()]. *)
Fixpoint ensureActiveReqs (reqs : list REQ)
    (next : list (string * RelayState)) (urls : list string) : M unit :=
  match reqs with
  | [] => ret ()
  | req :: reqs' =>
      let* rs := liftC (relaysToBeRead next urls) in
      let* _ := run (ensureReq req (Some rs) false) in
      ensureActiveReqs reqs' next urls
  end.

(** What [setRelays] does once [getNextRelayState] has returned
    [nextRelays]. *)
Definition installRelays (nextRelays : list (string * RelayState)) : M unit :=
  fun c0 =>
  let prevReadableUrls := getReadableUrls (Map_values (relays c0)) in
  let nextReadableUrls := getReadableUrls (Map_values nextRelays) in
  let urlsNoLongerRead := subtract prevReadableUrls nextReadableUrls in
  let urlsToBeRead := subtract nextReadableUrls prevReadableUrls in
  (let* _ := stopReading urlsNoLongerRead in
   let* _ := run (fun c1 => fold_left (lifecycle WsStart nextRelays) urlsToBeRead c1) in
   let* _ := (fun c2 => ensureActiveReqs (Map_values (activeReqs c2))
                                          nextRelays urlsToBeRead c2) in
   let* _ := (fun c3 => ensureActiveReqs (Map_values (activeReqs c3))
                                          nextRelays urlsToBeRead c3) in
   run (fun c4 =>
     let urlsNoLongerUsed :=
       subtract (Map_keys (relays c4)) (Map_keys nextRelays) in
     with_relays nextRelays
       (fold_left (lifecycle WsDispose (relays c4)) urlsNoLongerUsed c4))) c0.

(** [setRelays(relays)]: a throw of the normalizer leaves the method before
    anything is changed. *)
Definition setRelays (input : RelaysInput) : M unit := fun c =>
  match getNextRelayState (relays c) input c with
  | Threw e => (Threw e, c)
  | Normal (nextRelays, c0) => installRelays nextRelays c0
  end.

Definition switchRelays (input : RelaysInput) : M unit :=
  setRelays input.

Definition addRelay (relay : UrlOrRelay) : M unit := fun c =>
  setRelays (FromArray (map OfRelay (getRelays c) ++ [relay])) c.

Definition removeRelay (u : string) : M unit := fun c =>
  let currentRelays := getRelays c in
  let nextRelays :=
    List.filter (fun relay => negb (String.eqb (r_url relay) u)) currentRelays in
  if negb (length currentRelays =? length nextRelays)%nat
  then setRelays (FromArray (map OfRelay nextRelays)) c
  else (Normal (), c).

End Pool.

(** ** The subscription and publication engines

    The caller's side of the client: the subscriptions made of the streams
    [use()] returns, the inner streams of the backward and oneshot
    strategies, the publications of [send()], and what each of these streams
    has delivered.  An observable is kept as the state of its subscription;
    the request source [rxReq] and the transports act on the client through
    the handlers below.

    What is used of RxJS 7: a [Subject] passes a value to the observers it
    has when [next] is called, in the order they subscribed, and passes
    nothing once completed; [take(n)] completes with the [n]-th value and
    [take(0)] is [EMPTY]; [first()] completes after one value;
    [retry(n)] resubscribes after each of the first [n] errors and lets the
    next one through; [takeUntil] completes the stream when its notifier
    emits; the callback of [finalize] runs after the completion has been
    passed on, or on unsubscription; an exception in an operator's callback
    becomes an error notification; [mergeAll] completes when its source and
    all inner streams have.  The request source is taken not to complete. *)

(** [rxReq.strategy] *)
Inductive Strategy := forward | backward | oneshot.

#[global] Instance Strategy_eq_dec : EqDecision Strategy.
Proof. solve_decision. Defined.

Definition makeSubId (rxReqId : string) (index : option nat) : string :=
  rxReqId +:+ ":" +:+ NilEmpty.string_of_uint (Nat.to_uint (default 0 index)).

(** A subscription of the stream [use(rxReq)] returns: [u_index] is the
    index [map] hands to [attachSubId], [u_source] says whether [subId$] is
    still subscribed to the request source. *)
Record Use := {
  u_strategy : Strategy;
  u_rxReqId : string;
  u_index : nat;
  u_source : bool;
  u_live : bool;
}.

(** A stream made by [createEoseManagedEventObservable(subId)]. *)
Record Inner := {
  i_use : nat;
  i_subId : string;
  eoseRelays : list string;
  i_live : bool;
}.

(** A call of [send()]: [p_urls] are the writable urls at the time of the
    call, [p_event] the signed event once the promise has resolved,
    [p_listening] whether the listener on the messages is subscribed,
    [p_seen] the count [take] keeps. *)
Record Publication := {
  p_urls : list string;
  p_event : option Event;
  p_listening : bool;
  p_seen : nat;
  p_live : bool;
}.

(** The observers of [message$], in the order they subscribed. *)
Inductive Observer :=
| ObsForward (u : nat)
| ObsInner (i : nat)
| ObsOk (p : nat).

Record Client := {
  impl : RxNostrImpl;
  uses : list Use;
  inners : list Inner;
  pubs : list Publication;
  observers : list Observer;
  events : list (nat * Notification EventPacket);
  oks : list (nat * Notification OkPacket);
}.

Definition newClient (opt : RxNostrOptions) : Client :=
  {| impl := createRxNostr opt; uses := []; inners := []; pubs := [];
     observers := []; events := []; oks := [] |}.

Definition with_impl (v : RxNostrImpl) (k : Client) :=
  {| impl := v; uses := uses k; inners := inners k; pubs := pubs k;
     observers := observers k; events := events k; oks := oks k |}.
Definition with_uses (v : list Use) (k : Client) :=
  {| impl := impl k; uses := v; inners := inners k; pubs := pubs k;
     observers := observers k; events := events k; oks := oks k |}.
Definition with_inners (v : list Inner) (k : Client) :=
  {| impl := impl k; uses := uses k; inners := v; pubs := pubs k;
     observers := observers k; events := events k; oks := oks k |}.
Definition with_pubs (v : list Publication) (k : Client) :=
  {| impl := impl k; uses := uses k; inners := inners k; pubs := v;
     observers := observers k; events := events k; oks := oks k |}.
Definition with_observers (v : list Observer) (k : Client) :=
  {| impl := impl k; uses := uses k; inners := inners k; pubs := pubs k;
     observers := v; events := events k; oks := oks k |}.
Definition with_events (v : list (nat * Notification EventPacket)) (k : Client) :=
  {| impl := impl k; uses := uses k; inners := inners k; pubs := pubs k;
     observers := observers k; events := v; oks := oks k |}.
Definition with_oks (v : list (nat * Notification OkPacket)) (k : Client) :=
  {| impl := impl k; uses := uses k; inners := inners k; pubs := pubs k;
     observers := observers k; events := events k; oks := v |}.

Definition on_impl (f : RxNostrImpl → RxNostrImpl) (k : Client) : Client :=
  with_impl (f (impl k)) k.

(** A method run for its effect where the caller does not catch. *)
Definition exec {A} (m : M A) (c : RxNostrImpl) : RxNostrImpl := (m c).2.

Definition emit_event (u : nat) (n : Notification EventPacket) (k : Client) :=
  with_events (events k ++ [(u, n)]) k.
Definition emit_ok (p : nat) (n : Notification OkPacket) (k : Client) :=
  with_oks (oks k ++ [(p, n)]) k.

Definition set_use_live (u : nat) (src live : bool) (k : Client) : Client :=
  match uses k !! u with
  | Some x =>
      with_uses (<[u := {| u_strategy := u_strategy x; u_rxReqId := u_rxReqId x;
                           u_index := u_index x; u_source := src;
                           u_live := live |}]> (uses k)) k
  | None => k
  end.

Definition set_inner (i : nat) (eose : list string) (live : bool) (k : Client)
    : Client :=
  match inners k !! i with
  | Some x =>
      with_inners (<[i := {| i_use := i_use x; i_subId := i_subId x;
                             eoseRelays := eose; i_live := live |}]> (inners k)) k
  | None => k
  end.

(** *** The operators of [use()] *)

Definition filterBySubId (subId : string) (packet : MessagePacket) : bool :=
  match mp_message packet with
  | InEVENT s _ | InEOSE s => String.eqb s subId
  | _ => false
  end.

Definition pickEvents (packet : MessagePacket) : list EventPacket :=
  match mp_message packet with
  | InEVENT s e => [{| ep_from := mp_from packet; ep_subId := s; ep_event := e |}]
  | _ => []
  end.

(** The test of [manageCompletion], on the record [getAllRelayState()] answers. *)
Definition shouldComplete (status : list (string * ConnectionState))
    (eose : list string) : bool :=
  forallb (fun e : string * ConnectionState =>
             bool_decide (e.2 = error)
             || bool_decide (e.2 = terminated)
             || (bool_decide (e.2 = ongoing) && Set_has e.1 eose))
          status.

(** [mergeAll]: the outer stream completes once its source has completed
    and no inner stream is left. *)
Definition settle (u : nat) (k : Client) : Client :=
  match uses k !! u with
  | Some x =>
      if u_live x && negb (u_source x)
         && forallb (fun i => negb (i_live i && (i_use i =? u)%nat)) (inners k)
      then set_use_live u false false (emit_event u Complete k)
      else k
  | None => k
  end.

(** The callback of [finalize] in [createEoseManagedEventObservable]. *)
Definition finalize_inner (i : nat) (k : Client) : Client :=
  match inners k !! i with
  | Some x =>
      if i_live x then
        on_impl (exec (finalizeReq {| fp_subId := Some (i_subId x);
                                      fp_url := None |}))
                (set_inner i (eoseRelays x) false k)
      else k
  | None => k
  end.

(** The inner stream completes ([complete$], the timeout, or the end of
    [message$]): the outer stream is told, then [finalize] runs. *)
Definition complete_inner (i : nat) (k : Client) : Client :=
  match inners k !! i with
  | Some x =>
      if i_live x then
        let k1 := set_inner i (eoseRelays x) false k in
        let k2 := settle (i_use x) k1 in
        on_impl (exec (finalizeReq {| fp_subId := Some (i_subId x);
                                      fp_url := None |})) k2
      else k
  | None => k
  end.

(** The subscriber of [manageCompletion]; an exception in it is not
    delivered to any stream. *)
Definition manageCompletion (i : nat) (k : Client) : Client :=
  match inners k !! i with
  | Some x =>
      if i_live x then
        match getAllRelayState (impl k) with
        | Normal status =>
            if shouldComplete status (eoseRelays x) then complete_inner i k else k
        | Threw _ => k
        end
      else k
  | None => k
  end.

(** Every inner stream of the subscription [u] is unsubscribed. *)
Definition teardown_inners (u : nat) (k : Client) : Client :=
  fold_left (fun k' i =>
               match inners k' !! i with
               | Some x => if (i_use x =? u)%nat then finalize_inner i k' else k'
               | None => k'
               end)
            (seq 0 (length (inners k))) k.

(** An operator of an inner stream threw: the error reaches the caller
    through [mergeAll] and the whole chain is unsubscribed. *)
Definition fail_use (u : nat) (e : string) (k : Client) : Client :=
  teardown_inners u (set_use_live u false false (emit_event u (Error e) k)).

(** A packet of [message$] at an inner stream: [filterBySubId], the filter
    on [eoseRelays], the [tap] and [pickEvents]. *)
Definition inner_on_message (i : nat) (packet : MessagePacket) (k : Client)
    : Client :=
  match inners k !! i with
  | Some x =>
      if i_live x && filterBySubId (i_subId x) packet
         && negb (Set_has (mp_from packet) (eoseRelays x))
      then
        match mp_message packet with
        | InEOSE _ =>
            let k1 := set_inner i (Set_add (mp_from packet) (eoseRelays x)) true k in
            match finalizeReq {| fp_subId := Some (i_subId x);
                                 fp_url := Some (mp_from packet) |} (impl k1) with
            | (Threw e, c) => fail_use (i_use x) e (with_impl c k1)
            | (Normal _, c) => manageCompletion i (with_impl c k1)
            end
        | _ =>
            fold_left (fun k' ev => emit_event (i_use x) (Next ev) k')
                      (pickEvents packet) k
        end
      else k
  | None => k
  end.

(** A packet of [message$] at the subscription of a forward stream. *)
Definition forward_on_message (u : nat) (packet : MessagePacket) (k : Client)
    : Client :=
  match uses k !! u with
  | Some x =>
      if u_live x && filterBySubId (makeSubId (u_rxReqId x) None) packet
      then fold_left (fun k' ev => emit_event u (Next ev) k') (pickEvents packet) k
      else k
  | None => k
  end.

Definition set_pub (q : nat) (x : Publication) (k : Client) : Client :=
  with_pubs (<[q := x]> (pubs k)) k.

(** The callback of [finalize] in [send]. *)
Definition finalize_pub (q : nat) (k : Client) : Client :=
  match pubs k !! q with
  | Some x => set_pub q {| p_urls := p_urls x; p_event := p_event x;
                           p_listening := false; p_seen := p_seen x;
                           p_live := false |} k
  | None => k
  end.

(** A packet of [message$] at the listener of a publication, and [take]
    behind it. *)
Definition ok_on_message (q : nat) (packet : MessagePacket) (k : Client)
    : Client :=
  match pubs k !! q with
  | Some x =>
      match mp_message packet, p_event x with
      | InOK _ _ _, Some event =>
          if p_listening x then
            let seen := S (p_seen x) in
            let k1 := set_pub q {| p_urls := p_urls x; p_event := p_event x;
                                   p_listening := true; p_seen := seen;
                                   p_live := p_live x |} k in
            if (seen <=? length (p_urls x))%nat then
              let k2 := emit_ok q (Next {| ok_from := mp_from packet;
                                           ok_id := id event |}) k1 in
              if (length (p_urls x) <=? seen)%nat
              then finalize_pub q (emit_ok q Complete k2)
              else k2
            else k1
          else k
      | _, _ => k
      end
  | None => k
  end.

Definition deliver (packet : MessagePacket) (k : Client) (o : Observer) : Client :=
  match o with
  | ObsForward u => forward_on_message u packet k
  | ObsInner i => inner_on_message i packet k
  | ObsOk q => ok_on_message q packet k
  end.

(** [this.message$.next(packet)] *)
Definition message_next (packet : MessagePacket) (k : Client) : Client :=
  if message_stopped (impl k) then k
  else fold_left (deliver packet) (observers k) k.

(** *** What the transports report *)

Definition set_socket (w : nat) (s : Socket) (c : RxNostrImpl) : RxNostrImpl :=
  with_sockets (<[w := s]> (sockets c)) c.

(** The websocket [w] takes the state [st]: its [getState()] answers it and
    [status$] passes it on, to the subscriber of [manageCompletion] of every
    inner stream. *)
Definition on_state (w : nat) (st : ConnectionState) (k : Client) : Client :=
  match sockets (impl k) !! w with
  | Some s =>
      let k1 := on_impl (set_socket w {| ws_url := ws_url s; ws_state := st;
                                         ws_soFar := ws_soFar s;
                                         ws_piped := ws_piped s |}) k in
      if status_stopped (impl k1) then k1
      else fold_left (fun k' i => manageCompletion i k')
                     (seq 0 (length (inners k1))) k1
  | None => k
  end.

(** The websocket [w] delivers a message. *)
Definition on_message (w : nat) (message : IncomingMessage) (k : Client) : Client :=
  match sockets (impl k) !! w with
  | Some s =>
      if ws_piped s
      then message_next {| mp_from := ws_url s; mp_message := message |} k
      else k
  | None => k
  end.

(** The message stream of the websocket [w] errors: [retry] resubscribes
    [options.retry] times, after which [catchError] clears the set of the
    relay now kept under the url, emits on [error$] and ends the pipeline. *)
Definition on_error (w : nat) (reason : string) (c : RxNostrImpl) : RxNostrImpl :=
  match sockets c !! w with
  | Some s =>
      if ws_piped s then
        if (ws_soFar s <? retry (options c))%nat then
          set_socket w {| ws_url := ws_url s; ws_state := ws_state s;
                          ws_soFar := S (ws_soFar s); ws_piped := true |} c
        else
          let c1 := match Map_get (ws_url s) (relays c) with
                    | Some relay => put_subIds (activeSubIds relay) [] c
                    | None => c
                    end in
          let c2 := if error_stopped c1 then c1
                    else with_errors (errors c1 ++ [{| err_from := ws_url s;
                                                       err_reason := reason |}]) c1 in
          set_socket w {| ws_url := ws_url s; ws_state := ws_state s;
                          ws_soFar := ws_soFar s; ws_piped := false |} c2
      else c
  | None => c
  end.

(** [completeOnTimeout] of [operator.js] ends the inner stream [i]. *)
Definition on_timeout (i : nat) (k : Client) : Client := complete_inner i k.

(** *** What the caller does *)

(** [use(rxReq)], subscribed: the subscription's number and the client.  A
    forward stream subscribes [subId$] and then its filter on [message$]. *)
Definition use (strategy : Strategy) (rxReqId : string) (k : Client)
    : nat * Client :=
  let u := length (uses k) in
  let k1 := with_uses (uses k ++ [{| u_strategy := strategy;
                                     u_rxReqId := rxReqId; u_index := 0;
                                     u_source := true; u_live := true |}]) k in
  (u, if bool_decide (strategy = forward)
      then with_observers (observers k1 ++ [ObsForward u]) k1
      else k1).

(** [attachSubId]: the REQ for a list of filters. *)
Definition attachSubId (x : Use) (filters : list Filter) : REQ :=
  match u_strategy x with
  | backward =>
      {| req_subId := makeSubId (u_rxReqId x) (Some (u_index x));
         req_filters := filters |}
  | forward | oneshot =>
      {| req_subId := makeSubId (u_rxReqId x) None; req_filters := filters |}
  end.

Definition recordActiveReq (req : REQ) (c : RxNostrImpl) : RxNostrImpl :=
  with_activeReqs (Map_set (req_subId req) req (activeReqs c)) c.
Definition forgetActiveReq (subId : string) (c : RxNostrImpl) : RxNostrImpl :=
  with_activeReqs (Map_delete subId (activeReqs c)) c.

(** [ensureReqOnNext] *)
Definition ensureReqOnNext (strategy : Strategy) (req : REQ)
    (c : RxNostrImpl) : RxNostrImpl :=
  ensureReq req None (bool_decide (strategy = forward)) c.

(** [map(createEoseManagedEventObservable)] and [mergeAll]: the inner
    stream is made and subscribed; on a completed [message$] it completes
    at once. *)
Definition createEoseManagedEventObservable (u : nat) (subId : string)
    (k : Client) : Client :=
  let i := length (inners k) in
  let k1 := with_inners (inners k ++ [{| i_use := u; i_subId := subId;
                                         eoseRelays := []; i_live := true |}]) k in
  let k2 := with_observers (observers k1 ++ [ObsInner i]) k1 in
  if message_stopped (impl k2) then complete_inner i k2 else k2.

(** The request source of the subscription [u] emits [filters]: the
    pipeline [subId$], and for the backward and oneshot strategies the new
    inner stream. *)
Definition req_next (u : nat) (filters : option (list Filter)) (k : Client)
    : Client :=
  match uses k !! u, filters with
  | Some x, Some fs =>
      if u_live x && u_source x then
        let req := attachSubId x fs in
        let k1 := with_uses (<[u := {| u_strategy := u_strategy x;
                                       u_rxReqId := u_rxReqId x;
                                       u_index := S (u_index x);
                                       u_source := true; u_live := true |}]>
                               (uses k)) k in
        match u_strategy x with
        | forward =>
            on_impl (fun c => ensureReqOnNext forward req (recordActiveReq req c)) k1
        | backward =>
            createEoseManagedEventObservable u (req_subId req)
              (on_impl (ensureReqOnNext backward req) k1)
        | oneshot =>
            let k2 := createEoseManagedEventObservable u (req_subId req)
                        (on_impl (ensureReqOnNext oneshot req) k1) in
            match uses k2 !! u with
            | Some x2 =>
                if u_live x2 then settle u (set_use_live u false true k2) else k2
            | None => k2
            end
        end
      else k
  | _, _ => k
  end.

(** The caller unsubscribes the stream of [use()]. *)
Definition unsubscribe (u : nat) (k : Client) : Client :=
  match uses k !! u with
  | Some x =>
      if u_live x then
        let k1 := set_use_live u false false k in
        match u_strategy x with
        | forward =>
            let subId := makeSubId (u_rxReqId x) None in
            on_impl (fun c => exec (finalizeReq {| fp_subId := Some subId;
                                                   fp_url := None |})
                                   (forgetActiveReq subId c)) k1
        | backward | oneshot => teardown_inners u k1
        end
      else k
  | None => k
  end.

(** [send(params, seckey)] up to the promise, with the caller subscribed to
    the stream it returns: [take(0)] is [EMPTY]. *)
Definition send (k : Client) : nat * Client :=
  let urls := getWritableUrls (Map_values (relays (impl k))) in
  let q := length (pubs k) in
  let k1 := with_pubs (pubs k ++ [{| p_urls := urls; p_event := None;
                                     p_listening := false; p_seen := 0;
                                     p_live := true |}]) k in
  (q, if (length urls =? 0)%nat
      then finalize_pub q (emit_ok q Complete k1)
      else k1).

(** [relays.get(url)?.websocket.send(["EVENT", event])] *)
Definition send_event (event : Event) (c : RxNostrImpl) (u : string) : RxNostrImpl :=
  match Map_get u (relays c) with
  | Some relay => call (WsSend (websocket relay) (EVENT event)) c
  | None => c
  end.

(** The promise of the publication [q] resolves with the signed [event]. *)
Definition send_then (q : nat) (event : Event) (k : Client) : Client :=
  match pubs k !! q with
  | Some x =>
      match p_event x with
      | None =>
          let k1 := set_pub q {| p_urls := p_urls x; p_event := Some event;
                                 p_listening := p_live x; p_seen := p_seen x;
                                 p_live := p_live x |} k in
          let k2 := if p_live x
                    then with_observers (observers k1 ++ [ObsOk q]) k1
                    else k1 in
          on_impl (fun c => fold_left (send_event event) (p_urls x) c) k2
      | Some _ => k
      end
  | None => k
  end.

(** The caller unsubscribes the stream of [send()]. *)
Definition unsubscribe_send (q : nat) (k : Client) : Client := finalize_pub q k.

(** The end of [message$] at one of its observers: only the inner streams
    pass it on. *)
Definition complete_observer (k : Client) (o : Observer) : Client :=
  match o with
  | ObsInner i => complete_inner i k
  | ObsForward _ | ObsOk _ => k
  end.

(** [dispose()] *)
Definition dispose (k : Client) : Client :=
  let k1 := if message_stopped (impl k) then k
            else fold_left complete_observer (observers k)
                   (on_impl (fun c => with_stopped true (error_stopped c) c) k) in
  let k2 := on_impl (fun c => with_stopped (message_stopped c) true c) k1 in
  on_impl (fun c => fold_left (fun c' relay => call (WsDispose (websocket relay)) c')
                              (Map_values (relays c)) c) k2.

(** * Properties *)

(** ** Maps, sets and arrays *)

Lemma includes_elem_of (e : string) (a : list string) :
  includes e a = true ↔ e ∈ a.
Proof.
  induction a as [|x a IH]; simpl.
  - split; [discriminate | by intros ?%elem_of_nil].
  - rewrite orb_true_iff, IH, String.eqb_eq, elem_of_cons.
    split; (intros [H|H]; [left; by symmetry | by right]).
Qed.

Lemma includes_false (e : string) (a : list string) :
  includes e a = false ↔ e ∉ a.
Proof.
  rewrite <- includes_elem_of. destruct (includes e a); split; congruence.
Qed.

Lemma filter_none {A} (p : A → bool) (l : list A) :
  (∀ x, x ∈ l → p x = false) → List.filter p l = [].
Proof.
  induction l as [|a l IH]; intros H; simpl; [done|].
  rewrite (H a) by (apply elem_of_cons; by left).
  apply IH. intros. apply H, elem_of_cons. by right.
Qed.

Lemma subtract_self a : subtract a a = [].
Proof.
  apply filter_none. intros x Hx%includes_elem_of. by rewrite Hx.
Qed.

Lemma Map_get_None {V} (k : string) (m : list (string * V)) :
  Map_get k m = None ↔ k ∉ Map_keys m.
Proof.
  unfold Map_keys. induction m as [|[k' v] m IH]; simpl.
  - split; [intros _; apply not_elem_of_nil | done].
  - rewrite not_elem_of_cons. destruct (String.eqb_spec k k').
    + split; [discriminate | by intros [? _]].
    + rewrite IH. tauto.
Qed.

Lemma Map_get_Some {V} (k : string) (v : V) (m : list (string * V)) :
  Map_get k m = Some v → (k, v) ∈ m.
Proof.
  induction m as [|[k' v'] m IH]; simpl; [discriminate|].
  destruct (String.eqb_spec k k') as [->|].
  - intros [= ->]. apply elem_of_cons; by left.
  - intros H. apply elem_of_cons; right; auto.
Qed.

Lemma filter_all {A} (p : A → bool) (l : list A) :
  (∀ x, x ∈ l → p x = true) → List.filter p l = l.
Proof.
  induction l as [|x l IH]; simpl; intros H; [done|].
  rewrite (H x) by (apply elem_of_cons; by left).
  f_equal. apply IH. intros y Hy. apply H, elem_of_cons; by right.
Qed.

(** ** [removeRelay] *)

(** C10.  When no relay of the pool has the url [u], compared as strings,
    [removeRelay(u)] returns without a change: the record map, every set of
    active subscription ids, the registry of active REQs and every
    transport are as they were, and no call is made on a transport. *)
Theorem removeRelay_unknown_url (normalizeUrl : string → Completion string)
    (u : string)
    (c : RxNostrImpl) :
  (∀ relay, relay ∈ getRelays c → r_url relay ≠ u) →
  removeRelay normalizeUrl u c = (Normal (), c).
Proof.
  intros Hu. unfold removeRelay.
  rewrite filter_all.
  - by rewrite Nat.eqb_refl.
  - intros relay Hr. apply negb_true_iff, String.eqb_neq. by apply Hu.
Qed.

(** ** The fatal cases *)

(** C9.  [getRelayState(u)] for a url that is no key of the record map
    throws, and so does [finalizeReq] given neither a subscription id nor a
    url; [getRelayState] only reads the client, and [finalizeReq] leaves
    it as it was: the calls made on the transports are among what is
    unchanged. *)
Theorem fatal_cases_leave_the_client (u : string) (c : RxNostrImpl) :
  u ∉ Map_keys (relays c) →
  getRelayState u c = Threw "Relay not found"
  ∧ finalizeReq {| fp_subId := None; fp_url := None |} c = (Threw "Error", c).
Proof.
  intros Hu%Map_get_None. split; [|reflexivity].
  unfold getRelayState. by rewrite Hu.
Qed.

(** ** What a step adds to the calls *)

(** [c'] has the calls of [c] and then some that all satisfy [P]. *)
Definition appends (P : Call → Prop) (c c' : RxNostrImpl) : Prop :=
  ∃ t, calls c' = calls c ++ t ∧ Forall P t.

Lemma appends_refl P c c' : calls c' = calls c → appends P c c'.
Proof. intros H. exists []. by rewrite app_nil_r. Qed.

Lemma appends_trans P c1 c2 c3 :
  appends P c1 c2 → appends P c2 c3 → appends P c1 c3.
Proof.
  intros (t1 & E1 & F1) (t2 & E2 & F2). exists (t1 ++ t2).
  split; [by rewrite E2, E1, app_assoc | by apply Forall_app].
Qed.

Lemma appends_weaken (P Q : Call → Prop) c c' :
  (∀ k, P k → Q k) → appends P c c' → appends Q c c'.
Proof.
  intros H (t & E & F). exists t. split; [done|]. eapply Forall_impl; eauto.
Qed.

Lemma appends_call (P : Call → Prop) k c : P k → appends P c (call k c).
Proof. intros H. exists [k]. split; [done | by constructor]. Qed.

Lemma appends_fold {A} P (f : RxNostrImpl → A → RxNostrImpl) (l : list A) c :
  (∀ c a, appends P c (f c a)) → appends P c (fold_left f l c).
Proof.
  intros Hf. revert c. induction l as [|a l IH]; intros c; simpl.
  - by apply appends_refl.
  - eapply appends_trans; [apply Hf | apply IH].
Qed.

Lemma appends_bind {A B} P (m : M A) (k : A → M B) c :
  appends P c (m c).2 →
  (∀ a c', appends P c' (k a c').2) →
  appends P c (bind m k c).2.
Proof.
  intros Hm Hk. unfold bind. destruct (m c) as [[a|e] c'] eqn:E; simpl in *.
  - eapply appends_trans; [exact Hm | apply Hk].
  - exact Hm.
Qed.

Definition isReqSend (k : Call) : Prop :=
  match k with WsSend _ (OfREQ _) => True | _ => False end.
Definition isCloseSend (k : Call) : Prop :=
  match k with WsSend _ (CLOSE _) => True | _ => False end.
Definition isStop (k : Call) : Prop :=
  match k with WsStop _ => True | _ => False end.
Definition isStart (k : Call) : Prop :=
  match k with WsStart _ => True | _ => False end.
Definition isDispose (k : Call) : Prop :=
  match k with WsDispose _ => True | _ => False end.

Lemma ensureReq_relay_appends req ow c relay :
  appends isReqSend c (ensureReq_relay req ow c relay).
Proof.
  unfold ensureReq_relay.
  destruct (negb (read relay) || _); [by apply appends_refl|].
  exists [WsSend (websocket relay) (OfREQ req)]. split; [done|].
  by repeat constructor.
Qed.

Lemma ensureReq_appends req rs ow c :
  appends isReqSend c (ensureReq req rs ow c).
Proof. apply appends_fold. intros. apply ensureReq_relay_appends. Qed.

Lemma finalizeReq_subId_appends relay c subId :
  appends isCloseSend c (finalizeReq_subId relay c subId).
Proof.
  unfold finalizeReq_subId.
  destruct (Set_has subId _); [|by apply appends_refl].
  exists [WsSend (websocket relay) (CLOSE subId)]. split; [done|].
  by repeat constructor.
Qed.

Lemma finalizeReq_relay_appends subId c relay :
  appends isCloseSend c (finalizeReq_relay subId c relay).
Proof. apply appends_fold. intros. apply finalizeReq_subId_appends. Qed.

Lemma finalizeReq_appends params c :
  appends isCloseSend c (finalizeReq params c).2.
Proof.
  unfold finalizeReq.
  destruct (fp_subId params) as [s|], (fp_url params) as [u|];
    try (by apply appends_refl).
  all: destruct (truthy _); simpl;
    try (apply appends_fold; intros; apply finalizeReq_relay_appends).
  all: unfold bind; destruct (unnull _); simpl;
    try (by apply appends_refl); apply finalizeReq_relay_appends.
Qed.

Lemma appends_run P (f : RxNostrImpl → RxNostrImpl) c :
  appends P c (f c) → appends P c (run f c).2.
Proof. done. Qed.

(** Two phases in a row: the calls of the first, then those of the second. *)
Lemma appends_bind_phases {A B} (P Q : Call → Prop) (m : M A) (k : A → M B) c :
  appends P c (m c).2 →
  (∀ a c', appends Q c' (k a c').2) →
  ∃ t1 t2, calls (bind m k c).2 = calls c ++ t1 ++ t2
           ∧ Forall P t1 ∧ Forall Q t2.
Proof.
  intros (t1 & E1 & F1) Hk. unfold bind.
  destruct (m c) as [[a|e] c'] eqn:E; simpl in *.
  - destruct (Hk a c') as (t2 & E2 & F2). exists t1, t2.
    by rewrite E2, E1, app_assoc.
  - exists t1, []. by rewrite app_nil_r.
Qed.

Section PoolCalls.
Variable normalizeUrl : string → Completion string.

Lemma nextRelayState_step_calls prev acc relay :
  calls (nextRelayState_step prev acc relay).2 = calls acc.2.
Proof.
  destruct acc as [next c]. unfold nextRelayState_step.
  by destruct (Map_get (r_url relay) prev).
Qed.

Lemma nextRelayState_fold_calls prev l acc :
  calls (fold_left (nextRelayState_step prev) l acc).2 = calls acc.2.
Proof.
  revert acc. induction l as [|relay l IH]; intros acc; simpl; [done|].
  rewrite IH. apply nextRelayState_step_calls.
Qed.

Lemma getNextRelayState_calls prev input c next c0 :
  getNextRelayState normalizeUrl prev input c = Normal (next, c0) →
  calls c0 = calls c.
Proof.
  unfold getNextRelayState, nextRelayState_loop.
  destruct (inputRelays normalizeUrl input) as [rels|e]; [|done].
  intros [= E]. pose proof (nextRelayState_fold_calls prev rels ([], c)) as H.
  by rewrite E in H.
Qed.

Lemma lifecycle_appends (P : Call → Prop) k m c u :
  (∀ w, P (k w)) → appends P c (lifecycle k m c u).
Proof.
  intros H. unfold lifecycle.
  destruct (Map_get u m); [by apply appends_call | by apply appends_refl].
Qed.

Lemma stopReading_appends urls c :
  appends (fun k => isCloseSend k ∨ isStop k) c (stopReading urls c).2.
Proof.
  revert c. induction urls as [|u urls IH]; intros c; simpl.
  - by apply appends_refl.
  - apply appends_bind.
    + eapply appends_weaken; [|apply finalizeReq_appends]. by left.
    + intros _ c1. apply appends_bind; [|intros; apply IH].
      apply appends_run, lifecycle_appends. intros w. by right.
Qed.

Lemma ensureActiveReqs_appends reqs next urls c :
  appends isReqSend c (ensureActiveReqs reqs next urls c).2.
Proof.
  revert c. induction reqs as [|req reqs IH]; intros c; simpl.
  - by apply appends_refl.
  - apply appends_bind.
    + by apply appends_refl.
    + intros rs c1. apply appends_bind; [|intros; apply IH].
      apply appends_run, ensureReq_appends.
Qed.

(** C8.  The calls [setRelays] makes fall into two runs.  The first holds
    every CLOSE frame, sent to the relays that stop being read, with the
    [stop()] of each; the second holds every REQ frame, sent to the relays
    that start being read, with the [start()] and [dispose()] calls.  So
    in the client's own sequence of calls no CLOSE of the transition comes
    after one of its REQs. *)
Theorem setRelays_closes_before_reqs (input : RelaysInput) (c : RxNostrImpl) :
  ∃ dropped added,
    calls (setRelays normalizeUrl input c).2 = calls c ++ dropped ++ added
    ∧ Forall (fun k => isCloseSend k ∨ isStop k) dropped
    ∧ Forall (fun k => isStart k ∨ isReqSend k ∨ isDispose k) added.
Proof.
  unfold setRelays.
  pose proof (getNextRelayState_calls (relays c) input c) as Hc.
  destruct (getNextRelayState normalizeUrl (relays c) input c) as [[next c0]|e].
  2:{ exists [], []. simpl. by rewrite app_nil_r. }
  rewrite <- (Hc next c0 eq_refl). unfold installRelays.
  apply appends_bind_phases; [apply stopReading_appends|].
  intros _ c1. apply appends_bind.
  { apply appends_run, appends_fold. intros.
    apply lifecycle_appends. intros w. by left. }
  intros _ c2. apply appends_bind.
  { eapply appends_weaken; [|apply ensureActiveReqs_appends].
    intros k Hk. right; by left. }
  intros _ c3. apply appends_bind.
  { eapply appends_weaken; [|apply ensureActiveReqs_appends].
    intros k Hk. right; by left. }
  intros _ c4. apply appends_run.
  eapply appends_trans; [|by apply appends_refl].
  apply appends_fold. intros.
  apply lifecycle_appends. intros w. right; by right.
Qed.

End PoolCalls.

(** ** [ensureReq]: who is sent a REQ *)

Definition sendReq (req : REQ) (relay : RelayState) : Call :=
  WsSend (websocket relay) (OfREQ req).

(** Whether [subId] is in the set of active subscription ids of [relay]. *)
Definition isActive (c : RxNostrImpl) (relay : RelayState) (subId : string) : bool :=
  Set_has subId (subIds c (activeSubIds relay)).

Lemma includes_app e a b : includes e (a ++ b) = includes e a || includes e b.
Proof.
  induction a as [|x a IH]; simpl; [done|]. by rewrite IH, orb_assoc.
Qed.

Lemma includes_Set_add e x s :
  includes e (Set_add x s) = String.eqb x e || includes e s.
Proof.
  unfold Set_add. destruct (includes x s) eqn:Hx.
  - destruct (String.eqb_spec x e) as [->|]; [by rewrite Hx | done].
  - rewrite includes_app. simpl. rewrite orb_false_r. apply orb_comm.
Qed.

Lemma subIds_put_subIds s v c s' :
  subIds (put_subIds s v c) s'
  = if decide (s = s' ∧ s < length (sets c)) then v else subIds c s'.
Proof.
  unfold subIds, put_subIds. simpl. case_decide as H.
  - destruct H as [<- H]. by rewrite list_lookup_insert_eq.
  - destruct (decide (s = s')) as [<-|Hne].
    + rewrite list_insert_ge; [done | lia].
    + by rewrite list_lookup_insert_ne.
Qed.

Lemma subIds_call k c s : subIds (call k c) s = subIds c s.
Proof. done. Qed.

(** A turn of the loop of [ensureReq] takes no subscription id out of a set. *)
Lemma ensureReq_relay_isActive_mono req ow c relay r subId :
  isActive c r subId = true →
  isActive (ensureReq_relay req ow c relay) r subId = true.
Proof.
  intros H. unfold ensureReq_relay.
  destruct (negb (read relay) || _); [done|].
  unfold isActive, Set_has in *. rewrite subIds_put_subIds, subIds_call.
  case_decide as Hd; [|done]. destruct Hd as [-> _].
  by rewrite includes_Set_add, H, orb_true_r.
Qed.

Lemma filter_sublist_mono {A} (p q : A → bool) (l : list A) :
  (∀ x, p x = true → q x = true) →
  List.filter p l `sublist_of` List.filter q l.
Proof.
  intros H. induction l as [|x l IH]; simpl; [done|].
  destruct (p x) eqn:Hp.
  - rewrite (H x Hp). by apply sublist_skip.
  - destruct (q x); [by apply sublist_cons | done].
Qed.

Lemma ensureReq_overwrite_calls req rs c :
  calls (fold_left (ensureReq_relay req true) rs c)
  = calls c ++ (sendReq req <$> List.filter read rs).
Proof.
  revert c. induction rs as [|relay rs IH]; intros c; simpl.
  - by rewrite app_nil_r.
  - rewrite IH. unfold ensureReq_relay. simpl. rewrite orb_false_r.
    destruct (read relay); simpl; [|done]. by rewrite <- app_assoc.
Qed.

Lemma ensureReq_keep_calls req rs c :
  ∃ sent,
    calls (fold_left (ensureReq_relay req false) rs c)
    = calls c ++ (sendReq req <$> sent)
    ∧ sent `sublist_of`
        List.filter (fun relay => read relay
                                  && negb (isActive c relay (req_subId req))) rs.
Proof.
  revert c. induction rs as [|relay rs IH]; intros c; simpl.
  - exists []. by rewrite app_nil_r.
  - destruct (IH (ensureReq_relay req false c relay)) as (sent & E & S).
    assert (Hmono : List.filter (fun r => read r && negb (isActive
                (ensureReq_relay req false c relay) r (req_subId req))) rs
              `sublist_of` List.filter (fun r => read r
                && negb (isActive c r (req_subId req))) rs).
    { apply filter_sublist_mono. intros r [Hr Ha]%andb_true_iff.
      rewrite Hr. simpl. apply negb_true_iff.
      destruct (isActive c r (req_subId req)) eqn:Hc; [|done].
      by rewrite (ensureReq_relay_isActive_mono _ _ _ _ _ _ Hc) in Ha. }
    unfold ensureReq_relay in E |- *. simpl in E.
    fold (isActive c relay (req_subId req)) in E |- *.
    destruct (read relay); simpl in *.
    + destruct (isActive c relay (req_subId req)) eqn:Ha; simpl in *.
      * exists sent. split; [done|]. by etrans.
      * exists (relay :: sent). simpl. rewrite E, <- app_assoc. split; [done|].
        apply sublist_skip. by etrans.
    + exists sent. split; [done|]. by etrans.
Qed.

Lemma ensureReq_relay_other req ow c relay r s :
  s ≠ req_subId req ∨ activeSubIds r ≠ activeSubIds relay →
  isActive (ensureReq_relay req ow c relay) r s = isActive c r s.
Proof.
  intros H. unfold ensureReq_relay.
  destruct (negb (read relay) || _); [done|].
  unfold isActive, Set_has. rewrite subIds_put_subIds, subIds_call.
  case_decide as Hd; [|done]. destruct Hd as [Hd _].
  destruct H as [H|H]; [|congruence]. rewrite <- Hd, includes_Set_add.
  destruct (String.eqb_spec (req_subId req) s); [congruence | done].
Qed.

(** When no two relays share a set, the relays sent the REQ are those that
    are read and did not have the subscription. *)
Lemma ensureReq_keep_exact req rs c :
  NoDup (activeSubIds <$> rs) →
  calls (fold_left (ensureReq_relay req false) rs c)
  = calls c ++ (sendReq req <$>
                  List.filter (fun relay => read relay
                                 && negb (isActive c relay (req_subId req))) rs).
Proof.
  revert c. induction rs as [|relay rs IH]; intros c Hnd; simpl.
  - by rewrite app_nil_r.
  - rewrite fmap_cons in Hnd. apply NoDup_cons in Hnd as [Hnotin Hnd].
    rewrite IH by done.
    rewrite (List.filter_ext_in
               (fun r => read r && negb (isActive
                  (ensureReq_relay req false c relay) r (req_subId req)))
               (fun r => read r && negb (isActive c r (req_subId req)))).
    2:{ intros r Hr%list_elem_of_In. rewrite ensureReq_relay_other; [done|].
        right. intros Heq. apply Hnotin. rewrite <- Heq.
        apply list_elem_of_fmap. by exists r. }
    unfold ensureReq_relay at 1. simpl.
    fold (isActive c relay (req_subId req)).
    destruct (read relay); simpl; [|done].
    destruct (isActive c relay (req_subId req)); simpl; [done|].
    by rewrite <- app_assoc.
Qed.

(** C3.  A REQ issued by [ensureReqOnNext] goes, for the forward strategy,
    to every relay of the pool whose read flag is set, whatever its set of
    active subscription ids holds; for the backward and oneshot strategies
    it goes only to relays whose read flag is set and whose set did not
    hold the subscription id, and, no two relays sharing a set, to each of
    them.  No strategy sends it to a relay whose read flag is false. *)
Theorem ensureReqOnNext_recipients (strategy : Strategy) (req : REQ)
    (c : RxNostrImpl) :
  (∃ sent,
     calls (ensureReqOnNext strategy req c) = calls c ++ (sendReq req <$> sent)
     ∧ match strategy with
       | forward => sent = List.filter read (Map_values (relays c))
       | backward | oneshot =>
           sent `sublist_of`
             List.filter (fun relay => read relay
                                       && negb (isActive c relay (req_subId req)))
                         (Map_values (relays c))
       end)
  ∧ (strategy ≠ forward →
     NoDup (activeSubIds <$> Map_values (relays c)) →
     calls (ensureReqOnNext strategy req c)
     = calls c ++ (sendReq req <$>
                     List.filter (fun relay => read relay
                                    && negb (isActive c relay (req_subId req)))
                                 (Map_values (relays c)))).
Proof.
  unfold ensureReqOnNext, ensureReq. simpl. split.
  - destruct strategy; simpl.
    + eexists. split; [apply ensureReq_overwrite_calls | done].
    + apply ensureReq_keep_calls.
    + apply ensureReq_keep_calls.
  - intros Hs Hnd. destruct strategy; [done| |]; simpl;
      by apply ensureReq_keep_exact.
Qed.

(** ** More on maps *)

Section MapFacts.
Context {V : Type}.
Implicit Types (m : list (string * V)) (k : string) (v : V).

Lemma Map_get_set k' k v m :
  Map_get k' (Map_set k v m) = if String.eqb k' k then Some v else Map_get k' m.
Proof.
  induction m as [|[k0 v0] m IH]; simpl.
  - done.
  - destruct (String.eqb_spec k k0) as [->|Hk]; simpl.
    + by destruct (String.eqb_spec k' k0).
    + destruct (String.eqb_spec k' k0) as [->|Hk'].
      * destruct (String.eqb_spec k0 k); [congruence | done].
      * exact IH.
Qed.

Lemma Map_keys_set k v m :
  Map_keys (Map_set k v m)
  = if includes k (Map_keys m) then Map_keys m else Map_keys m ++ [k].
Proof.
  unfold Map_keys. induction m as [|[k0 v0] m IH]; csimpl; [done|].
  rewrite (String.eqb_sym k0 k).
  destruct (String.eqb_spec k k0) as [->|Hk]; csimpl; [done|].
  rewrite IH. by destruct (includes k m.*1).
Qed.

Lemma Map_keys_set_NoDup k v m :
  NoDup (Map_keys m) → NoDup (Map_keys (Map_set k v m)).
Proof.
  intros H. rewrite Map_keys_set.
  destruct (includes k (Map_keys m)) eqn:Hk; [done|].
  apply NoDup_app. split_and!; [done| |apply NoDup_singleton].
  intros x Hx ->%list_elem_of_singleton.
  by apply includes_false in Hk.
Qed.

Lemma Map_get_elem_of k v m :
  NoDup (Map_keys m) → (k, v) ∈ m → Map_get k m = Some v.
Proof.
  unfold Map_keys. induction m as [|[k0 v0] m IH]; simpl.
  - by intros _ ?%elem_of_nil.
  - intros [Hk0 Hm]%NoDup_cons [[= -> ->]|Hin]%elem_of_cons.
    + by rewrite String.eqb_refl.
    + destruct (String.eqb_spec k k0) as [->|]; [|by apply IH].
      exfalso. apply Hk0. apply list_elem_of_fmap. by exists (k0, v).
Qed.

Lemma Map_values_elem_of v m :
  v ∈ Map_values m ↔ ∃ k, (k, v) ∈ m.
Proof.
  unfold Map_values. rewrite list_elem_of_fmap. split.
  - intros ([k v'] & -> & H). by exists k.
  - intros (k & H). by exists (k, v).
Qed.

Lemma Map_keys_elem_of k m :
  k ∈ Map_keys m ↔ ∃ v, Map_get k m = Some v.
Proof.
  split.
  - intros H. destruct (Map_get k m) as [v|] eqn:E; [by exists v|].
    by apply Map_get_None in E.
  - intros [v E]. destruct (decide (k ∈ Map_keys m)) as [|Hn]; [done|].
    apply Map_get_None in Hn. congruence.
Qed.
End MapFacts.

Section MapRefs.
Context {V : Type}.
Implicit Types (m : list (string * V)) (f : V → nat).

(** Distinct keys hold values with distinct references. *)
Definition ref_inj f m : Prop :=
  ∀ k1 k2 v1 v2, Map_get k1 m = Some v1 → Map_get k2 m = Some v2 →
                 f v1 = f v2 → k1 = k2.

Lemma NoDup_ref_inj f m : NoDup (f <$> Map_values m) → ref_inj f m.
Proof.
  intros Hnd k1 k2 v1 v2 H1%Map_get_Some H2%Map_get_Some Hf.
  apply list_elem_of_lookup in H1 as [i Hi], H2 as [j Hj].
  assert (i = j) as ->; [|congruence].
  eapply NoDup_lookup; [exact Hnd| |].
  - unfold Map_values. by rewrite !list_lookup_fmap, Hi.
  - unfold Map_values. rewrite !list_lookup_fmap, Hj. simpl. by rewrite Hf.
Qed.

Lemma ref_inj_NoDup f m :
  NoDup (Map_keys m) → ref_inj f m → NoDup (f <$> Map_values m).
Proof.
  intros Hk Hinj. apply NoDup_alt. intros i j x Hi Hj.
  unfold Map_values in Hi, Hj. rewrite !list_lookup_fmap in Hi, Hj.
  destruct (m !! i) as [[k1 v1]|] eqn:Ei; [|done].
  destruct (m !! j) as [[k2 v2]|] eqn:Ej; [|done].
  simpl in *. injection Hi as <-. injection Hj as Hf.
  assert (k2 = k1) as ->.
  { eapply Hinj; [| |exact Hf]; apply Map_get_elem_of; try done;
      eapply list_elem_of_lookup_2; eauto. }
  eapply NoDup_lookup; [exact Hk| |]; unfold Map_keys;
    rewrite list_lookup_fmap; [by rewrite Ei | by rewrite Ej].
Qed.
End MapRefs.

(** ** The invariant of the pool

    The facts about the record map and the stores that every method keeps:
    a record is kept under its own url; no two records share a set or a
    websocket; every reference is allocated; a relay that is not read has no
    active subscription id; a REQ is registered under its own subscription
    id. *)
Record consistent (c : RxNostrImpl) : Prop := {
  ok_url : Forall (fun e : string * RelayState => url e.2 = e.1) (relays c);
  ok_keys : NoDup (Map_keys (relays c));
  ok_sets : NoDup (activeSubIds <$> Map_values (relays c));
  ok_sockets : NoDup (websocket <$> Map_values (relays c));
  ok_alloc : Forall (fun r => activeSubIds r < length (sets c)
                              ∧ websocket r < length (sockets c))
                    (Map_values (relays c));
  ok_unread : Forall (fun r => read r = false → subIds c (activeSubIds r) = [])
                     (Map_values (relays c));
  ok_reqs : Forall (fun e : string * REQ => req_subId e.2 = e.1) (activeReqs c);
  ok_reqs_keys : NoDup (Map_keys (activeReqs c));
}.

Lemma consistent_createRxNostr opt : consistent (createRxNostr opt).
Proof. split; simpl; constructor. Qed.

Lemma consistent_get c k p :
  consistent c → Map_get k (relays c) = Some p →
  url p = k
  ∧ activeSubIds p < length (sets c)
  ∧ websocket p < length (sockets c)
  ∧ (read p = false → subIds c (activeSubIds p) = []).
Proof.
  intros Hc Hg%Map_get_Some.
  assert (p ∈ Map_values (relays c)) as Hv by (apply Map_values_elem_of; eauto).
  pose proof (proj1 (Forall_forall _ _) (ok_url c Hc) _ Hg) as H1.
  pose proof (proj1 (Forall_forall _ _) (ok_alloc c Hc) _ Hv) as [H2 H3].
  pose proof (proj1 (Forall_forall _ _) (ok_unread c Hc) _ Hv) as H4.
  done.
Qed.

Lemma ref_inj_set {V} (f : V → nat) k v (m : list (string * V)) :
  ref_inj f m →
  (∀ k2 v2, Map_get k2 m = Some v2 → f v = f v2 → k2 = k) →
  ref_inj f (Map_set k v m).
Proof.
  intros Hm Hv k1 k2 v1 v2. rewrite !Map_get_set.
  destruct (String.eqb_spec k1 k) as [->|H1], (String.eqb_spec k2 k) as [->|H2].
  - done.
  - intros [= <-] Hg Hf. symmetry. eauto.
  - intros Hg [= <-] Hf. symmetry in Hf. eauto.
  - apply Hm.
Qed.

(** ** [getNextRelayState] under the invariant *)

(** What the loop of [getNextRelayState] has built: the client has only
    gained empty sets and websockets, and the records of [next] carry the
    references of the previous record for their url or new ones. *)
Record next_ok (c : RxNostrImpl) (next : list (string * RelayState))
    (ci : RxNostrImpl) : Prop := {
  nx_relays : relays ci = relays c;
  nx_reqs : activeReqs ci = activeReqs c;
  nx_sets : ∃ n, sets ci = sets c ++ replicate n [];
  nx_sockets : length (sockets c) ≤ length (sockets ci);
  nx_keys : NoDup (Map_keys next);
  nx_get : ∀ k r, Map_get k next = Some r →
    url r = k
    ∧ activeSubIds r < length (sets ci)
    ∧ websocket r < length (sockets ci)
    ∧ match Map_get k (relays c) with
      | Some p => activeSubIds r = activeSubIds p ∧ websocket r = websocket p
      | None => length (sets c) ≤ activeSubIds r
                ∧ length (sockets c) ≤ websocket r
      end;
  nx_inj_sets : ref_inj activeSubIds next;
  nx_inj_sockets : ref_inj websocket next;
}.

Lemma next_ok_sets_length c next ci :
  next_ok c next ci → length (sets c) ≤ length (sets ci).
Proof. intros [_ _ [n ->] _ _ _ _ _]. rewrite length_app. lia. Qed.

Lemma next_ok_step c next ci relay :
  consistent c → next_ok c next ci →
  next_ok c (nextRelayState_step (relays c) (next, ci) relay).1
            (nextRelayState_step (relays c) (next, ci) relay).2.
Proof.
  intros Hc Hn. pose proof (next_ok_sets_length _ _ _ Hn) as Hlen.
  destruct Hn as [Hr Hq [n Hs] Hw Hk Hg His Hiw].
  unfold nextRelayState_step.
  destruct (Map_get (r_url relay) (relays c)) as [p|] eqn:Hp; simpl.
  - destruct (consistent_get _ _ _ Hc Hp) as (_ & Hps & Hpw & _).
    split; try done; [by exists n|by apply Map_keys_set_NoDup| | |].
    + intros k r. rewrite Map_get_set.
      destruct (String.eqb_spec k (r_url relay)) as [->|Hne]; [|by apply Hg].
      intros [= <-]. simpl. rewrite Hp. split_and!; try done; lia.
    + apply ref_inj_set; [done|]. simpl. intros k2 v2 H2 Hf.
      destruct (Hg _ _ H2) as (_ & _ & _ & Ho).
      destruct (Map_get k2 (relays c)) as [p2|] eqn:Hp2.
      * destruct Ho as [Ho _]. rewrite Ho in Hf.
        eapply (NoDup_ref_inj _ _ (ok_sets c Hc)); eauto.
      * lia.
    + apply ref_inj_set; [done|]. simpl. intros k2 v2 H2 Hf.
      destruct (Hg _ _ H2) as (_ & _ & _ & Ho).
      destruct (Map_get k2 (relays c)) as [p2|] eqn:Hp2.
      * destruct Ho as [_ Ho]. rewrite Ho in Hf.
        eapply (NoDup_ref_inj _ _ (ok_sockets c Hc)); eauto.
      * lia.
  - split; simpl; try done.
    + exists (n + 1). by rewrite Hs, replicate_add, app_assoc.
    + rewrite length_app. lia.
    + by apply Map_keys_set_NoDup.
    + intros k r. rewrite Map_get_set, !length_app. simpl.
      destruct (String.eqb_spec k (r_url relay)) as [->|Hne].
      * intros [= <-]. simpl. rewrite Hp. split_and!; try done; lia.
      * intros H. destruct (Hg _ _ H) as (? & ? & ? & ?).
        split_and!; try done; lia.
    + apply ref_inj_set; [done|]. simpl. intros k2 v2 H2 Hf.
      destruct (Hg _ _ H2) as (_ & ? & _). lia.
    + apply ref_inj_set; [done|]. simpl. intros k2 v2 H2 Hf.
      destruct (Hg _ _ H2) as (_ & _ & ? & _). lia.
Qed.

Lemma next_ok_fold c l acc :
  consistent c → next_ok c acc.1 acc.2 →
  next_ok c (fold_left (nextRelayState_step (relays c)) l acc).1
            (fold_left (nextRelayState_step (relays c)) l acc).2.
Proof.
  intros Hc. revert acc. induction l as [|relay l IH]; intros [next ci] Hn.
  - done.
  - cbn [fold_left]. apply IH. by apply next_ok_step.
Qed.

Lemma next_ok_loop rels c :
  consistent c →
  next_ok c (nextRelayState_loop (relays c) rels c).1
            (nextRelayState_loop (relays c) rels c).2.
Proof.
  intros Hc. apply next_ok_fold; [done|].
  split; simpl; try done.
  - exists 0. simpl. by rewrite app_nil_r.
  - constructor.
Qed.

Lemma next_ok_getNextRelayState normalizeUrl input c next c0 :
  consistent c →
  getNextRelayState normalizeUrl (relays c) input c = Normal (next, c0) →
  next_ok c next c0.
Proof.
  intros Hc. unfold getNextRelayState.
  destruct (inputRelays normalizeUrl input) as [rels|e]; [|done].
  intros [= E]. pose proof (next_ok_loop rels c Hc) as H. by rewrite E in H.
Qed.

(** ** [finalizeReq] only takes subscription ids away *)

(** [c1] differs from [c] in calls made and subscription ids removed. *)
Record shrinks (c c1 : RxNostrImpl) : Prop := {
  sh_relays : relays c1 = relays c;
  sh_reqs : activeReqs c1 = activeReqs c;
  sh_sockets : sockets c1 = sockets c;
  sh_length : length (sets c1) = length (sets c);
  sh_options : options c1 = options c;
  sh_message : message_stopped c1 = message_stopped c;
  sh_error : error_stopped c1 = error_stopped c;
  sh_status : status_stopped c1 = status_stopped c;
  sh_errors : errors c1 = errors c;
  sh_subIds : ∀ s e, includes e (subIds c1 s) = true → includes e (subIds c s) = true;
}.

Lemma shrinks_refl c : shrinks c c.
Proof. by split. Qed.

Lemma shrinks_trans c1 c2 c3 : shrinks c1 c2 → shrinks c2 c3 → shrinks c1 c3.
Proof.
  intros [] []. split; try congruence. eauto.
Qed.

Lemma shrinks_call k c : shrinks c (call k c).
Proof. by split. Qed.

Lemma shrinks_fold {A} (f : RxNostrImpl → A → RxNostrImpl) (l : list A) c :
  (∀ c a, shrinks c (f c a)) → shrinks c (fold_left f l c).
Proof.
  intros Hf. revert c. induction l as [|a l IH]; intros c; simpl.
  - apply shrinks_refl.
  - eapply shrinks_trans; [apply Hf | apply IH].
Qed.

Lemma includes_Set_delete e x s :
  includes e (Set_delete x s) = true → includes e s = true.
Proof.
  unfold Set_delete. induction s as [|y s IH]; simpl; [done|].
  destruct (negb (String.eqb y x)); simpl.
  - intros [->|H]%orb_true_iff; [done|]. by rewrite IH, orb_true_r.
  - intros H. by rewrite IH, orb_true_r.
Qed.

Lemma finalizeReq_subId_shrinks relay c subId :
  shrinks c (finalizeReq_subId relay c subId).
Proof.
  unfold finalizeReq_subId.
  set (c1 := if Set_has subId _ then _ else c).
  assert (shrinks c c1) as H1.
  { subst c1. destruct (Set_has subId _);
      [apply shrinks_call | apply shrinks_refl]. }
  eapply shrinks_trans; [exact H1|]. split; simpl; try done.
  - apply length_insert.
  - intros s e. rewrite subIds_put_subIds. case_decide as Hd; [|done].
    destruct Hd as [-> _]. apply includes_Set_delete.
Qed.

Lemma finalizeReq_relay_shrinks subId c relay :
  shrinks c (finalizeReq_relay subId c relay).
Proof. apply shrinks_fold. intros. apply finalizeReq_subId_shrinks. Qed.

Lemma finalizeReq_shrinks params c : shrinks c (finalizeReq params c).2.
Proof.
  unfold finalizeReq.
  destruct (fp_subId params) as [s|], (fp_url params) as [u|];
    try apply shrinks_refl.
  all: destruct (truthy _); simpl;
    try (apply shrinks_fold; intros; apply finalizeReq_relay_shrinks).
  all: unfold bind; destruct (unnull _); simpl;
    try apply shrinks_refl; apply finalizeReq_relay_shrinks.
Qed.

(** With a url of the pool [finalizeReq] returns. *)
Lemma finalizeReq_url_returns u c :
  u ∈ Map_keys (relays c) →
  (finalizeReq {| fp_subId := None; fp_url := Some u |} c).1 = Normal ().
Proof.
  intros [r Hr]%Map_keys_elem_of. unfold finalizeReq. simpl.
  destruct (negb (String.eqb u "")); [|done].
  unfold bind. simpl. by rewrite Hr.
Qed.

Lemma lifecycle_shrinks k m c u : shrinks c (lifecycle k m c u).
Proof.
  unfold lifecycle. destruct (Map_get u m);
    [apply shrinks_call | apply shrinks_refl].
Qed.

Lemma stopReading_returns urls c :
  (∀ u, u ∈ urls → u ∈ Map_keys (relays c)) →
  (stopReading urls c).1 = Normal () ∧ shrinks c (stopReading urls c).2.
Proof.
  revert c. induction urls as [|u urls IH]; intros c Hu; simpl.
  - split; [done | apply shrinks_refl].
  - unfold bind at 1 3.
    pose proof (finalizeReq_url_returns u c) as Hn.
    pose proof (finalizeReq_shrinks {| fp_subId := None; fp_url := Some u |} c) as Hs.
    destruct (finalizeReq _ c) as [[[]|e] c1]; simpl in *.
    2:{ discriminate Hn. apply Hu, elem_of_cons; by left. }
    unfold bind, run. simpl.
    destruct (IH (lifecycle WsStop (relays c1) c1 u)) as [E S].
    { intros u' Hu'. simpl. 
      rewrite (sh_relays _ _ (lifecycle_shrinks _ _ _ _)), (sh_relays _ _ Hs).
      apply Hu, elem_of_cons; by right. }
    split; [done|].
    eapply shrinks_trans; [exact Hs|].
    eapply shrinks_trans; [apply lifecycle_shrinks | exact S].
Qed.

(** ** [ensureReq] on relays that do not have the subscription yet *)

Lemma ensureReq_relay_frame req ow c relay :
  relays (ensureReq_relay req ow c relay) = relays c
  ∧ activeReqs (ensureReq_relay req ow c relay) = activeReqs c
  ∧ length (sets (ensureReq_relay req ow c relay)) = length (sets c).
Proof.
  unfold ensureReq_relay. destruct (negb (read relay) || _); [done|].
  simpl. by rewrite length_insert.
Qed.

Lemma ensureReq_relay_active req c relay :
  read relay = true → activeSubIds relay < length (sets c) →
  isActive (ensureReq_relay req false c relay) relay (req_subId req) = true.
Proof.
  intros Hr Hl. unfold ensureReq_relay. rewrite Hr. simpl.
  fold (isActive c relay (req_subId req)).
  destruct (isActive c relay (req_subId req)) eqn:Ha; simpl; [done|].
  unfold isActive, Set_has. rewrite subIds_put_subIds.
  rewrite decide_True by done.
  by rewrite includes_Set_add, String.eqb_refl.
Qed.

Lemma ensureReq_fold_mono req ow rs c r subId :
  isActive c r subId = true →
  isActive (fold_left (ensureReq_relay req ow) rs c) r subId = true.
Proof.
  revert c. induction rs as [|relay rs IH]; intros c H; simpl; [done|].
  by apply IH, ensureReq_relay_isActive_mono.
Qed.

(** Relays that are read and do not have the subscription are each sent the
    REQ, in order, and have it afterwards. *)
Lemma ensureReq_fresh req rs c :
  NoDup (activeSubIds <$> rs) →
  Forall (fun r => read r = true ∧ activeSubIds r < length (sets c)
                   ∧ isActive c r (req_subId req) = false) rs →
  let c' := fold_left (ensureReq_relay req false) rs c in
  calls c' = calls c ++ (sendReq req <$> rs)
  ∧ Forall (fun r => isActive c' r (req_subId req) = true) rs
  ∧ (∀ r s, s ≠ req_subId req → isActive c' r s = isActive c r s)
  ∧ relays c' = relays c ∧ activeReqs c' = activeReqs c
  ∧ length (sets c') = length (sets c).
Proof.
  revert c. induction rs as [|relay rs IH]; intros c Hnd Hall; simpl.
  - rewrite app_nil_r. by split_and!.
  - apply NoDup_cons in Hnd as [Hnotin Hnd].
    apply Forall_cons in Hall as [(Hr & Hl & Ha) Hall].
    destruct (ensureReq_relay_frame req false c relay) as (F1 & F2 & F3).
    destruct (IH (ensureReq_relay req false c relay) Hnd) as
      (E & Hact & Hoth & G1 & G2 & G3).
    { rewrite Forall_forall in Hall |- *. intros r Hin.
      destruct (Hall r Hin) as (? & ? & ?). split_and!; [done|lia|].
      rewrite ensureReq_relay_other; [done|]. right. intros Heq.
      apply Hnotin. rewrite <- Heq. apply list_elem_of_fmap. by exists r. }
    split_and!.
    + rewrite E. unfold ensureReq_relay at 1. rewrite Hr. simpl.
      fold (isActive c relay (req_subId req)). rewrite Ha. simpl.
      by rewrite <- app_assoc.
    + constructor; [|done].
      by apply ensureReq_fold_mono, ensureReq_relay_active.
    + intros r s Hs. rewrite Hoth by done.
      apply ensureReq_relay_other. by left.
    + congruence.
    + congruence.
    + lia.
Qed.

(** Relays that all have the subscription are left alone. *)
Lemma ensureReq_all_active req rs c :
  Forall (fun r => isActive c r (req_subId req) = true) rs →
  fold_left (ensureReq_relay req false) rs c = c.
Proof.
  induction 1 as [|relay rs Ha _ IH]; simpl; [done|].
  unfold ensureReq_relay at 2. simpl.
  fold (isActive c relay (req_subId req)). rewrite Ha.
  rewrite orb_true_r. exact IH.
Qed.

Lemma ensureActiveReqs_mono reqs next urls c r s :
  isActive c r s = true →
  isActive (ensureActiveReqs reqs next urls c).2 r s = true.
Proof.
  revert c. induction reqs as [|req reqs IH]; intros c H; simpl; [done|].
  unfold bind, liftC, run. destruct (relaysToBeRead next urls); simpl; [|done].
  by apply IH, ensureReq_fold_mono.
Qed.

(** The first loop over the registry: every registered REQ goes once to
    every relay to be read. *)
Lemma ensureActiveReqs_fresh reqs next urls rs c :
  relaysToBeRead next urls = Normal rs →
  NoDup (activeSubIds <$> rs) →
  NoDup (req_subId <$> reqs) →
  Forall (fun r => read r = true ∧ activeSubIds r < length (sets c)) rs →
  (∀ r req, r ∈ rs → req ∈ reqs → isActive c r (req_subId req) = false) →
  let res := ensureActiveReqs reqs next urls c in
  res.1 = Normal ()
  ∧ calls res.2 = calls c ++ concat ((fun req => sendReq req <$> rs) <$> reqs)
  ∧ (∀ r req, r ∈ rs → req ∈ reqs → isActive res.2 r (req_subId req) = true)
  ∧ relays res.2 = relays c ∧ activeReqs res.2 = activeReqs c
  ∧ length (sets res.2) = length (sets c).
Proof.
  intros Hrs Hnd. revert c.
  induction reqs as [|req reqs IH]; intros c Hreqs Hall Hfresh; simpl.
  - rewrite app_nil_r. split_and!; try done. by intros r req _ ?%elem_of_nil.
  - unfold bind, liftC, run. rewrite Hrs. simpl. unfold ensureReq. simpl.
    apply NoDup_cons in Hreqs as [Hnotin Hreqs].
    destruct (ensureReq_fresh req rs c Hnd) as (E & Hact & Hoth & F1 & F2 & F3).
    { rewrite Forall_forall in Hall |- *. intros r Hin.
      destruct (Hall r Hin). split_and!; try done.
      apply Hfresh; [done | apply elem_of_cons; by left]. }
    set (c1 := fold_left (ensureReq_relay req false) rs c) in *.
    destruct (IH c1 Hreqs) as (R & E' & Hact' & G1 & G2 & G3).
    { rewrite Forall_forall in Hall |- *. intros r Hin.
      destruct (Hall r Hin). split; [done | lia]. }
    { intros r req' Hr Hreq'. rewrite Hoth.
      - apply Hfresh; [done | apply elem_of_cons; by right].
      - intros Heq. apply Hnotin. rewrite <- Heq.
        apply list_elem_of_fmap. by exists req'. }
    split_and!; try congruence.
    + rewrite E', E. by rewrite <- app_assoc.
    + intros r req' Hr [->|Hreq']%elem_of_cons; [|by apply Hact'].
      apply ensureActiveReqs_mono.
      by apply (proj1 (Forall_forall _ _) Hact).
Qed.

(** The second loop over the registry finds every subscription active. *)
Lemma ensureActiveReqs_all_active reqs next urls rs c :
  relaysToBeRead next urls = Normal rs →
  (∀ r req, r ∈ rs → req ∈ reqs → isActive c r (req_subId req) = true) →
  ensureActiveReqs reqs next urls c = (Normal (), c).
Proof.
  intros Hrs. induction reqs as [|req reqs IH]; intros Hact; simpl; [done|].
  unfold bind, liftC, run. rewrite Hrs. simpl. unfold ensureReq. simpl.
  rewrite ensureReq_all_active.
  - apply IH. intros r req' Hr Hreq'. apply Hact; [done|].
    apply elem_of_cons; by right.
  - apply Forall_forall. intros r Hr. apply Hact; [done|].
    apply elem_of_cons; by left.
Qed.

(** [relaysToBeRead] finds the record of every url of the map. *)
Lemma relaysToBeRead_returns next urls :
  (∀ u, u ∈ urls → u ∈ Map_keys next) →
  ∃ rs, relaysToBeRead next urls = Normal rs
        ∧ Forall2 (fun u r => Map_get u next = Some r) urls rs.
Proof.
  induction urls as [|u urls IH]; intros Hu; simpl.
  - by exists [].
  - destruct IH as (rs & E & F).
    { intros u' Hu'. apply Hu, elem_of_cons; by right. }
    destruct (proj1 (Map_keys_elem_of u next)) as [r Hr].
    { apply Hu, elem_of_cons; by left. }
    exists (r :: rs). rewrite Hr, E. simpl. split; [done|]. by constructor.
Qed.

(** ** Counting calls *)

#[global] Instance Event_eq_dec : EqDecision Event.
Proof. solve_decision. Defined.
#[global] Instance Filter_eq_dec : EqDecision Filter.
Proof. solve_decision. Defined.
#[global] Instance REQ_eq_dec : EqDecision REQ.
Proof. solve_decision. Defined.
#[global] Instance OutgoingMessage_eq_dec : EqDecision OutgoingMessage.
Proof. solve_decision. Defined.
#[global] Instance Call_eq_dec : EqDecision Call.
Proof. solve_decision. Defined.

(** How many times the call [k] occurs in [t]. *)
Definition occurrences (k : Call) (t : list Call) : nat :=
  length (List.filter (fun k' => bool_decide (k' = k)) t).

Lemma occurrences_app k t1 t2 :
  occurrences k (t1 ++ t2) = occurrences k t1 + occurrences k t2.
Proof. unfold occurrences. by rewrite List.filter_app, length_app. Qed.

Lemma occurrences_none (P : Call → Prop) k t :
  Forall P t → ¬ P k → occurrences k t = 0.
Proof.
  unfold occurrences. induction 1 as [|k' t Hk' _ IH]; intros Hk; simpl; [done|].
  rewrite bool_decide_eq_false_2; [by apply IH | congruence].
Qed.

Lemma occurrences_sendReq_other req req' relay rs :
  req' ≠ req → occurrences (sendReq req relay) (sendReq req' <$> rs) = 0.
Proof.
  intros Hne. unfold occurrences.
  induction rs as [|r rs IH]; csimpl; [done|].
  rewrite bool_decide_eq_false_2; [done|]. unfold sendReq. congruence.
Qed.

Lemma occurrences_sendReq_absent req relay rs :
  websocket relay ∉ websocket <$> rs →
  occurrences (sendReq req relay) (sendReq req <$> rs) = 0.
Proof.
  unfold occurrences. induction rs as [|r rs IH]; csimpl; [done|].
  intros [Hne Hrs]%not_elem_of_cons.
  rewrite bool_decide_eq_false_2; [by apply IH|]. unfold sendReq. congruence.
Qed.

Lemma occurrences_sendReq_once req relay rs :
  NoDup (websocket <$> rs) → relay ∈ rs →
  occurrences (sendReq req relay) (sendReq req <$> rs) = 1.
Proof.
  induction rs as [|r rs IH]; csimpl; [by intros _ ?%elem_of_nil|].
  intros [Hnotin Hnd]%NoDup_cons [->|Hin]%elem_of_cons.
  - change (sendReq req r :: (sendReq req <$> rs))
      with ([sendReq req r] ++ (sendReq req <$> rs)).
    rewrite occurrences_app, occurrences_sendReq_absent by done.
    unfold occurrences. simpl. by rewrite bool_decide_eq_true_2.
  - change (sendReq req r :: (sendReq req <$> rs))
      with ([sendReq req r] ++ (sendReq req <$> rs)).
    rewrite occurrences_app, IH by done.
    unfold occurrences. simpl. rewrite bool_decide_eq_false_2; [done|].
    unfold sendReq. intros [= Hw]. apply Hnotin. rewrite Hw.
    apply list_elem_of_fmap. by exists relay.
Qed.

Lemma occurrences_registry req relay rs reqs :
  NoDup reqs → req ∈ reqs → NoDup (websocket <$> rs) → relay ∈ rs →
  occurrences (sendReq req relay)
              (concat ((fun req' => sendReq req' <$> rs) <$> reqs)) = 1.
Proof.
  intros Hnd Hin Hws Hr.
  induction reqs as [|req' reqs IH]; csimpl; [by apply elem_of_nil in Hin|].
  apply NoDup_cons in Hnd as [Hnotin Hnd]. rewrite occurrences_app.
  apply elem_of_cons in Hin as [->|Hin].
  - rewrite occurrences_sendReq_once by done.
    assert (occurrences (sendReq req' relay)
              (concat ((fun r' => sendReq r' <$> rs) <$> reqs)) = 0) as ->; [|done].
    clear IH Hnd. induction reqs as [|r0 reqs IH]; csimpl; [done|].
    apply not_elem_of_cons in Hnotin as [Hne Hnotin].
    rewrite occurrences_app, occurrences_sendReq_other by done. by apply IH.
  - rewrite occurrences_sendReq_other, IH; try done. by intros ->.
Qed.

(** ** The relays a transition starts to read *)

Lemma elem_of_subtract u a b : u ∈ subtract a b ↔ u ∈ a ∧ u ∉ b.
Proof.
  unfold subtract. rewrite !list_elem_of_In, List.filter_In.
  rewrite negb_true_iff, includes_false, !list_elem_of_In. tauto.
Qed.

Lemma elem_of_getReadableUrls u rs :
  u ∈ getReadableUrls rs ↔ ∃ r, r ∈ rs ∧ read r = true ∧ url r = u.
Proof.
  unfold getReadableUrls. rewrite list_elem_of_In, List.in_map_iff. split.
  - intros (r & <- & [Hr Hread]%List.filter_In). exists r.
    by rewrite list_elem_of_In.
  - intros (r & Hr & Hread & <-). exists r. split; [done|].
    apply List.filter_In. by rewrite <- list_elem_of_In.
Qed.

Lemma NoDup_List_filter {A} (p : A → bool) (l : list A) :
  NoDup l → NoDup (List.filter p l).
Proof.
  induction 1 as [|x l Hx _ IH]; simpl; [constructor|].
  destruct (p x); [|done]. constructor; [|done].
  rewrite list_elem_of_In, List.filter_In, <- list_elem_of_In. tauto.
Qed.

Lemma NoDup_getReadableUrls (m : list (string * RelayState)) :
  NoDup (Map_keys m) →
  (∀ k r, Map_get k m = Some r → url r = k) →
  NoDup (getReadableUrls (Map_values m)).
Proof.
  intros Hk Hurl. unfold getReadableUrls.
  assert (Hall : ∀ k r, (k, r) ∈ m → url r = k).
  { intros k r Hin. by apply Hurl, Map_get_elem_of. }
  clear Hurl. unfold Map_keys, Map_values in *.
  induction m as [|[k r] m IH]; [constructor|].
  rewrite fmap_cons in Hk. apply NoDup_cons in Hk as [Hk Hnd].
  assert (IH' : NoDup (map url (List.filter read m.*2))).
  { apply IH; [done|]. intros k' r' Hin. apply Hall, elem_of_cons. by right. }
  rewrite fmap_cons. cbn [List.filter snd fst] in *.
  destruct (read r); [|done]. cbn [map]. constructor; [|done].
  intros Hin. apply Hk.
  apply list_elem_of_In, List.in_map_iff in Hin as (r' & Hr & [Hr' _]%List.filter_In).
  apply list_elem_of_In, list_elem_of_fmap in Hr' as ([k' r''] & Heq & Hin).
  cbn [snd] in Heq. subst r''.
  assert (url r' = k') as Hk' by (apply Hall, elem_of_cons; by right).
  assert (url r = k) as Hkr by (apply Hall, elem_of_cons; by left).
  apply list_elem_of_fmap. exists (k', r'). split; [|done].
  cbn [fst]. congruence.
Qed.

Section Lookups.
Context {V : Type} (m : list (string * V)).

Lemma lookups_Forall (P : V → Prop) us vs :
  Forall2 (fun u v => Map_get u m = Some v) us vs →
  (∀ u v, u ∈ us → Map_get u m = Some v → P v) →
  Forall P vs.
Proof.
  induction 1 as [|u v us vs Huv _ IH]; intros HP; constructor.
  - eapply HP; [|exact Huv]. apply elem_of_cons; by left.
  - apply IH. intros u' v' Hu'. apply HP, elem_of_cons; by right.
Qed.

Lemma lookups_elem_of us vs v :
  Forall2 (fun u v => Map_get u m = Some v) us vs →
  v ∈ vs → ∃ u, u ∈ us ∧ Map_get u m = Some v.
Proof.
  induction 1 as [|u v' us vs Huv _ IH]; [by intros ?%elem_of_nil|].
  intros [->|Hin]%elem_of_cons.
  - exists u. split; [apply elem_of_cons; by left | done].
  - destruct (IH Hin) as (u' & ? & ?). exists u'.
    split; [apply elem_of_cons; by right | done].
Qed.


Lemma lookups_lookup us vs u :
  Forall2 (fun u v => Map_get u m = Some v) us vs →
  u ∈ us → ∃ v, Map_get u m = Some v ∧ v ∈ vs.
Proof.
  induction 1 as [|u' v' us vs Huv _ IH]; [by intros ?%elem_of_nil|].
  intros [->|Hin]%elem_of_cons.
  - exists v'. split; [done | apply elem_of_cons; by left].
  - destruct (IH Hin) as (v & ? & ?). exists v.
    split; [done | apply elem_of_cons; by right].
Qed.

Lemma lookups_NoDup (f : V → nat) us vs :
  Forall2 (fun u v => Map_get u m = Some v) us vs →
  NoDup us → ref_inj f m → NoDup (f <$> vs).
Proof.
  intros H Hnd Hinj. induction H as [|u v us vs Huv H IH]; csimpl; [constructor|].
  apply NoDup_cons in Hnd as [Hu Hnd]. constructor; [|by apply IH].
  intros (v' & Hf & Hv')%list_elem_of_fmap.
  destruct (lookups_elem_of _ _ _ H Hv') as (u' & Hu' & Hg').
  assert (u = u') as -> by (eapply Hinj; eauto). done.
Qed.
End Lookups.

Lemma starts_calls (next : list (string * RelayState)) urls rs c :
  Forall2 (fun u r => Map_get u next = Some r) urls rs →
  let c' := fold_left (lifecycle WsStart next) urls c in
  calls c' = calls c ++ ((fun r => WsStart (websocket r)) <$> rs)
  ∧ sets c' = sets c ∧ relays c' = relays c ∧ activeReqs c' = activeReqs c.
Proof.
  intros H. revert c. induction H as [|u r urls rs Hur _ IH]; intros c; simpl.
  - by rewrite app_nil_r.
  - destruct (IH (lifecycle WsStart next c u)) as (E & F1 & F2 & F3).
    rewrite E, F1, F2, F3. unfold lifecycle. rewrite Hur. simpl.
    by rewrite <- app_assoc.
Qed.

Lemma lifecycle_fold_frame k (m : list (string * RelayState)) urls c :
  sets (fold_left (lifecycle k m) urls c) = sets c
  ∧ relays (fold_left (lifecycle k m) urls c) = relays c
  ∧ activeReqs (fold_left (lifecycle k m) urls c) = activeReqs c.
Proof.
  revert c. induction urls as [|u urls IH]; intros c; simpl; [done|].
  destruct (IH (lifecycle k m c u)) as (-> & -> & ->).
  unfold lifecycle. by destruct (Map_get u m).
Qed.

Lemma next_ok_subIds_prev c next c0 s :
  next_ok c next c0 → s < length (sets c) → subIds c0 s = subIds c s.
Proof.
  intros Hn Hlt. destruct (nx_sets _ _ _ Hn) as [n Hs].
  unfold subIds. by rewrite Hs, lookup_app_l.
Qed.

Lemma next_ok_subIds_new c next c0 s :
  next_ok c next c0 → length (sets c) ≤ s → subIds c0 s = [].
Proof.
  intros Hn Hle. destruct (nx_sets _ _ _ Hn) as [n Hs].
  unfold subIds. rewrite Hs, lookup_app_r by done.
  destruct (replicate n [] !! (s - length (sets c))) as [l|] eqn:E; [|done].
  by apply lookup_replicate_1 in E as [-> _].
Qed.

(** A relay that starts to be read has no active subscription id when
    [getNextRelayState] returns: its set is new, or it is the set of a relay
    that was not read. *)
Lemma to_be_read_fresh c next c0 u r :
  consistent c → next_ok c next c0 →
  Map_get u next = Some r →
  u ∉ getReadableUrls (Map_values (relays c)) →
  subIds c0 (activeSubIds r) = [].
Proof.
  intros Hc Hn Hg Hu.
  destruct (nx_get _ _ _ Hn _ _ Hg) as (_ & Hlt & _ & Ho).
  destruct (nx_sets _ _ _ Hn) as [n Hs].
  destruct (Map_get u (relays c)) as [p|] eqn:Hp.
  - destruct Ho as [Ho _].
    destruct (consistent_get _ _ _ Hc Hp) as (Hup & Hps & _ & Hun).
    assert (read p = false) as Hread.
    { destruct (read p) eqn:Hr; [|done]. exfalso. apply Hu.
      apply elem_of_getReadableUrls. exists p. split_and!; try done.
      apply Map_values_elem_of. exists u. by apply Map_get_Some. }
    rewrite Ho. rewrite <- (Hun Hread). unfold subIds.
    by rewrite Hs, lookup_app_l.
  - destruct Ho as [Ho _]. unfold subIds.
    rewrite Hs, length_app, length_replicate in Hlt.
    rewrite Hs, lookup_app_r by done.
    rewrite lookup_replicate_2; [done | lia].
Qed.

(** ** The invariant is kept *)

Lemma no_member_nil (l : list string) :
  (∀ e, includes e l = true → False) → l = [].
Proof.
  destruct l as [|y l]; [done|]. intros H. exfalso. apply (H y).
  simpl. by rewrite String.eqb_refl.
Qed.

Lemma shrinks_empty c c' s : shrinks c c' → subIds c s = [] → subIds c' s = [].
Proof.
  intros S H. apply no_member_nil. intros e He.
  apply (sh_subIds _ _ S) in He. by rewrite H in He.
Qed.

Lemma consistent_shrinks c c' : consistent c → shrinks c c' → consistent c'.
Proof.
  intros [H1 H2 H3 H4 H5 H6 H7 H8] S.
  split; rewrite ?(sh_relays _ _ S), ?(sh_reqs _ _ S); try done.
  - rewrite (sh_length _ _ S), (sh_sockets _ _ S). done.
  - eapply Forall_impl; [exact H6|]. intros r Hr Hread.
    by eapply shrinks_empty; eauto.
Qed.

Lemma consistent_stopped m e c : consistent c → consistent (with_stopped m e c).
Proof. intros []. by split. Qed.

Lemma consistent_set_socket w s c : consistent c → consistent (set_socket w s c).
Proof.
  intros [H1 H2 H3 H4 H5 H6 H7 H8]. split; simpl; try done.
  by rewrite length_insert.
Qed.

Lemma consistent_errors v c : consistent c → consistent (with_errors v c).
Proof. intros []. by split. Qed.

Lemma consistent_clear s c : consistent c → consistent (put_subIds s [] c).
Proof.
  intros [H1 H2 H3 H4 H5 H6 H7 H8]. split; simpl; try done.
  - by rewrite length_insert.
  - eapply Forall_impl; [exact H6|]. intros r Hr Hread.
    change (subIds (put_subIds s [] c) (activeSubIds r) = []).
    rewrite subIds_put_subIds. case_decide; [done | by apply Hr].
Qed.

Lemma consistent_on_error w reason c : consistent c → consistent (on_error w reason c).
Proof.
  intros Hc. unfold on_error. destruct (sockets c !! w) as [s|]; [|done].
  destruct (ws_piped s); [|done].
  destruct (_ <? _)%nat; [by apply consistent_set_socket|].
  apply consistent_set_socket.
  assert (consistent (match Map_get (ws_url s) (relays c) with
                      | Some relay => put_subIds (activeSubIds relay) [] c
                      | None => c end)) as H.
  { destruct (Map_get _ _); [by apply consistent_clear | done]. }
  destruct (error_stopped _); [done | by apply consistent_errors].
Qed.

Lemma Forall_Map_set {V} (P : string * V → Prop) k v m :
  Forall P m → P (k, v) → Forall P (Map_set k v m).
Proof.
  intros Hm Hv. induction Hm as [|[k' v'] m Hkv Hm IH]; simpl.
  - by constructor.
  - destruct (String.eqb_spec k k') as [->|]; by constructor.
Qed.

Lemma Map_delete_sublist {V} k (m : list (string * V)) :
  Map_delete k m `sublist_of` m.
Proof.
  induction m as [|[k' v'] m IH]; simpl; [done|].
  destruct (String.eqb k k'); [by apply sublist_cons | by apply sublist_skip].
Qed.

Lemma consistent_recordActiveReq req c :
  consistent c → consistent (recordActiveReq req c).
Proof.
  intros [H1 H2 H3 H4 H5 H6 H7 H8]. split; simpl; try done.
  - by apply Forall_Map_set.
  - by apply Map_keys_set_NoDup.
Qed.

Lemma consistent_forgetActiveReq subId c :
  consistent c → consistent (forgetActiveReq subId c).
Proof.
  intros [H1 H2 H3 H4 H5 H6 H7 H8]. split; simpl; try done.
  - apply Forall_forall. intros e He.
    apply (proj1 (Forall_forall _ _) H7).
    eapply elem_of_sublist; [exact He | apply Map_delete_sublist].
  - eapply sublist_NoDup; [exact H8|].
    unfold Map_keys. apply fmap_sublist, Map_delete_sublist.
Qed.

Lemma NoDup_fmap_elem {A} (f : A → nat) (l : list A) x y :
  NoDup (f <$> l) → x ∈ l → y ∈ l → f x = f y → x = y.
Proof.
  intros Hnd [i Hi]%list_elem_of_lookup [j Hj]%list_elem_of_lookup Hf.
  assert (i = j) as ->; [|congruence].
  eapply NoDup_lookup; [exact Hnd| |]; rewrite list_lookup_fmap.
  - by rewrite Hi.
  - rewrite Hj. simpl. by rewrite Hf.
Qed.

Lemma ensureReq_relay_subIds req ow c relay s :
  s ≠ activeSubIds relay ∨ read relay = false →
  subIds (ensureReq_relay req ow c relay) s = subIds c s.
Proof.
  intros H. unfold ensureReq_relay.
  destruct (read relay) eqn:Hr; simpl; [|done].
  destruct (negb ow && _); [done|].
  rewrite subIds_put_subIds, subIds_call. case_decide as Hd; [|done].
  destruct Hd as [Hd _]. destruct H as [H|H]; congruence.
Qed.

Lemma ensureReq_relay_sockets req ow c relay :
  sockets (ensureReq_relay req ow c relay) = sockets c.
Proof. unfold ensureReq_relay. by destruct (negb (read relay) || _). Qed.

Lemma ensureReq_fold_frame req ow rs c :
  relays (fold_left (ensureReq_relay req ow) rs c) = relays c
  ∧ activeReqs (fold_left (ensureReq_relay req ow) rs c) = activeReqs c
  ∧ sockets (fold_left (ensureReq_relay req ow) rs c) = sockets c
  ∧ length (sets (fold_left (ensureReq_relay req ow) rs c)) = length (sets c)
  ∧ ∀ s, (∀ r, r ∈ rs → read r = true → s ≠ activeSubIds r) →
         subIds (fold_left (ensureReq_relay req ow) rs c) s = subIds c s.
Proof.
  revert c. induction rs as [|relay rs IH]; intros c; simpl; [done|].
  destruct (IH (ensureReq_relay req ow c relay)) as (-> & -> & -> & -> & Hs).
  destruct (ensureReq_relay_frame req ow c relay) as (-> & -> & ->).
  rewrite ensureReq_relay_sockets. split_and!; try done.
  intros s Hne. rewrite Hs.
  - apply ensureReq_relay_subIds. destruct (read relay) eqn:Hr; [left|by right].
    apply Hne; [apply elem_of_cons; by left | done].
  - intros r Hr. apply Hne, elem_of_cons. by right.
Qed.

(** A REQ issued to the pool keeps the invariant: only relays that are
    read gain a subscription id. *)
Lemma consistent_ensureReq req ow c :
  consistent c → consistent (ensureReq req None ow c).
Proof.
  intros Hc. unfold ensureReq. simpl.
  destruct (ensureReq_fold_frame req ow (Map_values (relays c)) c)
    as (Hr & Hq & Hso & Hl & Hs).
  destruct Hc as [H1 H2 H3 H4 H5 H6 H7 H8].
  split; rewrite ?Hr, ?Hq, ?Hso, ?Hl; try done.
  apply Forall_forall. intros r Hin Hread. rewrite Hs.
  - by apply (proj1 (Forall_forall _ _) H6).
  - intros r' Hin' Hread' Heq.
    assert (r = r') as ->; [|congruence].
    by apply (NoDup_fmap_elem activeSubIds (Map_values (relays c))).
Qed.

(** *** [finalizeReq({ url })] empties the set of the relay *)

Lemma includes_Set_delete_eq e x s :
  includes e (Set_delete x s) = includes e s && negb (String.eqb x e).
Proof.
  unfold Set_delete. induction s as [|y s IH]; simpl; [done|].
  destruct (String.eqb_spec y x) as [->|Hyx]; simpl.
  - rewrite IH. destruct (String.eqb x e); simpl; [by rewrite andb_false_r | done].
  - rewrite IH. destruct (String.eqb_spec y e) as [->|Hye]; simpl; [|done].
    destruct (String.eqb_spec x e); [congruence | done].
Qed.

Lemma includes_fold_delete e l s :
  includes e (fold_left (fun s' x => Set_delete x s') l s)
  = includes e s && negb (includes e l).
Proof.
  revert s. induction l as [|x l IH]; intros s; simpl.
  - by rewrite andb_true_r.
  - rewrite IH, includes_Set_delete_eq, negb_orb. by rewrite andb_assoc.
Qed.

Lemma finalizeReq_subId_own relay c subId :
  activeSubIds relay < length (sets c) →
  subIds (finalizeReq_subId relay c subId) (activeSubIds relay)
  = Set_delete subId (subIds c (activeSubIds relay)).
Proof.
  intros Hlt. unfold finalizeReq_subId.
  rewrite subIds_put_subIds.
  destruct (Set_has subId _); simpl; by rewrite decide_True.
Qed.

Lemma finalizeReq_relay_own relay c l :
  activeSubIds relay < length (sets c) →
  subIds (fold_left (finalizeReq_subId relay) l c) (activeSubIds relay)
  = fold_left (fun s' x => Set_delete x s') l (subIds c (activeSubIds relay)).
Proof.
  revert c. induction l as [|x l IH]; intros c Hlt; simpl; [done|].
  rewrite IH.
  - by rewrite finalizeReq_subId_own.
  - by rewrite (sh_length _ _ (finalizeReq_subId_shrinks relay c x)).
Qed.

Lemma finalizeReq_relay_clears relay c :
  activeSubIds relay < length (sets c) →
  subIds (finalizeReq_relay None c relay) (activeSubIds relay) = [].
Proof.
  intros Hlt. unfold finalizeReq_relay. simpl.
  rewrite finalizeReq_relay_own by done.
  apply no_member_nil. intros e. rewrite includes_fold_delete.
  by destruct (includes e _).
Qed.

Lemma finalizeReq_relays_clear rs relay c :
  relay ∈ rs → activeSubIds relay < length (sets c) →
  subIds (fold_left (finalizeReq_relay None) rs c) (activeSubIds relay) = [].
Proof.
  revert c. induction rs as [|r rs IH]; intros c Hin Hlt; simpl.
  - by apply elem_of_nil in Hin.
  - pose proof (finalizeReq_relay_shrinks None c r) as S.
    apply elem_of_cons in Hin as [<-|Hin].
    + eapply shrinks_empty.
      * apply shrinks_fold. intros. apply finalizeReq_relay_shrinks.
      * by apply finalizeReq_relay_clears.
    + apply IH; [done|]. by rewrite (sh_length _ _ S).
Qed.

Lemma finalizeReq_url_clears u relay c :
  Map_get u (relays c) = Some relay →
  activeSubIds relay < length (sets c) →
  subIds (finalizeReq {| fp_subId := None; fp_url := Some u |} c).2
         (activeSubIds relay) = [].
Proof.
  intros Hg Hlt. unfold finalizeReq. simpl.
  destruct (negb (String.eqb u "")).
  - unfold bind. simpl. rewrite Hg. simpl. by apply finalizeReq_relay_clears.
  - simpl. apply finalizeReq_relays_clear; [|done].
    apply Map_values_elem_of. exists u. by apply Map_get_Some.
Qed.

Lemma stopReading_shrinks urls c : shrinks c (stopReading urls c).2.
Proof.
  revert c. induction urls as [|v urls IH]; intros c; simpl.
  - apply shrinks_refl.
  - unfold bind at 1.
    pose proof (finalizeReq_shrinks {| fp_subId := None; fp_url := Some v |} c) as S.
    destruct (finalizeReq _ c) as [[[]|e] c1]; simpl in *; [|done].
    unfold bind, run. simpl.
    eapply shrinks_trans; [exact S|].
    eapply shrinks_trans; [apply lifecycle_shrinks | apply IH].
Qed.

Lemma stopReading_clears urls c u relay :
  (∀ v, v ∈ urls → v ∈ Map_keys (relays c)) →
  u ∈ urls → Map_get u (relays c) = Some relay →
  activeSubIds relay < length (sets c) →
  subIds (stopReading urls c).2 (activeSubIds relay) = [].
Proof.
  revert c. induction urls as [|u0 urls IH]; intros c Hkeys Hin Hg Hlt.
  - by apply elem_of_nil in Hin.
  - simpl. unfold bind at 1.
    pose proof (finalizeReq_shrinks {| fp_subId := None; fp_url := Some u0 |} c) as S.
    pose proof (finalizeReq_url_clears u0 relay c) as Hclear.
    pose proof (finalizeReq_url_returns u0 c) as Hret.
    destruct (finalizeReq _ c) as [[[]|e] c1]; simpl in *.
    2:{ discriminate Hret. apply Hkeys, elem_of_cons. by left. }
    unfold bind, run. simpl.
    set (c2 := lifecycle WsStop (relays c1) c1 u0).
    assert (shrinks c1 c2) as S2 by apply lifecycle_shrinks.
    destruct (decide (u0 = u)) as [->|Hne].
    + eapply shrinks_empty; [apply stopReading_shrinks|].
      eapply shrinks_empty; [exact S2 | by apply Hclear].
    + apply elem_of_cons in Hin as [->|Hin]; [done|].
      apply IH; [|done| |].
      * intros v Hv. rewrite (sh_relays _ _ S2), (sh_relays _ _ S).
        apply Hkeys, elem_of_cons. by right.
      * by rewrite (sh_relays _ _ S2), (sh_relays _ _ S).
      * by rewrite (sh_length _ _ S2), (sh_length _ _ S).
Qed.

Lemma ensureActiveReqs_frame reqs next urls rs c :
  relaysToBeRead next urls = Normal rs →
  sockets (ensureActiveReqs reqs next urls c).2 = sockets c
  ∧ ∀ s, (∀ r, r ∈ rs → read r = true → s ≠ activeSubIds r) →
         subIds (ensureActiveReqs reqs next urls c).2 s = subIds c s.
Proof.
  intros Hrs. revert c. induction reqs as [|req reqs IH]; intros c; simpl; [done|].
  unfold bind, liftC, run. rewrite Hrs. simpl. unfold ensureReq. simpl.
  destruct (IH (fold_left (ensureReq_relay req false) rs c)) as [-> Hs].
  destruct (ensureReq_fold_frame req false rs c) as (_ & _ & -> & _ & Hf).
  split; [done|]. intros s Hne. by rewrite Hs, Hf.
Qed.

Lemma registry_subIds (l : list (string * REQ)) :
  Forall (fun e : string * REQ => req_subId e.2 = e.1) l →
  req_subId <$> Map_values l = Map_keys l.
Proof.
  unfold Map_values, Map_keys.
  induction 1 as [|[k q] l Hq _ IH]; csimpl; [done|].
  simpl in Hq. by rewrite Hq, IH.
Qed.

Section Transition.
Variable normalizeUrl : string → Completion string.

(** What [setRelays] does from a consistent client: it returns; the relays
    [rs] that start to be read are the records of the new map for the urls
    read now and not before; the calls are the CLOSEs and stops of the
    relays no longer read, a start for each of [rs], every registered REQ
    once to each of [rs], and the disposals. *)
Lemma setRelays_run input c next c0 :
  consistent c →
  getNextRelayState normalizeUrl (relays c) input c = Normal (next, c0) →
  ∃ rs dropped disposed c',
    setRelays normalizeUrl input c = (Normal (), c')
    ∧ Forall2 (fun u r => Map_get u (relays c') = Some r)
        (subtract (getReadableUrls (Map_values (relays c')))
                  (getReadableUrls (Map_values (relays c)))) rs
    ∧ calls c' = calls c ++ dropped
                 ++ ((fun r => WsStart (websocket r)) <$> rs)
                 ++ concat ((fun req => sendReq req <$> rs)
                              <$> Map_values (activeReqs c))
                 ++ disposed
    ∧ Forall (fun k => isCloseSend k ∨ isStop k) dropped
    ∧ Forall isDispose disposed
    ∧ NoDup (websocket <$> rs)
    ∧ (∀ r req, r ∈ rs → req ∈ Map_values (activeReqs c) →
                isActive c' r (req_subId req) = true)
    ∧ activeReqs c' = activeReqs c
    ∧ consistent c'.
Proof.
  intros Hc EG. unfold setRelays. rewrite EG. unfold installRelays.
  pose proof (next_ok_getNextRelayState normalizeUrl input c next c0 Hc EG) as Hn.
  pose proof (getNextRelayState_calls normalizeUrl (relays c) input c next c0 EG)
    as Hcalls.
  rewrite (nx_relays _ _ _ Hn).
  set (prevR := getReadableUrls (Map_values (relays c))).
  set (nextR := getReadableUrls (Map_values next)).
  (* the relays no longer read *)
  destruct (stopReading_returns (subtract prevR nextR) c0) as [E1 S1].
  { intros u [Hu _]%elem_of_subtract. rewrite (nx_relays _ _ _ Hn).
    apply elem_of_getReadableUrls in Hu as (r & [k Hr]%Map_values_elem_of & _ & <-).
    pose proof (proj1 (Forall_forall _ _) (ok_url c Hc) _ Hr) as Hk.
    simpl in Hk. rewrite Hk.
    apply list_elem_of_fmap. by exists (k, r). }
  destruct (stopReading_appends (subtract prevR nextR) c0) as (dropped & D1 & D2).
  pose proof (fun u relay H => stopReading_clears (subtract prevR nextR) c0 u relay H)
    as Hclr.
  unfold bind at 1.
  destruct (stopReading (subtract prevR nextR) c0) as [res1 c1].
  simpl in E1, S1, D1, Hclr. subst res1.
  (* the relays to be read *)
  destruct (relaysToBeRead_returns next (subtract nextR prevR)) as (rs & Hrs & HF2).
  { intros u [Hu _]%elem_of_subtract.
    apply elem_of_getReadableUrls in Hu as (r & [k Hr]%Map_values_elem_of & _ & <-).
    pose proof (Map_get_elem_of _ _ _ (nx_keys _ _ _ Hn) Hr) as Hg.
    destruct (nx_get _ _ _ Hn _ _ Hg) as (-> & _).
    apply Map_keys_elem_of. eauto. }
  assert (NoDup (subtract nextR prevR)) as Hnd.
  { apply NoDup_List_filter, NoDup_getReadableUrls; [apply (nx_keys _ _ _ Hn)|].
    intros k r Hg. by destruct (nx_get _ _ _ Hn _ _ Hg). }
  unfold bind at 1, run at 1. cbn [fst snd].
  destruct (starts_calls next (subtract nextR prevR) rs c1 HF2) as (T1 & T2 & T3 & T4).
  set (c2 := fold_left (lifecycle WsStart next) (subtract nextR prevR) c1) in *.
  assert (activeReqs c2 = activeReqs c) as Hreqs.
  { by rewrite T4, (sh_reqs _ _ S1), (nx_reqs _ _ _ Hn). }
  (* the first loop over the registry *)
  destruct (ensureActiveReqs_fresh (Map_values (activeReqs c2)) next
              (subtract nextR prevR) rs c2 Hrs) as (E3 & L1 & L2 & L3 & L4 & L5).
  { eapply lookups_NoDup; [exact HF2 | exact Hnd | apply (nx_inj_sets _ _ _ Hn)]. }
  { rewrite Hreqs, (registry_subIds _ (ok_reqs c Hc)). apply (ok_reqs_keys c Hc). }
  { eapply lookups_Forall; [exact HF2|]. intros u r [Hu Hnu]%elem_of_subtract Hg.
    destruct (nx_get _ _ _ Hn _ _ Hg) as (_ & Hlt & _).
    rewrite T2, (sh_length _ _ S1). split; [|done].
    apply elem_of_getReadableUrls in Hu as (r' & [k Hr']%Map_values_elem_of & Hread & Hurl).
    pose proof (Map_get_elem_of _ _ _ (nx_keys _ _ _ Hn) Hr') as Hg'.
    destruct (nx_get _ _ _ Hn _ _ Hg') as (Hk & _). congruence. }
  { intros r req Hr _.
    destruct (lookups_elem_of _ _ _ _ HF2 Hr) as (u & [_ Hnu]%elem_of_subtract & Hg).
    pose proof (to_be_read_fresh _ _ _ _ _ Hc Hn Hg Hnu) as Hfresh.
    unfold isActive, Set_has, subIds. rewrite T2.
    fold (subIds c1 (activeSubIds r)).
    destruct (includes (req_subId req) (subIds c1 (activeSubIds r))) eqn:Hi; [|done].
    apply (sh_subIds _ _ S1) in Hi. by rewrite Hfresh in Hi. }
  destruct (ensureActiveReqs_frame (Map_values (activeReqs c2)) next
              (subtract nextR prevR) rs c2 Hrs) as (Hso3 & Hfr3).
  unfold bind at 1.
  destruct (ensureActiveReqs (Map_values (activeReqs c2)) next
              (subtract nextR prevR) c2) as [res3 c3].
  simpl in E3, L1, L2, L3, L4, L5, Hso3, Hfr3. subst res3.
  (* the second loop *)
  unfold bind at 1.
  rewrite (ensureActiveReqs_all_active _ _ _ rs c3 Hrs).
  2:{ rewrite L4. exact L2. }
  unfold run. cbn [fst snd].
  destruct (lifecycle_fold_frame WsDispose (relays c3)
              (subtract (Map_keys (relays c3)) (Map_keys next)) c3) as (G1 & G2 & G3).
  destruct (appends_fold isDispose (lifecycle WsDispose (relays c3))
              (subtract (Map_keys (relays c3)) (Map_keys next)) c3)
    as (disposed & G4 & G5).
  { intros. by apply lifecycle_appends. }
  eexists rs, dropped, disposed, _. split; [reflexivity|]. simpl.
  split_and!; try done.
  - rewrite G4, L1, T1, D1, Hcalls, Hreqs. by rewrite <- !app_assoc.
  - eapply lookups_NoDup; [exact HF2 | exact Hnd | apply (nx_inj_sockets _ _ _ Hn)].
  - intros r req Hr Hreq. unfold isActive, subIds. simpl. rewrite G1.
    apply L2; [done | by rewrite Hreqs].
  - by rewrite G3, L4.
  - assert (shrinks c1 c2) as S2
      by (apply shrinks_fold; intros; apply lifecycle_shrinks).
    assert (shrinks c3 (fold_left (lifecycle WsDispose (relays c3))
              (subtract (Map_keys (relays c3)) (Map_keys next)) c3)) as S5
      by (apply shrinks_fold; intros; apply lifecycle_shrinks).
    assert (Hget : ∀ k r, (k, r) ∈ next → Map_get k next = Some r).
    { intros k r Hin. by apply Map_get_elem_of; [apply (nx_keys _ _ _ Hn)|]. }
    split; simpl.
    + apply Forall_forall. intros [k r] Hin. simpl.
      by destruct (nx_get _ _ _ Hn _ _ (Hget _ _ Hin)).
    + apply (nx_keys _ _ _ Hn).
    + apply ref_inj_NoDup; [apply (nx_keys _ _ _ Hn) | apply (nx_inj_sets _ _ _ Hn)].
    + apply ref_inj_NoDup; [apply (nx_keys _ _ _ Hn) | apply (nx_inj_sockets _ _ _ Hn)].
    + apply Forall_forall. intros r [k Hin]%Map_values_elem_of.
      destruct (nx_get _ _ _ Hn _ _ (Hget _ _ Hin)) as (_ & Hl1 & Hl2 & _).
      rewrite G1, L5, T2, (sh_length _ _ S1).
      rewrite (sh_sockets _ _ S5), Hso3, (sh_sockets _ _ S2), (sh_sockets _ _ S1).
      done.
    + apply Forall_forall. intros r [k Hin]%Map_values_elem_of Hread.
      pose proof (Hget _ _ Hin) as Hg.
      destruct (nx_get _ _ _ Hn _ _ Hg) as (Hurl & Hl1 & _ & Ho).
      unfold subIds. simpl. rewrite G1. fold (subIds c3 (activeSubIds r)).
      rewrite Hfr3.
      2:{ intros r' Hr' Hread' Heq.
          destruct (lookups_elem_of _ _ _ _ HF2 Hr') as (u' & _ & Hg').
          assert (k = u') as -> by (eapply (nx_inj_sets _ _ _ Hn); eauto).
          congruence. }
      unfold subIds. rewrite T2. fold (subIds c1 (activeSubIds r)).
      destruct (Map_get k (relays c)) as [p|] eqn:Hp.
      * destruct Ho as [Ho _]. rewrite Ho.
        destruct (consistent_get _ _ _ Hc Hp) as (Hup & Hps & _ & Hun).
        destruct (read p) eqn:Hrp.
        -- apply (Hclr k p).
           ++ intros v [Hv _]%elem_of_subtract. rewrite (nx_relays _ _ _ Hn).
              apply elem_of_getReadableUrls in Hv
                as (r0 & [k0 Hr0]%Map_values_elem_of & _ & <-).
              pose proof (proj1 (Forall_forall _ _) (ok_url c Hc) _ Hr0) as Hk0.
              simpl in Hk0. rewrite Hk0.
              apply list_elem_of_fmap. by exists (k0, r0).
           ++ apply elem_of_subtract. split.
              ** apply elem_of_getReadableUrls. exists p. split_and!; try done.
                 apply Map_values_elem_of. exists k. by apply Map_get_Some.
              ** intros (r0 & [k0 Hr0]%Map_values_elem_of & Hread0 & Hurl0)
                   %elem_of_getReadableUrls.
                 pose proof (Hget _ _ Hr0) as Hg0.
                 destruct (nx_get _ _ _ Hn _ _ Hg0) as (Hurl0' & _).
                 assert (k0 = k) as -> by congruence.
                 congruence.
           ++ by rewrite (nx_relays _ _ _ Hn).
           ++ pose proof (next_ok_sets_length _ _ _ Hn). lia.
        -- eapply shrinks_empty; [exact S1|].
           rewrite (next_ok_subIds_prev _ _ _ _ Hn Hps). by apply Hun.
      * destruct Ho as [Ho _].
        eapply shrinks_empty; [exact S1|].
        by apply (next_ok_subIds_new _ _ _ _ Hn).
    + rewrite G3, L4, Hreqs. apply (ok_reqs c Hc).
    + rewrite G3, L4, Hreqs. apply (ok_reqs_keys c Hc).
Qed.

(** C2.  For a REQ [req] recorded in the registry of active REQs under
    [subId] (the last one a forward subscription has issued), and a url [u]
    that is read after [setRelays] and was not read before (so also for
    [switchRelays] and [addRelay], which are [setRelays]): the transition
    returns, and among the calls it makes, the relay now kept under [u] is
    sent [req] exactly once, and has [subId] among its active subscription
    ids afterwards. *)
Theorem setRelays_sends_active_req_once (input : RelaysInput) (c : RxNostrImpl)
    (subId : string) (req : REQ) (u : string) :
  consistent c →
  Map_get subId (activeReqs c) = Some req →
  u ∈ getReadableUrls (Map_values (relays (setRelays normalizeUrl input c).2)) →
  u ∉ getReadableUrls (Map_values (relays c)) →
  ∃ relay t,
    (setRelays normalizeUrl input c).1 = Normal ()
    ∧ Map_get u (relays (setRelays normalizeUrl input c).2) = Some relay
    ∧ calls (setRelays normalizeUrl input c).2 = calls c ++ t
    ∧ occurrences (WsSend (websocket relay) (OfREQ req)) t = 1
    ∧ isActive (setRelays normalizeUrl input c).2 relay subId = true.
Proof.
  intros Hc Hreq.
  destruct (getNextRelayState normalizeUrl (relays c) input c)
    as [[next c0]|e] eqn:EG.
  2:{ unfold setRelays. rewrite EG. simpl. by intros Hu Hnu. }
  destruct (setRelays_run input c next c0 Hc EG) as
    (rs & dropped & disposed & c' & E & HF2 & Hcalls & Hd & Hdis & Hws & Hact & _ & _).
  rewrite E. simpl. intros Hu Hnu.
  assert (u ∈ subtract (getReadableUrls (Map_values (relays c')))
                       (getReadableUrls (Map_values (relays c)))) as Hin
    by by apply elem_of_subtract.
  destruct (lookups_lookup _ _ _ _ HF2 Hin) as (relay & Hg & Hr).
  assert (req ∈ Map_values (activeReqs c)) as Hreqin.
  { apply Map_values_elem_of. exists subId. by apply Map_get_Some. }
  assert (req_subId req = subId) as Hsub.
  { apply Map_get_Some in Hreq.
    apply (proj1 (Forall_forall _ _) (ok_reqs c Hc) _ Hreq). }
  eexists relay, _. split_and!; [done | done | exact Hcalls | | ].
  - rewrite !occurrences_app.
    rewrite (occurrences_none _ _ _ Hd) by (simpl; tauto).
    rewrite (occurrences_none isStart).
    2:{ apply Forall_fmap, Forall_forall. by intros. }
    2:{ simpl; tauto. }
    rewrite (occurrences_none _ _ _ Hdis) by (simpl; tauto).
    fold (sendReq req relay). rewrite occurrences_registry; try done.
    eapply NoDup_fmap_1. rewrite (registry_subIds _ (ok_reqs c Hc)).
    apply (ok_reqs_keys c Hc).
  - rewrite <- Hsub. by apply Hact.
Qed.

End Transition.

(** ** The keys of the record map *)

Section Keys.
Variable normalizeUrl : string → Completion string.

(** The url a relay of the argument array is given under. *)
Definition givenUrl (x : UrlOrRelay) : string :=
  match x with
  | OfUrl u => u
  | OfRelay r => r_url r
  end.

Lemma nextRelayState_fold_keys prev l acc k :
  k ∈ Map_keys (fold_left (nextRelayState_step prev) l acc).1 →
  k ∈ Map_keys acc.1 ∨ k ∈ r_url <$> l.
Proof.
  revert acc. induction l as [|relay l IH]; intros [next c]; cbn [fold_left].
  - by left.
  - intros [H|H]%IH; [|right; rewrite fmap_cons; apply elem_of_cons; by right].
    unfold nextRelayState_step in H.
    destruct (Map_get (r_url relay) prev); simpl in H;
      rewrite Map_keys_set in H;
      (destruct (includes (r_url relay) (Map_keys next));
       [by left | apply elem_of_app in H as [H|H%list_elem_of_singleton];
                  [by left | right; rewrite fmap_cons; apply elem_of_cons; by left]]).
Qed.

Lemma normalizeRelay_url x relay :
  normalizeRelay normalizeUrl x = Normal relay →
  normalizeUrl (givenUrl x) = Normal (r_url relay).
Proof.
  unfold normalizeRelay.
  destruct x as [u|r]; simpl; destruct (normalizeUrl _); by intros [= <-].
Qed.

Lemma normalizeRelays_each l : ∀ rels,
  normalizeRelays normalizeUrl l = Normal rels →
  Forall2 (fun x relay => normalizeRelay normalizeUrl x = Normal relay) l rels.
Proof.
  induction l as [|x l IH]; intros rels; simpl.
  - intros [= <-]. constructor.
  - destruct (normalizeRelay normalizeUrl x) as [relay|e] eqn:Ex; [|done].
    destruct (normalizeRelays normalizeUrl l) as [rels'|e]; [|done].
    intros [= <-]. constructor; [done | by apply IH].
Qed.

(** Given an array, [setRelays] keeps every record under a normalized url. *)
Lemma array_keys_normalized prev l c next c0 k :
  getNextRelayState normalizeUrl prev (FromArray l) c = Normal (next, c0) →
  k ∈ Map_keys next →
  ∃ x, x ∈ l ∧ normalizeUrl (givenUrl x) = Normal k.
Proof.
  unfold getNextRelayState, nextRelayState_loop. simpl.
  destruct (normalizeRelays normalizeUrl l) as [rels|e] eqn:El; [|done].
  intros [= E] Hk.
  assert (next = (fold_left (nextRelayState_step prev) rels ([], c)).1) as ->
    by by rewrite E.
  apply nextRelayState_fold_keys in Hk as [H|H]; [by apply elem_of_nil in H|].
  apply list_elem_of_fmap in H as (relay & -> & Hr).
  apply normalizeRelays_each in El.
  clear E. induction El as [|x r l rels Hx _ IH]; [by apply elem_of_nil in Hr|].
  apply elem_of_cons in Hr as [->|Hr].
  - exists x. split; [apply elem_of_cons; by left | by apply normalizeRelay_url].
  - destruct (IH Hr) as (y & Hy & Hn). exists y. split; [|done].
    apply elem_of_cons. by right.
Qed.

(** The last relay given for a url decides the flags of the record. *)
Lemma last_relay_wins prev l relay c :
  ∃ r, Map_get (r_url relay)
         (fold_left (nextRelayState_step prev) (l ++ [relay]) ([], c)).1 = Some r
       ∧ url r = r_url relay ∧ read r = r_read relay ∧ write r = r_write relay.
Proof.
  rewrite fold_left_app. simpl.
  destruct (fold_left (nextRelayState_step prev) l ([], c)) as [next c1].
  unfold nextRelayState_step.
  destruct (Map_get (r_url relay) prev); simpl;
    rewrite Map_get_set, String.eqb_refl; by eexists.
Qed.

(** C4, at the inputs where the code departs from it: a url [u] that the
    normalizer changes, into [v].  Given the record [{u: flags}] on a new
    client, [setRelays] keeps the relay under [u] as it was written:
    [normalizeUrl] is not applied, [getRelays()] answers [u], and the pool
    does not know the relay under its normalized url [v].  Given the array
    [[u]] the one key is [v]. *)
Theorem record_key_is_not_normalized (u v : string) (flags : Flags)
    (opt : RxNostrOptions) :
  normalizeUrl u = Normal v → v ≠ u →
  let c := (setRelays normalizeUrl (FromRecord [(u, flags)]) (createRxNostr opt)).2 in
  let c' := (setRelays normalizeUrl (FromArray [OfUrl u]) (createRxNostr opt)).2 in
  Map_keys (relays c) = [u]
  ∧ r_url <$> getRelays c = [u]
  ∧ hasRelay v c = false
  ∧ Map_keys (relays c') = [v]
  ∧ hasRelay v c' = true.
Proof.
  intros Hn Hne.
  unfold setRelays, getNextRelayState, nextRelayState_loop, hasRelay, getRelays.
  simpl. unfold normalizeRelay. simpl. rewrite Hn. simpl.
  unfold installRelays, bind, run, subtract, getReadableUrls, lifecycle.
  destruct flags as [[] w]; simpl;
    rewrite ?String.eqb_refl, ?(proj2 (String.eqb_neq _ _) (not_eq_sym Hne));
    simpl;
    rewrite ?String.eqb_refl, ?(proj2 (String.eqb_neq _ _) (not_eq_sym Hne));
    done.
Qed.

End Keys.

(** ** What a step delivers to the streams of [use()] *)

(** [k'] has the notifications of [k] and then some that all satisfy [P]. *)
Definition emits (P : nat * Notification EventPacket → Prop) (k k' : Client) : Prop :=
  ∃ t, events k' = events k ++ t ∧ Forall P t.

Lemma emits_refl P k k' : events k' = events k → emits P k k'.
Proof. intros H. exists []. by rewrite app_nil_r. Qed.

Lemma emits_trans P k1 k2 k3 : emits P k1 k2 → emits P k2 k3 → emits P k1 k3.
Proof.
  intros (t1 & E1 & F1) (t2 & E2 & F2). exists (t1 ++ t2).
  split; [by rewrite E2, E1, app_assoc | by apply Forall_app].
Qed.

Lemma emits_fold {A} P (f : Client → A → Client) (l : list A) k :
  (∀ k a, emits P k (f k a)) → emits P k (fold_left f l k).
Proof.
  intros Hf. revert k. induction l as [|a l IH]; intros k; simpl.
  - by apply emits_refl.
  - eapply emits_trans; [apply Hf | apply IH].
Qed.

Definition isComplete (n : nat * Notification EventPacket) : Prop :=
  n.2 = Complete.

Lemma set_use_live_events u s l k : events (set_use_live u s l k) = events k.
Proof. unfold set_use_live. by destruct (uses k !! u). Qed.

Lemma set_inner_events i e l k : events (set_inner i e l k) = events k.
Proof. unfold set_inner. by destruct (inners k !! i). Qed.

Lemma settle_emits u k : emits isComplete k (settle u k).
Proof.
  unfold settle. destruct (uses k !! u); [|by apply emits_refl].
  destruct (_ && _); [|by apply emits_refl].
  exists [(u, Complete)]. rewrite set_use_live_events. split; [done|].
  by repeat constructor.
Qed.

Lemma complete_inner_emits i k : emits isComplete k (complete_inner i k).
Proof.
  unfold complete_inner. destruct (inners k !! i) as [x|]; [|by apply emits_refl].
  destruct (i_live x); [|by apply emits_refl].
  eapply emits_trans; [|by apply emits_refl].
  eapply emits_trans; [|apply settle_emits].
  apply emits_refl, set_inner_events.
Qed.

Lemma manageCompletion_emits i k : emits isComplete k (manageCompletion i k).
Proof.
  unfold manageCompletion. destruct (inners k !! i) as [x|]; [|by apply emits_refl].
  destruct (i_live x); [|by apply emits_refl].
  destruct (getAllRelayState (impl k)); [|by apply emits_refl].
  destruct (shouldComplete _ _); [apply complete_inner_emits | by apply emits_refl].
Qed.

(** A change of connection state completes streams or leaves them: it
    delivers no event and no error. *)
Lemma on_state_emits w st k : emits isComplete k (on_state w st k).
Proof.
  unfold on_state. destruct (sockets (impl k) !! w); [|by apply emits_refl].
  destruct (status_stopped _); [by apply emits_refl|].
  eapply emits_trans; [|apply emits_fold; intros; apply manageCompletion_emits].
  by apply emits_refl.
Qed.

(** ** Transport failures *)


(** ** Sample runs

    A client with two relays, one of them read, and a forward subscription;
    the urls are written in normal form, on which the normalizer is the
    identity. *)

Ltac by_computation := apply (bool_decide_unpack _); vm_compute; exact I.

Definition asGiven (u : string) : Completion string := Normal u.

(** A normalizer for the runs in which the normalizer matters: like
    [normalize-url] it takes the white space in front of a url away, and it
    throws on a string that holds nothing else. *)
Fixpoint trimStart (u : string) : string :=
  match u with
  | String a u' => if Ascii.eqb a (Ascii.ascii_of_nat 32) then trimStart u' else u
  | EmptyString => u
  end.

Definition trimmed (u : string) : Completion string :=
  if String.eqb (trimStart u) "" then Threw "Invalid URL"
  else Normal (trimStart u).

Lemma record_key_is_not_normalized_witness :
  let flags := {| f_read := true; f_write := true |} in
  let c := (setRelays trimmed (FromRecord [(" wss://relay.example.com", flags)])
                      (createRxNostr defaultRxNostrOptions)).2 in
  let c' := (setRelays trimmed (FromArray [OfUrl " wss://relay.example.com"])
                       (createRxNostr defaultRxNostrOptions)).2 in
  Map_keys (relays c) = [" wss://relay.example.com"]
  ∧ r_url <$> getRelays c = [" wss://relay.example.com"]
  ∧ hasRelay "wss://relay.example.com" c = false
  ∧ Map_keys (relays c') = ["wss://relay.example.com"]
  ∧ hasRelay "wss://relay.example.com" c' = true.
Proof.
  apply (record_key_is_not_normalized trimmed " wss://relay.example.com"
           "wss://relay.example.com" {| f_read := true; f_write := true |}
           defaultRxNostrOptions).
  - reflexivity.
  - discriminate.
Defined.

Definition sampleFilter : Filter :=
  {| ids := None; kinds := Some [1]; authors := None; since := None;
     until := None; limit := Some 5; tagFilters := [] |}.

Definition sampleReq : REQ :=
  {| req_subId := "sub:0"; req_filters := [sampleFilter] |}.

Definition sampleEvent : Event :=
  {| id := "e1"; sig := "s1"; kind := 1; tags := []; pubkey := "p1";
     content := "hello"; created_at := 1700 |}.

Definition sampleRelays : RelaysInput :=
  FromArray [OfUrl "wss://a.example";
             OfRelay {| r_url := "wss://b.example"; r_read := false;
                        r_write := true |}].

(** [setRelays(sampleRelays)], then a forward subscription ["sub"] that has
    issued [sampleReq]. *)
Definition sampleClient : Client :=
  let k0 := on_impl (exec (setRelays asGiven sampleRelays))
                    (newClient defaultRxNostrOptions) in
  let '(u, k1) := use forward "sub" k0 in
  req_next u (Some [sampleFilter]) k1.

Lemma sampleClient_consistent : consistent (impl sampleClient).
Proof. split; by_computation. Qed.

Lemma removeRelay_unknown_url_witness :
  removeRelay asGiven "wss://c.example" (impl sampleClient)
  = (Normal (), impl sampleClient).
Proof.
  apply (removeRelay_unknown_url asGiven "wss://c.example" (impl sampleClient)).
  apply Forall_forall. by_computation.
Defined.

Lemma fatal_cases_leave_the_client_witness :
  getRelayState "wss://c.example" (impl sampleClient) = Threw "Relay not found"
  ∧ finalizeReq {| fp_subId := None; fp_url := None |} (impl sampleClient)
    = (Threw "Error", impl sampleClient).
Proof.
  apply (fatal_cases_leave_the_client "wss://c.example" (impl sampleClient)).
  by_computation.
Defined.

(** The second relay of the sample becomes readable. *)
Definition sampleRelaysBothRead : RelaysInput :=
  FromArray [OfUrl "wss://a.example"; OfUrl "wss://b.example"].

Lemma setRelays_sends_active_req_once_witness :
  ∃ relay t,
    (setRelays asGiven sampleRelaysBothRead (impl sampleClient)).1 = Normal ()
    ∧ Map_get "wss://b.example"
        (relays (setRelays asGiven sampleRelaysBothRead (impl sampleClient)).2)
      = Some relay
    ∧ calls (setRelays asGiven sampleRelaysBothRead (impl sampleClient)).2
      = calls (impl sampleClient) ++ t
    ∧ occurrences (WsSend (websocket relay) (OfREQ sampleReq)) t = 1
    ∧ isActive (setRelays asGiven sampleRelaysBothRead (impl sampleClient)).2
               relay "sub:0" = true.
Proof.
  apply (setRelays_sends_active_req_once asGiven sampleRelaysBothRead
           (impl sampleClient) "sub:0" sampleReq "wss://b.example").
  - exact sampleClient_consistent.
  - reflexivity.
  - by_computation.
  - by_computation.
Defined.



(** ** [dispose] *)

Lemma set_use_live_impl u s l k : impl (set_use_live u s l k) = impl k.
Proof. unfold set_use_live. by destruct (uses k !! u). Qed.

Lemma set_inner_impl i e l k : impl (set_inner i e l k) = impl k.
Proof. unfold set_inner. by destruct (inners k !! i). Qed.

Lemma settle_impl u k : impl (settle u k) = impl k.
Proof.
  unfold settle. destruct (uses k !! u); [|done].
  destruct (_ && _); [|done]. by rewrite set_use_live_impl.
Qed.

Lemma complete_inner_shrinks i k : shrinks (impl k) (impl (complete_inner i k)).
Proof.
  unfold complete_inner. destruct (inners k !! i) as [x|]; [|apply shrinks_refl].
  destruct (i_live x); [|apply shrinks_refl]. simpl.
  rewrite settle_impl, set_inner_impl. apply finalizeReq_shrinks.
Qed.

Lemma complete_observer_shrinks k o : shrinks (impl k) (impl (complete_observer k o)).
Proof. destruct o; simpl; [apply shrinks_refl | apply complete_inner_shrinks | apply shrinks_refl]. Qed.

Lemma complete_observers_shrinks os k :
  shrinks (impl k) (impl (fold_left complete_observer os k)).
Proof.
  revert k. induction os as [|o os IH]; intros k; simpl; [apply shrinks_refl|].
  eapply shrinks_trans; [apply complete_observer_shrinks | apply IH].
Qed.

Definition disposeCall (relay : RelayState) : Call := WsDispose (websocket relay).

Lemma dispose_fold rs c :
  fold_left (fun c' relay => call (WsDispose (websocket relay)) c') rs c
  = with_calls (calls c ++ (disposeCall <$> rs)) c.
Proof.
  revert c. induction rs as [|r rs IH]; intros c; simpl.
  - destruct c. unfold with_calls. simpl. by rewrite app_nil_r.
  - rewrite IH. unfold with_calls, call. simpl.
    by rewrite <- app_assoc.
Qed.

(** Once the two subjects are completed, [dispose()] only repeats the
    [dispose()] call on each transport. *)
Lemma dispose_again k :
  message_stopped (impl k) = true → error_stopped (impl k) = true →
  dispose k
  = on_impl (fun c => with_calls (calls c ++ (disposeCall <$> Map_values (relays c))) c) k.
Proof.
  intros Hm He. unfold dispose. rewrite Hm.
  destruct k as [c us ins ps os evs oks']. destruct c. simpl in *. subst.
  unfold on_impl. simpl. rewrite dispose_fold. reflexivity.
Qed.

(** ** [send]: the acknowledgements of a publication *)

Definition isOK (packet : MessagePacket) : bool :=
  match mp_message packet with
  | InOK _ _ _ => true
  | _ => false
  end.

(** The packet the listener of [send] makes of a message. *)
Definition okPacket (event : Event) (packet : MessagePacket) : OkPacket :=
  {| ok_from := mp_from packet; ok_id := id event |}.

(** A publication whose stream has ended hears nothing. *)
Lemma ok_on_message_deaf q packets k x :
  pubs k !! q = Some x → p_listening x = false →
  fold_left (fun k' p => ok_on_message q p k') packets k = k.
Proof.
  intros Hq Hl. induction packets as [|p packets IH]; simpl; [done|].
  unfold ok_on_message at 2. rewrite Hq, Hl.
  destruct (mp_message p), (p_event x); exact IH.
Qed.

(** A publication that has taken [n] of the acknowledgements it waits for. *)
Lemma ok_on_message_fold q event urls packets : ∀ k n,
  pubs k !! q = Some {| p_urls := urls; p_event := Some event;
                        p_listening := true; p_seen := n; p_live := true |} →
  n < length urls →
  oks (fold_left (fun k' p => ok_on_message q p k') packets k)
  = oks k
    ++ ((fun p => (q, Next (okPacket event p)))
          <$> take (length urls - n) (List.filter isOK packets))
    ++ (if (length urls - n <=? length (List.filter isOK packets))%nat
        then [(q, Complete)] else []).
Proof.
  induction packets as [|p packets IH]; intros k n Hq Hn.
  - simpl. destruct (length urls - n) eqn:E; [lia|]. simpl. by rewrite app_nil_r.
  - cbn [fold_left List.filter]. unfold isOK at 1 4.
    assert (q < length (pubs k)) as Hlt by by eapply lookup_lt_Some.
    unfold ok_on_message at 2. rewrite Hq. cbn [p_event p_listening p_urls p_seen p_live].
    destruct (mp_message p) eqn:Hp; try by apply IH.
    rewrite (proj2 (Nat.leb_le (S n) (length urls))) by lia.
    destruct (decide (S n = length urls)) as [Heq|Hne].
    + rewrite (proj2 (Nat.leb_le (length urls) (S n))) by lia.
      erewrite ok_on_message_deaf.
      2:{ unfold finalize_pub, emit_ok, set_pub. simpl.
          rewrite list_lookup_insert_eq by done. simpl.
          rewrite list_lookup_insert_eq by (by rewrite length_insert). done. }
      2:{ done. }
      replace (length urls - n) with 1 by lia. simpl.
      unfold finalize_pub, emit_ok, set_pub. simpl.
      rewrite list_lookup_insert_eq by done. simpl.
      by rewrite <- !app_assoc.
    + rewrite (proj2 (Nat.leb_gt (length urls) (S n))) by lia.
      rewrite (IH _ (S n)).
      * replace (length urls - n) with (S (length urls - S n)) by lia.
        simpl. by rewrite <- !app_assoc.
      * unfold emit_ok, set_pub. simpl. by rewrite list_lookup_insert_eq.
      * lia.
Qed.

(** ** The completion of an inner stream *)

(** The completion test as the spec words it, with [rejected] among the
    states that let a stream complete. *)
Definition specShouldComplete (status : list (string * ConnectionState))
    (eose : list string) : bool :=
  forallb (fun e : string * ConnectionState =>
             bool_decide (e.2 = error)
             || bool_decide (e.2 = terminated)
             || bool_decide (e.2 = rejected)
             || (bool_decide (e.2 = ongoing) && Set_has e.1 eose))
          status.

(** A relay no longer holds a stream back: its connection has failed or
    ended, or it is connected and has sent EOSE. *)
Definition relayDone (c : RxNostrImpl) (eose : list string) (relay : RelayState)
    : Prop :=
  socket_state c (websocket relay) = error
  ∨ socket_state c (websocket relay) = terminated
  ∨ (socket_state c (websocket relay) = ongoing ∧ url relay ∈ eose).

Definition relayStatus (c : RxNostrImpl) (relay : RelayState)
    : string * ConnectionState :=
  (url relay, socket_state c (websocket relay)).

Lemma getAllRelayState_from_ext rs c c' acc :
  relays c' = relays c → sockets c' = sockets c →
  getAllRelayState_from rs c' acc = getAllRelayState_from rs c acc.
Proof.
  intros Hr Hs. revert acc. induction rs as [|e rs IH]; intros acc; simpl; [done|].
  unfold getRelayState, socket_state. rewrite Hr, Hs.
  destruct (Map_get (url e) (relays c)); [apply IH | done].
Qed.

Lemma getAllRelayState_ext c c' :
  relays c' = relays c → sockets c' = sockets c →
  getAllRelayState c' = getAllRelayState c.
Proof.
  intros Hr Hs. unfold getAllRelayState. rewrite Hr.
  by apply getAllRelayState_from_ext.
Qed.

Lemma Map_set_new {V} k (v : V) m : k ∉ Map_keys m → Map_set k v m = m ++ [(k, v)].
Proof.
  unfold Map_keys. induction m as [|[k' v'] m IH]; csimpl; [done|].
  intros [Hne Hm]%not_elem_of_cons.
  destruct (String.eqb_spec k k'); [done|]. by rewrite IH.
Qed.

Lemma getAllRelayState_from_status c rs acc :
  (∀ r, r ∈ rs → Map_get (url r) (relays c) = Some r) →
  NoDup (Map_keys acc ++ (url <$> rs)) →
  getAllRelayState_from rs c acc = Normal (acc ++ (relayStatus c <$> rs)).
Proof.
  revert acc. induction rs as [|e rs IH]; intros acc Hget Hnd; simpl.
  - by rewrite app_nil_r.
  - unfold getRelayState. rewrite (Hget e) by (apply elem_of_cons; by left).
    rewrite Map_set_new.
    2:{ apply NoDup_app in Hnd as (_ & Hd & _). intros Hin.
        apply (Hd _ Hin). rewrite fmap_cons. apply elem_of_cons. by left. }
    rewrite IH.
    + by rewrite <- app_assoc.
    + intros r Hr. apply Hget, elem_of_cons. by right.
    + unfold Map_keys in *. rewrite fmap_app. csimpl.
      rewrite fmap_cons in Hnd. by rewrite <- app_assoc.
Qed.

(** In a consistent client [getAllRelayState()] answers the state of the
    websocket of each relay of the pool, under the url of the relay. *)
Lemma getAllRelayState_status c :
  NoDup (Map_keys (relays c)) →
  Forall (fun e : string * RelayState => url e.2 = e.1) (relays c) →
  getAllRelayState c = Normal (relayStatus c <$> Map_values (relays c)).
Proof.
  intros Hk Hu. unfold getAllRelayState.
  assert (url <$> Map_values (relays c) = Map_keys (relays c)) as Hurls.
  { unfold Map_values, Map_keys. clear Hk.
    induction Hu as [|[k r] l Hkr _ IH]; csimpl; [done|].
    simpl in Hkr. by rewrite Hkr, IH. }
  rewrite getAllRelayState_from_status; [done| |].
  - intros r [k Hr]%Map_values_elem_of.
    pose proof (proj1 (Forall_forall _ _) Hu _ Hr) as Hkr. simpl in Hkr.
    rewrite Hkr. by apply Map_get_elem_of.
  - simpl. by rewrite Hurls.
Qed.

Lemma shouldComplete_relayDone c eose rs :
  shouldComplete (relayStatus c <$> rs) eose = true ↔ Forall (relayDone c eose) rs.
Proof.
  unfold shouldComplete. rewrite forallb_forall, Forall_forall. split.
  - intros H r Hr.
    specialize (H (relayStatus c r)). simpl in H.
    rewrite <- list_elem_of_In in H.
    specialize (H (list_elem_of_fmap_2 _ _ _ Hr)).
    apply orb_true_iff in H as [[H|H]%orb_true_iff|[H1 H2]%andb_true_iff].
    + left. by apply bool_decide_eq_true in H.
    + right; left. by apply bool_decide_eq_true in H.
    + right; right. split; [by apply bool_decide_eq_true in H1|].
      by apply includes_elem_of.
  - intros H e (r & -> & Hr)%list_elem_of_In%list_elem_of_fmap. simpl.
    destruct (H r Hr) as [H1|[H1|[H1 H2]]].
    + by rewrite (bool_decide_eq_true_2 _ H1).
    + rewrite (bool_decide_eq_true_2 _ H1). by rewrite orb_true_r.
    + rewrite (bool_decide_eq_true_2 _ H1).
      apply includes_elem_of in H2. unfold Set_has. rewrite H2.
      by rewrite orb_true_r.
Qed.

Lemma settle_inners u k : inners (settle u k) = inners k.
Proof.
  unfold settle. destruct (uses k !! u); [|done].
  destruct (_ && _); [|done]. unfold set_use_live. simpl.
  by destruct (uses k !! u).
Qed.

Lemma complete_inner_inners i k x :
  inners k !! i = Some x → i_live x = true →
  inners (complete_inner i k)
  = <[i := {| i_use := i_use x; i_subId := i_subId x;
              eoseRelays := eoseRelays x; i_live := false |}]> (inners k).
Proof.
  intros Hi Hl. unfold complete_inner. rewrite Hi, Hl. simpl.
  rewrite settle_inners. unfold set_inner. by rewrite Hi.
Qed.

Lemma manageCompletion_shrinks j k : shrinks (impl k) (impl (manageCompletion j k)).
Proof.
  unfold manageCompletion. destruct (inners k !! j) as [x|]; [|apply shrinks_refl].
  destruct (i_live x); [|apply shrinks_refl].
  destruct (getAllRelayState (impl k)); [|apply shrinks_refl].
  destruct (shouldComplete _ _); [apply complete_inner_shrinks | apply shrinks_refl].
Qed.

Lemma manageCompletion_other j i k :
  j ≠ i → inners (manageCompletion j k) !! i = inners k !! i.
Proof.
  intros Hne. unfold manageCompletion.
  destruct (inners k !! j) as [x|] eqn:Hj; [|done].
  destruct (i_live x) eqn:Hl; [|done].
  destruct (getAllRelayState (impl k)); [|done].
  destruct (shouldComplete _ _); [|done].
  rewrite (complete_inner_inners _ _ _ Hj Hl). by apply list_lookup_insert_ne.
Qed.

Lemma manageCompletion_fold_other js i k :
  i ∉ js →
  inners (fold_left (fun k' j => manageCompletion j k') js k) !! i = inners k !! i
  ∧ shrinks (impl k) (impl (fold_left (fun k' j => manageCompletion j k') js k)).
Proof.
  revert k. induction js as [|j js IH]; intros k Hi; simpl.
  - split; [done | apply shrinks_refl].
  - apply not_elem_of_cons in Hi as [Hne Hi].
    destruct (IH (manageCompletion j k) Hi) as [E S]. split.
    + rewrite E. by apply manageCompletion_other.
    + eapply shrinks_trans; [apply manageCompletion_shrinks | exact S].
Qed.

(** The test of [manageCompletion] decides whether a live inner stream
    goes on: it ends exactly when every relay of the pool is done. *)
Lemma manageCompletion_decides i k x :
  NoDup (Map_keys (relays (impl k))) →
  Forall (fun e : string * RelayState => url e.2 = e.1) (relays (impl k)) →
  inners k !! i = Some x → i_live x = true →
  ∃ x', inners (manageCompletion i k) !! i = Some x'
        ∧ eoseRelays x' = eoseRelays x
        ∧ (i_live x' = false
           ↔ Forall (relayDone (impl k) (eoseRelays x))
                    (Map_values (relays (impl k)))).
Proof.
  intros Hk Hu Hi Hl. unfold manageCompletion. rewrite Hi, Hl.
  rewrite (getAllRelayState_status _ Hk Hu).
  pose proof (shouldComplete_relayDone (impl k) (eoseRelays x)
                (Map_values (relays (impl k)))) as Hiff.
  destruct (shouldComplete _ _).
  - rewrite (complete_inner_inners _ _ _ Hi Hl).
    rewrite list_lookup_insert_eq by by eapply lookup_lt_Some.
    eexists. split; [done|]. simpl. split; [done|]. tauto.
  - exists x. split_and!; try done. rewrite Hl. split; [done|].
    intros H. apply Hiff in H. discriminate.
Qed.

Lemma relayDone_ext c c' eose relay :
  sockets c' = sockets c → relayDone c' eose relay ↔ relayDone c eose relay.
Proof. intros Hs. unfold relayDone, socket_state. by rewrite Hs. Qed.

Lemma finalizeReq_from_returns subId from c :
  from ∈ Map_keys (relays c) →
  (finalizeReq {| fp_subId := Some subId; fp_url := Some from |} c).1 = Normal ().
Proof.
  intros [r Hr]%Map_keys_elem_of. unfold finalizeReq. simpl.
  destruct (negb (String.eqb from "")); [|done].
  unfold bind. simpl. by rewrite Hr.
Qed.

(** C1, as the code has it.  For a live inner stream of a backward or
    oneshot subscription, in a consistent client, the test is made again on
    every change of connection state and on every EOSE the stream takes
    from a relay of the pool, and the stream ends then exactly when every
    relay of the pool is in state [error] or [terminated], or is in state
    [ongoing] and has sent EOSE for the subscription. *)
Theorem inner_stream_completion (k : Client) (i : nat) (x : Inner) :
  consistent (impl k) →
  inners k !! i = Some x → i_live x = true →
  (∀ w s st,
     sockets (impl k) !! w = Some s → status_stopped (impl k) = false →
     ∃ x', inners (on_state w st k) !! i = Some x'
           ∧ eoseRelays x' = eoseRelays x
           ∧ (i_live x' = false
              ↔ Forall (relayDone (impl (on_state w st k)) (eoseRelays x))
                       (Map_values (relays (impl k)))))
  ∧ (∀ from,
       from ∈ Map_keys (relays (impl k)) → from ∉ eoseRelays x →
       ∃ x', inners (inner_on_message i {| mp_from := from;
                                           mp_message := InEOSE (i_subId x) |} k)
             !! i = Some x'
             ∧ eoseRelays x' = eoseRelays x ++ [from]
             ∧ (i_live x' = false
                ↔ Forall (relayDone (impl k) (eoseRelays x ++ [from]))
                         (Map_values (relays (impl k))))).
Proof.
  intros Hc Hi Hl.
  assert (i < length (inners k)) as Hlt by by eapply lookup_lt_Some.
  split.
  - intros w s st Hs Hst. unfold on_state. rewrite Hs. simpl. rewrite Hst.
    set (k1 := on_impl _ k).
    assert (inners k1 = inners k) as Hin by done.
    assert (relays (impl k1) = relays (impl k)) as Hr1 by done.
    replace (length (inners k)) with (i + S (length (inners k) - S i)) by lia.
    rewrite seq_app, fold_left_app. simpl.
    destruct (manageCompletion_fold_other (seq 0 i) i k1) as [Ea Sa].
    { rewrite list_elem_of_In, in_seq. lia. }
    set (ka := fold_left _ (seq 0 i) k1) in *.
    destruct (manageCompletion_decides i ka x) as (x' & Ex & Ee & Hiff).
    { rewrite (sh_relays _ _ Sa), Hr1. apply (ok_keys _ Hc). }
    { rewrite (sh_relays _ _ Sa), Hr1. apply (ok_url _ Hc). }
    { by rewrite Ea, Hin. }
    { done. }
    destruct (manageCompletion_fold_other (seq (S i) (length (inners k) - S i)) i
                (manageCompletion i ka)) as [Eb Sb].
    { rewrite list_elem_of_In, in_seq. lia. }
    exists x'. rewrite Eb. split_and!; try done.
    rewrite Hiff, (sh_relays _ _ Sa), Hr1.
    apply Forall_iff. intros relay. apply relayDone_ext.
    rewrite (sh_sockets _ _ Sb).
    by rewrite (sh_sockets _ _ (manageCompletion_shrinks i ka)).
  - intros from Hfrom Hnot. unfold inner_on_message. rewrite Hi, Hl.
    unfold filterBySubId. simpl. rewrite String.eqb_refl.
    unfold Set_has. rewrite (proj2 (includes_false _ _) Hnot). simpl.
    unfold set_inner. rewrite Hi. simpl.
    pose proof (finalizeReq_from_returns (i_subId x) from (impl k) Hfrom) as Hn.
    pose proof (finalizeReq_shrinks {| fp_subId := Some (i_subId x);
                                       fp_url := Some from |} (impl k)) as S.
    destruct (finalizeReq _ (impl k)) as [[[]|e] c']; [|done]. simpl in S.
    set (k2 := with_impl c' _).
    destruct (manageCompletion_decides i k2
                {| i_use := i_use x; i_subId := i_subId x;
                   eoseRelays := Set_add from (eoseRelays x); i_live := true |})
      as (x' & Ex & Ee & Hiff).
    { simpl. rewrite (sh_relays _ _ S). apply (ok_keys _ Hc). }
    { simpl. rewrite (sh_relays _ _ S). apply (ok_url _ Hc). }
    { simpl. by rewrite list_lookup_insert_eq. }
    { done. }
    assert (Set_add from (eoseRelays x) = eoseRelays x ++ [from]) as Hadd.
    { unfold Set_add. by rewrite (proj2 (includes_false _ _) Hnot). }
    simpl in Ee, Hiff. rewrite Hadd in Ee, Hiff.
    exists x'. split_and!; try done.
    rewrite Hiff. simpl. rewrite (sh_relays _ _ S).
    apply Forall_iff. intros relay. apply relayDone_ext. apply (sh_sockets _ _ S).
Qed.

(** One relay, connected, and a backward subscription ["sub"] that has
    issued its first REQ. *)
Definition sampleBackward : Client :=
  let k0 := on_impl (exec (setRelays asGiven (FromArray [OfUrl "wss://a.example"])))
                    (newClient defaultRxNostrOptions) in
  let k1 := on_state 0 ongoing k0 in
  let '(u, k2) := use backward "sub" k1 in
  req_next u (Some [sampleFilter]) k2.

Lemma sampleBackward_consistent : consistent (impl sampleBackward).
Proof. split; by_computation. Qed.

(** C1 as the spec has it fails: when the only relay of the pool takes the
    state [rejected], every relay is in one of [error], [terminated],
    [rejected], yet the test of the code fails and the inner stream stays
    open, with nothing delivered. *)
Lemma rejected_relay_keeps_stream_open :
  let k := on_state 0 rejected sampleBackward in
  getAllRelayState (impl k) = Normal [("wss://a.example", rejected)]
  ∧ specShouldComplete [("wss://a.example", rejected)] [] = true
  ∧ shouldComplete [("wss://a.example", rejected)] [] = false
  ∧ i_live <$> inners k !! 0 = Some true
  ∧ events k = [].
Proof. vm_compute. done. Qed.

Lemma inner_stream_completion_witness :
  ∃ x', inners (inner_on_message 0 {| mp_from := "wss://a.example";
                                      mp_message := InEOSE "sub:0" |}
                                 sampleBackward) !! 0 = Some x'
        ∧ eoseRelays x' = [] ++ ["wss://a.example"]
        ∧ (i_live x' = false
           ↔ Forall (relayDone (impl sampleBackward) ([] ++ ["wss://a.example"]))
                    (Map_values (relays (impl sampleBackward)))).
Proof.
  apply (proj2 (inner_stream_completion sampleBackward 0
                  {| i_use := 0; i_subId := "sub:0"; eoseRelays := [];
                     i_live := true |}
                  sampleBackward_consistent eq_refl eq_refl)
               "wss://a.example"); by_computation.
Defined.

(** ** Every client that can be reached is consistent *)

Lemma shrinks_eq c c' : c' = c → shrinks c c'.
Proof. intros ->. apply shrinks_refl. Qed.

Lemma finalize_inner_shrinks i k : shrinks (impl k) (impl (finalize_inner i k)).
Proof.
  unfold finalize_inner. destruct (inners k !! i) as [x|]; [|apply shrinks_refl].
  destruct (i_live x); [|apply shrinks_refl]. simpl.
  rewrite set_inner_impl. apply finalizeReq_shrinks.
Qed.

Lemma shrinks_fold_client {A} (f : Client → A → Client) (l : list A) k :
  (∀ k a, shrinks (impl k) (impl (f k a))) →
  shrinks (impl k) (impl (fold_left f l k)).
Proof.
  intros Hf. revert k. induction l as [|a l IH]; intros k; simpl.
  - apply shrinks_refl.
  - eapply shrinks_trans; [apply Hf | apply IH].
Qed.

Lemma teardown_inners_shrinks u k : shrinks (impl k) (impl (teardown_inners u k)).
Proof.
  unfold teardown_inners. apply shrinks_fold_client. intros k' i.
  destruct (inners k' !! i) as [x|]; [|apply shrinks_refl].
  destruct (_ =? _)%nat; [apply finalize_inner_shrinks | apply shrinks_refl].
Qed.

Lemma fail_use_shrinks u e k : shrinks (impl k) (impl (fail_use u e k)).
Proof.
  unfold fail_use. eapply shrinks_trans; [|apply teardown_inners_shrinks].
  apply shrinks_eq. by rewrite set_use_live_impl.
Qed.

Lemma emit_events_impl u (evs : list EventPacket) k :
  impl (fold_left (fun k' ev => emit_event u (Next ev) k') evs k) = impl k.
Proof. revert k. induction evs as [|ev evs IH]; intros k; simpl; [done|]. by rewrite IH. Qed.

Lemma inner_on_message_shrinks i packet k :
  shrinks (impl k) (impl (inner_on_message i packet k)).
Proof.
  unfold inner_on_message. destruct (inners k !! i) as [x|] eqn:Hi; [|apply shrinks_refl].
  destruct (_ && _); [|apply shrinks_refl].
  destruct (mp_message packet);
    try (apply shrinks_eq, emit_events_impl).
  unfold set_inner. rewrite Hi. simpl.
  pose proof (finalizeReq_shrinks {| fp_subId := Some (i_subId x);
                                     fp_url := Some (mp_from packet) |} (impl k)) as S.
  destruct (finalizeReq _ (impl k)) as [[[]|e] c]; simpl in S.
  - eapply shrinks_trans; [exact S|]. apply (manageCompletion_shrinks i (with_impl c _)).
  - eapply shrinks_trans; [exact S|]. apply (fail_use_shrinks _ _ (with_impl c _)).
Qed.

Lemma forward_on_message_impl u packet k : impl (forward_on_message u packet k) = impl k.
Proof.
  unfold forward_on_message. destruct (uses k !! u) as [x|]; [|done].
  destruct (_ && _); [apply emit_events_impl | done].
Qed.

Lemma finalize_pub_impl q k : impl (finalize_pub q k) = impl k.
Proof. unfold finalize_pub. by destruct (pubs k !! q). Qed.

Lemma ok_on_message_impl q packet k : impl (ok_on_message q packet k) = impl k.
Proof.
  unfold ok_on_message. destruct (pubs k !! q) as [x|]; [|done].
  destruct (mp_message packet); try done. destruct (p_event x); [|done].
  destruct (p_listening x); [|done].
  destruct (_ <=? _)%nat; [|done].
  destruct (_ <=? _)%nat; [|done]. by rewrite finalize_pub_impl.
Qed.

Lemma deliver_shrinks packet k o : shrinks (impl k) (impl (deliver packet k o)).
Proof.
  destruct o; simpl.
  - apply shrinks_eq, forward_on_message_impl.
  - apply inner_on_message_shrinks.
  - apply shrinks_eq, ok_on_message_impl.
Qed.

Lemma message_next_shrinks packet k : shrinks (impl k) (impl (message_next packet k)).
Proof.
  unfold message_next. destruct (message_stopped _); [apply shrinks_refl|].
  apply shrinks_fold_client. intros. apply deliver_shrinks.
Qed.

Lemma createEoseManagedEventObservable_shrinks u subId k :
  shrinks (impl k) (impl (createEoseManagedEventObservable u subId k)).
Proof.
  unfold createEoseManagedEventObservable. simpl.
  destruct (message_stopped (impl k)); [|apply shrinks_refl].
  apply (complete_inner_shrinks _ (with_observers _ (with_inners _ k))).
Qed.

(** The clients that the calls of the caller, the request sources and the
    transports lead to, from a new client. *)
Inductive reachable : Client → Prop :=
| reach_new opt : reachable (newClient opt)
| reach_setRelays nz input k :
    reachable k → reachable (on_impl (exec (setRelays nz input)) k)
| reach_addRelay nz relay k :
    reachable k → reachable (on_impl (exec (addRelay nz relay)) k)
| reach_removeRelay nz u k :
    reachable k → reachable (on_impl (exec (removeRelay nz u)) k)
| reach_reconnect u k : reachable k → reachable (on_impl (reconnect u) k)
| reach_use strategy rxReqId k : reachable k → reachable (use strategy rxReqId k).2
| reach_req_next u filters k : reachable k → reachable (req_next u filters k)
| reach_unsubscribe u k : reachable k → reachable (unsubscribe u k)
| reach_send k : reachable k → reachable (send k).2
| reach_send_then q event k : reachable k → reachable (send_then q event k)
| reach_unsubscribe_send q k : reachable k → reachable (unsubscribe_send q k)
| reach_on_state w st k : reachable k → reachable (on_state w st k)
| reach_on_message w message k : reachable k → reachable (on_message w message k)
| reach_on_error w reason k : reachable k → reachable (on_impl (on_error w reason) k)
| reach_on_timeout i k : reachable k → reachable (on_timeout i k)
| reach_dispose k : reachable k → reachable (dispose k).

Lemma consistent_setRelays nz input c :
  consistent c → consistent (exec (setRelays nz input) c).
Proof.
  intros Hc. unfold exec.
  destruct (getNextRelayState nz (relays c) input c) as [[next c0]|e] eqn:EG.
  - destruct (setRelays_run nz input c next c0 Hc EG)
      as (rs & dropped & disposed & c' & E & _ & _ & _ & _ & _ & _ & _ & Hc').
    by rewrite E.
  - unfold setRelays. by rewrite EG.
Qed.

Lemma consistent_req_next u filters k :
  consistent (impl k) → consistent (impl (req_next u filters k)).
Proof.
  intros Hc. unfold req_next.
  destruct (uses k !! u) as [x|]; [|done]. destruct filters as [fs|]; [|done].
  destruct (_ && _); [|done].
  set (k1 := with_uses _ k).
  destruct (u_strategy x).
  - simpl. by apply consistent_ensureReq, consistent_recordActiveReq.
  - eapply consistent_shrinks; [|apply createEoseManagedEventObservable_shrinks].
    simpl. by apply consistent_ensureReq.
  - set (k2 := createEoseManagedEventObservable _ _ _).
    assert (consistent (impl k2)) as H2.
    { eapply consistent_shrinks; [|apply createEoseManagedEventObservable_shrinks].
      simpl. by apply consistent_ensureReq. }
    destruct (uses k2 !! u) as [x2|]; [|done].
    destruct (u_live x2); [|done].
    by rewrite settle_impl, set_use_live_impl.
Qed.

Lemma consistent_unsubscribe u k :
  consistent (impl k) → consistent (impl (unsubscribe u k)).
Proof.
  intros Hc. unfold unsubscribe. destruct (uses k !! u) as [x|] eqn:Hu; [|done].
  destruct (u_live x); [|done].
  assert (impl (set_use_live u false false k) = impl k) as Hi
    by apply set_use_live_impl.
  destruct (u_strategy x).
  - simpl. rewrite Hi. eapply consistent_shrinks; [|apply finalizeReq_shrinks].
    by apply consistent_forgetActiveReq.
  - eapply consistent_shrinks; [|apply teardown_inners_shrinks]. by rewrite Hi.
  - eapply consistent_shrinks; [|apply teardown_inners_shrinks]. by rewrite Hi.
Qed.

Lemma consistent_dispose k : consistent (impl k) → consistent (impl (dispose k)).
Proof.
  intros Hc. unfold dispose.
  set (k1 := if message_stopped (impl k) then k else _).
  assert (consistent (impl k1)) as H1.
  { subst k1. destruct (message_stopped (impl k)); [done|].
    eapply consistent_shrinks; [|apply complete_observers_shrinks].
    simpl. by apply consistent_stopped. }
  clearbody k1. simpl. rewrite dispose_fold.
  eapply consistent_shrinks; [apply consistent_stopped, H1|].
  by split.
Qed.

(** X9.  The invariant of the pool holds in every client that can be
    reached from a new one by the calls of the caller, the emissions of the
    request sources and the reports of the transports. *)
Theorem reachable_consistent (k : Client) : reachable k → consistent (impl k).
Proof.
  induction 1 as [opt| nz input k _ IH | nz relay k _ IH | nz u k _ IH
                 | u k _ IH | s id k _ IH | u fs k _ IH | u k _ IH | k _ IH
                 | q ev k _ IH | q k _ IH | w st k _ IH | w m k _ IH
                 | w r k _ IH | i k _ IH | k _ IH].
  - apply consistent_createRxNostr.
  - by apply consistent_setRelays.
  - by apply (consistent_setRelays nz).
  - simpl. unfold exec, removeRelay.
    destruct (negb _); [by apply (consistent_setRelays nz) | done].
  - simpl. unfold reconnect. destruct (Map_get u _); [|done].
    eapply consistent_shrinks; [exact IH | apply shrinks_call].
  - unfold use. simpl. by destruct (bool_decide _).
  - by apply consistent_req_next.
  - by apply consistent_unsubscribe.
  - unfold send. simpl. destruct (_ =? _)%nat; [|done].
    by rewrite finalize_pub_impl.
  - unfold send_then. destruct (pubs k !! q) as [x|]; [|done].
    destruct (p_event x); [done|]. simpl.
    eapply consistent_shrinks; [|apply shrinks_fold; intros c u;
      unfold send_event; destruct (Map_get u (relays c));
      [apply shrinks_call | apply shrinks_refl]].
    by destruct (p_live x).
  - unfold unsubscribe_send. by rewrite finalize_pub_impl.
  - unfold on_state. destruct (sockets (impl k) !! w) as [s|]; [|done].
    set (k1 := on_impl _ k).
    assert (consistent (impl k1)) as H1 by by apply consistent_set_socket.
    destruct (status_stopped (impl k1)); [done|].
    eapply consistent_shrinks; [exact H1|].
    apply shrinks_fold_client. intros. apply manageCompletion_shrinks.
  - unfold on_message. destruct (sockets (impl k) !! w) as [s|]; [|done].
    destruct (ws_piped s); [|done].
    eapply consistent_shrinks; [exact IH | apply message_next_shrinks].
  - by apply consistent_on_error.
  - eapply consistent_shrinks; [exact IH | apply complete_inner_shrinks].
  - by apply consistent_dispose.
Qed.

(** ** No transport makes a stream of [use()] error *)

Definition notError (n : nat * Notification EventPacket) : Prop :=
  ∀ e, n.2 ≠ Error e.

Lemma emits_weaken (P Q : nat * Notification EventPacket → Prop) k k' :
  (∀ n, P n → Q n) → emits P k k' → emits Q k k'.
Proof.
  intros H (t & E & F). exists t. split; [done|]. eapply Forall_impl; eauto.
Qed.

Lemma isComplete_notError n : isComplete n → notError n.
Proof. unfold isComplete, notError. intros -> e. done. Qed.

Lemma emit_events_emits u (evs : list EventPacket) k :
  emits notError k (fold_left (fun k' ev => emit_event u (Next ev) k') evs k).
Proof.
  apply emits_fold. intros k' ev. exists [(u, Next ev)]. split; [done|].
  repeat constructor. intros e. done.
Qed.

Lemma inner_on_message_emits i packet k :
  mp_from packet ∈ Map_keys (relays (impl k)) →
  emits notError k (inner_on_message i packet k).
Proof.
  intros Hfrom. unfold inner_on_message.
  destruct (inners k !! i) as [x|] eqn:Hi; [|by apply emits_refl].
  destruct (_ && _); [|by apply emits_refl].
  destruct (mp_message packet); try apply emit_events_emits.
  unfold set_inner. rewrite Hi. simpl.
  pose proof (finalizeReq_from_returns (i_subId x) _ (impl k) Hfrom) as Hn.
  destruct (finalizeReq _ (impl k)) as [[[]|e] c]; [|done].
  eapply emits_weaken; [apply isComplete_notError|].
  eapply emits_trans; [|apply (manageCompletion_emits i (with_impl c _))].
  by apply emits_refl.
Qed.

Lemma deliver_emits packet k o :
  mp_from packet ∈ Map_keys (relays (impl k)) →
  emits notError k (deliver packet k o).
Proof.
  intros Hfrom. destruct o; simpl.
  - unfold forward_on_message. destruct (uses k !! u); [|by apply emits_refl].
    destruct (_ && _); [apply emit_events_emits | by apply emits_refl].
  - by apply inner_on_message_emits.
  - apply emits_refl. unfold ok_on_message.
    destruct (pubs k !! p) as [x|]; [|done].
    destruct (mp_message packet); try done. destruct (p_event x); [|done].
    destruct (p_listening x); [|done].
    destruct (_ <=? _)%nat; [|done].
    destruct (_ <=? _)%nat; [|done]. unfold finalize_pub. simpl.
    by destruct (_ !! p).
Qed.

(** X10.  A message, a change of connection state or an error of a
    transport whose url is a key of the pool delivers events and completions
    to the streams of [use()], and never an error. *)
Lemma transports_never_error (k : Client) (w : nat) :
  (∀ s, sockets (impl k) !! w = Some s → ws_url s ∈ Map_keys (relays (impl k))) →
  (∀ message, emits notError k (on_message w message k))
  ∧ (∀ st, emits notError k (on_state w st k))
  ∧ (∀ reason, events (on_impl (on_error w reason) k) = events k).
Proof.
  intros Hw. split_and!; [| |done].
  - intros message. unfold on_message.
    destruct (sockets (impl k) !! w) as [s|] eqn:Hs; [|by apply emits_refl].
    destruct (ws_piped s); [|by apply emits_refl].
    unfold message_next. destruct (message_stopped _); [by apply emits_refl|].
    specialize (Hw s eq_refl).
    set (packet := {| mp_from := ws_url s; mp_message := message |}).
    assert (mp_from packet ∈ Map_keys (relays (impl k))) as Hfrom by done.
    clearbody packet. generalize (observers k) as os. intros os.
    clear Hs Hw. revert k Hfrom. induction os as [|o os IH]; intros k Hfrom; simpl.
    + by apply emits_refl.
    + eapply emits_trans; [by apply deliver_emits|]. apply IH.
      by rewrite (sh_relays _ _ (deliver_shrinks packet k o)).
  - intros st. eapply emits_weaken; [apply isComplete_notError|].
    apply on_state_emits.
Qed.

(** ** A stream of [use()] that errors *)



(** ** The listener of a publication on [message$] *)

(** [k'] has the publications of [k] and what their streams have got. *)
Definition same_pubs (k k' : Client) : Prop :=
  pubs k' = pubs k ∧ oks k' = oks k.

Lemma same_pubs_refl k : same_pubs k k.
Proof. done. Qed.

Lemma same_pubs_trans k1 k2 k3 : same_pubs k1 k2 → same_pubs k2 k3 → same_pubs k1 k3.
Proof. intros [] []. split; congruence. Qed.

Lemma same_pubs_fold {A} (f : Client → A → Client) (l : list A) k :
  (∀ k a, same_pubs k (f k a)) → same_pubs k (fold_left f l k).
Proof.
  intros Hf. revert k. induction l as [|a l IH]; intros k; simpl; [done|].
  eapply same_pubs_trans; [apply Hf | apply IH].
Qed.

Lemma set_use_live_pubs u s l k : same_pubs k (set_use_live u s l k).
Proof. unfold set_use_live. by destruct (uses k !! u). Qed.

Lemma set_inner_pubs i e l k : same_pubs k (set_inner i e l k).
Proof. unfold set_inner. by destruct (inners k !! i). Qed.

Lemma settle_pubs u k : same_pubs k (settle u k).
Proof.
  unfold settle. destruct (uses k !! u); [|done]. destruct (_ && _); [|done].
  eapply same_pubs_trans; [|apply set_use_live_pubs]. done.
Qed.

Lemma complete_inner_pubs i k : same_pubs k (complete_inner i k).
Proof.
  unfold complete_inner. destruct (inners k !! i) as [x|]; [|done].
  destruct (i_live x); [|done].
  eapply same_pubs_trans; [apply set_inner_pubs|].
  eapply same_pubs_trans; [apply settle_pubs|]. done.
Qed.

Lemma finalize_inner_pubs i k : same_pubs k (finalize_inner i k).
Proof.
  unfold finalize_inner. destruct (inners k !! i) as [x|]; [|done].
  destruct (i_live x); [|done].
  eapply same_pubs_trans; [apply set_inner_pubs|]. done.
Qed.

Lemma manageCompletion_pubs i k : same_pubs k (manageCompletion i k).
Proof.
  unfold manageCompletion. destruct (inners k !! i) as [x|]; [|done].
  destruct (i_live x); [|done]. destruct (getAllRelayState _); [|done].
  destruct (shouldComplete _ _); [apply complete_inner_pubs | done].
Qed.

Lemma fail_use_pubs u e k : same_pubs k (fail_use u e k).
Proof.
  unfold fail_use, teardown_inners.
  eapply same_pubs_trans; [|apply same_pubs_fold].
  - eapply same_pubs_trans; [|apply set_use_live_pubs]. done.
  - intros k' i. destruct (inners k' !! i) as [x|]; [|done].
    destruct (_ =? _)%nat; [apply finalize_inner_pubs | done].
Qed.

Lemma emit_events_pubs u (evs : list EventPacket) k :
  same_pubs k (fold_left (fun k' ev => emit_event u (Next ev) k') evs k).
Proof. apply same_pubs_fold. by intros. Qed.

(** The observers that are no listener of a publication leave the
    publications alone. *)
Lemma deliver_other_pubs packet k o :
  (∀ q, o ≠ ObsOk q) → same_pubs k (deliver packet k o).
Proof.
  intros Ho. destruct o as [u|i|q]; simpl; [| |by destruct (Ho q)].
  - unfold forward_on_message. destruct (uses k !! u); [|done].
    destruct (_ && _); [apply emit_events_pubs | done].
  - unfold inner_on_message. destruct (inners k !! i) as [x|]; [|done].
    destruct (_ && _); [|done].
    destruct (mp_message packet); try apply emit_events_pubs.
    destruct (finalizeReq _ _) as [[[]|e] c].
    + eapply same_pubs_trans; [|apply manageCompletion_pubs].
      eapply same_pubs_trans; [apply set_inner_pubs|]. done.
    + eapply same_pubs_trans; [|apply fail_use_pubs].
      eapply same_pubs_trans; [apply set_inner_pubs|]. done.
Qed.

(** What a listener does depends on the publications only. *)
Lemma ok_on_message_pubs q packet k1 k2 :
  same_pubs k1 k2 → same_pubs (ok_on_message q packet k1) (ok_on_message q packet k2).
Proof.
  intros [Hp Ho]. unfold ok_on_message. rewrite Hp.
  destruct (pubs k1 !! q) as [x|] eqn:Hq; [|done].
  destruct (mp_message packet); try done. destruct (p_event x); [|done].
  destruct (p_listening x); [|done].
  destruct (_ <=? _)%nat; [|by unfold same_pubs; simpl; rewrite ?Hp, ?Ho].
  destruct (_ <=? _)%nat;
    unfold same_pubs, finalize_pub, emit_ok, set_pub; simpl;
    rewrite ?Hp, ?Ho; [|done].
  destruct (<[q:=_]> (pubs k1) !! q); simpl; by rewrite ?Hp, ?Ho.
Qed.

(** When the listener of the publication [q] is the only listener of a
    publication on [message$], a packet of [message$] acts on the
    publications as it acts on that listener. *)
Lemma message_next_listener (packet : MessagePacket) (k : Client) (q : nat)
    (before after : list Observer) :
  message_stopped (impl k) = false →
  observers k = before ++ ObsOk q :: after →
  Forall (fun o => ∀ q', o ≠ ObsOk q') (before ++ after) →
  same_pubs (ok_on_message q packet k) (message_next packet k).
Proof.
  intros Hm Hobs [Hb Ha]%Forall_app. unfold message_next. rewrite Hm, Hobs.
  rewrite fold_left_app. simpl.
  set (ka := fold_left (deliver packet) before k).
  assert (same_pubs k ka) as Sa.
  { subst ka. clear Hobs Hm. revert k.
    induction Hb as [|o os Ho _ IH]; intros k; simpl; [done|].
    eapply same_pubs_trans; [by apply deliver_other_pubs | apply IH]. }
  eapply same_pubs_trans; [apply (ok_on_message_pubs q packet k ka Sa)|].
  generalize (ok_on_message q packet ka). clear -Ha.
  induction Ha as [|o os Ho _ IH]; intros k; simpl; [done|].
  eapply same_pubs_trans; [by apply deliver_other_pubs | apply IH].
Qed.

(** ** The stream of a publication *)

(** [k'] has the observers of [message$] that [k] has. *)
Definition same_observers (k k' : Client) : Prop := observers k' = observers k.

Lemma same_observers_trans k1 k2 k3 :
  same_observers k1 k2 → same_observers k2 k3 → same_observers k1 k3.
Proof. unfold same_observers. congruence. Qed.

Lemma same_observers_fold {A} (f : Client → A → Client) (l : list A) k :
  (∀ k a, same_observers k (f k a)) → same_observers k (fold_left f l k).
Proof.
  intros Hf. revert k. induction l as [|a l IH]; intros k; simpl; [done|].
  eapply same_observers_trans; [apply Hf | apply IH].
Qed.

Lemma set_use_live_observers u s l k : same_observers k (set_use_live u s l k).
Proof. unfold set_use_live. by destruct (uses k !! u). Qed.

Lemma set_inner_observers i e l k : same_observers k (set_inner i e l k).
Proof. unfold set_inner. by destruct (inners k !! i). Qed.

Lemma settle_observers u k : same_observers k (settle u k).
Proof.
  unfold settle. destruct (uses k !! u); [|done]. destruct (_ && _); [|done].
  eapply same_observers_trans; [|apply set_use_live_observers]. done.
Qed.

Lemma complete_inner_observers i k : same_observers k (complete_inner i k).
Proof.
  unfold complete_inner. destruct (inners k !! i) as [x|]; [|done].
  destruct (i_live x); [|done].
  eapply same_observers_trans; [apply set_inner_observers|].
  eapply same_observers_trans; [apply settle_observers|]. done.
Qed.

Lemma finalize_inner_observers i k : same_observers k (finalize_inner i k).
Proof.
  unfold finalize_inner. destruct (inners k !! i) as [x|]; [|done].
  destruct (i_live x); [|done].
  eapply same_observers_trans; [apply set_inner_observers|]. done.
Qed.

Lemma manageCompletion_observers i k : same_observers k (manageCompletion i k).
Proof.
  unfold manageCompletion. destruct (inners k !! i) as [x|]; [|done].
  destruct (i_live x); [|done]. destruct (getAllRelayState _); [|done].
  destruct (shouldComplete _ _); [apply complete_inner_observers | done].
Qed.

Lemma teardown_inners_observers u k : same_observers k (teardown_inners u k).
Proof.
  unfold teardown_inners. apply same_observers_fold.
  intros k' i. destruct (inners k' !! i) as [x|]; [|done].
  destruct (_ =? _)%nat; [apply finalize_inner_observers | done].
Qed.

Lemma teardown_inners_pubs u k : same_pubs k (teardown_inners u k).
Proof.
  unfold teardown_inners. apply same_pubs_fold.
  intros k' i. destruct (inners k' !! i) as [x|]; [|done].
  destruct (_ =? _)%nat; [apply finalize_inner_pubs | done].
Qed.

Lemma fail_use_observers u e k : same_observers k (fail_use u e k).
Proof.
  unfold fail_use.
  eapply same_observers_trans; [|apply teardown_inners_observers].
  eapply same_observers_trans; [|apply set_use_live_observers]. done.
Qed.

Lemma finalize_pub_observers q k : same_observers k (finalize_pub q k).
Proof. unfold finalize_pub. by destruct (pubs k !! q). Qed.

Lemma ok_on_message_observers q packet k :
  same_observers k (ok_on_message q packet k).
Proof.
  unfold ok_on_message. destruct (pubs k !! q) as [x|]; [|done].
  destruct (mp_message packet); try done. destruct (p_event x); [|done].
  destruct (p_listening x); [|done].
  destruct (_ <=? _)%nat; [|done].
  destruct (_ <=? _)%nat; [|done].
  eapply same_observers_trans; [|apply finalize_pub_observers]. done.
Qed.

Lemma deliver_observers packet k o : same_observers k (deliver packet k o).
Proof.
  destruct o as [u|i|q]; simpl.
  - unfold forward_on_message. destruct (uses k !! u); [|done].
    destruct (_ && _); [|done]. apply same_observers_fold. by intros.
  - unfold inner_on_message. destruct (inners k !! i) as [x|]; [|done].
    destruct (_ && _); [|done].
    destruct (mp_message packet);
      try (apply same_observers_fold; by intros).
    destruct (finalizeReq _ _) as [[[]|e] c].
    + eapply same_observers_trans; [|apply manageCompletion_observers].
      eapply same_observers_trans; [apply set_inner_observers|]. done.
    + eapply same_observers_trans; [|apply fail_use_observers].
      eapply same_observers_trans; [apply set_inner_observers|]. done.
  - apply ok_on_message_observers.
Qed.

Lemma message_next_observers packet k : same_observers k (message_next packet k).
Proof.
  unfold message_next. destruct (message_stopped _); [done|].
  apply same_observers_fold. intros. apply deliver_observers.
Qed.

(** What the stream [send()] returned for the publication [q] has got. *)
Definition okStream (q : nat) (k : Client) : list (Notification OkPacket) :=
  snd <$> List.filter (fun n : nat * Notification OkPacket => (n.1 =? q)%nat) (oks k).

Lemma okStream_app q k t k' :
  oks k' = oks k ++ t →
  okStream q k'
  = okStream q k
    ++ (snd <$> List.filter (fun n : nat * Notification OkPacket => (n.1 =? q)%nat) t).
Proof. unfold okStream. intros ->. by rewrite List.filter_app, fmap_app. Qed.

Lemma okStream_tagged q q' (t : list (Notification OkPacket)) :
  snd <$> List.filter (fun n : nat * Notification OkPacket => (n.1 =? q)%nat)
                      ((fun n => (q', n)) <$> t)
  = if (q' =? q)%nat then t else [].
Proof.
  induction t as [|n t IH]; [by destruct (q' =? q)%nat|].
  rewrite fmap_cons. cbn [List.filter fst].
  destruct (q' =? q)%nat eqn:E; [rewrite fmap_cons; simpl|]; by rewrite IH.
Qed.

Lemma okStream_tagged_map {A} q (f : A → Notification OkPacket) (l : list A) :
  snd <$> List.filter (fun n : nat * Notification OkPacket => (n.1 =? q)%nat)
                      ((fun p => (q, f p)) <$> l)
  = f <$> l.
Proof.
  induction l as [|a l IH]; [done|].
  rewrite !fmap_cons. cbn [List.filter fst]. rewrite Nat.eqb_refl, fmap_cons.
  simpl. by rewrite IH.
Qed.

(** What the listener of the publication [q] does to the publications and
    to their streams. *)
Lemma ok_on_message_effect q packet k :
  length (pubs (ok_on_message q packet k)) = length (pubs k)
  ∧ (∀ q', q' ≠ q → pubs (ok_on_message q packet k) !! q' = pubs k !! q')
  ∧ ∃ t, oks (ok_on_message q packet k) = oks k ++ ((fun n => (q, n)) <$> t)
         ∧ (q < length (pubs k) ∨ t = []).
Proof.
  unfold ok_on_message.
  destruct (pubs k !! q) as [x|] eqn:Hq;
    [|split_and!; try done; exists []; by rewrite app_nil_r; auto].
  assert (q < length (pubs k)) as Hlt by by eapply lookup_lt_Some.
  assert (∀ k0 : Client, ∃ t, oks k0 = oks k0 ++ ((fun n => (q, n)) <$> t)
                              ∧ (q < length (pubs k) ∨ t = [])) as Hnone.
  { intros k0. exists []. by rewrite app_nil_r; auto. }
  destruct (mp_message packet); try (split_and!; [done | done | apply Hnone]).
  destruct (p_event x) as [event|]; [|split_and!; [done | done | apply Hnone]].
  destruct (p_listening x); [|split_and!; [done | done | apply Hnone]].
  destruct (_ <=? _)%nat.
  2:{ unfold set_pub. simpl. rewrite length_insert. split_and!; [done| |].
      - intros q' Hne. by rewrite list_lookup_insert_ne.
      - exists []. by rewrite app_nil_r; auto. }
  destruct (_ <=? _)%nat.
  - unfold finalize_pub, emit_ok, set_pub. simpl.
    rewrite list_lookup_insert_eq by done. simpl.
    rewrite !length_insert. split_and!; [done| |].
    + intros q' Hne. by rewrite !list_lookup_insert_ne.
    + eexists [_; _]. rewrite <- app_assoc. split; [reflexivity | by left].
  - unfold emit_ok, set_pub. simpl. rewrite length_insert. split_and!; [done| |].
    + intros q' Hne. by rewrite list_lookup_insert_ne.
    + eexists [_]. split; [reflexivity | by left].
Qed.

(** The publication [q] and its stream are the same in [k] and [k']. *)
Definition same_stream (q : nat) (k k' : Client) : Prop :=
  pubs k' !! q = pubs k !! q ∧ okStream q k' = okStream q k.

Lemma same_stream_trans q k1 k2 k3 :
  same_stream q k1 k2 → same_stream q k2 k3 → same_stream q k1 k3.
Proof. intros [] []. split; congruence. Qed.

Lemma same_pubs_stream q k k' : same_pubs k k' → same_stream q k k'.
Proof. intros [Hp Ho]. unfold same_stream, okStream. by rewrite Hp, Ho. Qed.

(** Another observer of [message$], a listener of another publication among
    them, leaves the publication [q] and its stream alone. *)
Lemma deliver_other_stream q packet k o :
  o ≠ ObsOk q → same_stream q k (deliver packet k o).
Proof.
  intros Ho. destruct o as [u|i|q'].
  - by apply same_pubs_stream, (deliver_other_pubs packet k (ObsForward u)).
  - by apply same_pubs_stream, (deliver_other_pubs packet k (ObsInner i)).
  - simpl. destruct (ok_on_message_effect q' packet k) as (_ & Hp & t & Ht & _).
    split; [apply Hp; congruence|].
    rewrite (okStream_app q k _ _ Ht), okStream_tagged.
    destruct (Nat.eqb_spec q' q) as [->|_]; [done | by rewrite app_nil_r].
Qed.

Lemma deliver_others_stream q packet os : ∀ k,
  ObsOk q ∉ os → same_stream q k (fold_left (deliver packet) os k).
Proof.
  induction os as [|o os IH]; intros k Hq; simpl; [done|].
  apply not_elem_of_cons in Hq as [Hne Hq].
  eapply same_stream_trans; [|by apply IH].
  apply (deliver_other_stream q packet k o). by intros ->.
Qed.

(** What the listener of [q] does depends on the publication [q] only, and
    goes to the stream of [q] only. *)
Lemma ok_on_message_stream q packet k1 k2 :
  same_stream q k1 k2 →
  same_stream q (ok_on_message q packet k1) (ok_on_message q packet k2).
Proof.
  intros [Hp Ho]. unfold same_stream.
  assert (∀ (x : Publication) ka kb,
            pubs kb !! q = pubs ka !! q → okStream q kb = okStream q ka →
            pubs (set_pub q x kb) !! q = pubs (set_pub q x ka) !! q
            ∧ okStream q (set_pub q x kb) = okStream q (set_pub q x ka)) as Hset.
  { intros x ka kb Hpq Hoq. split; [|done]. unfold set_pub. simpl.
    destruct (pubs ka !! q) as [z|] eqn:Ha.
    - rewrite !list_lookup_insert_eq; [done | by eapply lookup_lt_Some
                                            | by eapply lookup_lt_Some].
    - rewrite (list_insert_ge (pubs ka)), (list_insert_ge (pubs kb));
        [congruence | by apply lookup_ge_None | by apply lookup_ge_None]. }
  assert (∀ n ka kb,
            pubs kb !! q = pubs ka !! q → okStream q kb = okStream q ka →
            pubs (emit_ok q n kb) !! q = pubs (emit_ok q n ka) !! q
            ∧ okStream q (emit_ok q n kb) = okStream q (emit_ok q n ka)) as Hemit.
  { intros n ka kb Hpq Hoq. split; [done|]. unfold emit_ok.
    rewrite (okStream_app q ka [(q, n)] (with_oks (oks ka ++ [(q, n)]) ka) eq_refl),
      (okStream_app q kb [(q, n)] (with_oks (oks kb ++ [(q, n)]) kb) eq_refl).
    by rewrite Hoq. }
  assert (∀ ka kb,
            pubs kb !! q = pubs ka !! q → okStream q kb = okStream q ka →
            pubs (finalize_pub q kb) !! q = pubs (finalize_pub q ka) !! q
            ∧ okStream q (finalize_pub q kb) = okStream q (finalize_pub q ka)) as Hfin.
  { intros ka kb Hpq Hoq. unfold finalize_pub. rewrite Hpq.
    destruct (pubs ka !! q) as [z|] eqn:Ha; [|by rewrite Ha].
    apply Hset; [by rewrite Ha | done]. }
  unfold ok_on_message. rewrite Hp.
  destruct (pubs k1 !! q) as [x|] eqn:Hq; [|by rewrite Hq].
  rewrite <- Hq in Hp.
  destruct (mp_message packet); try done. destruct (p_event x); [|done].
  destruct (p_listening x); [|done].
  destruct (Hset {| p_urls := p_urls x; p_event := Some e; p_listening := true;
                    p_seen := S (p_seen x); p_live := p_live x |} k1 k2 Hp Ho)
    as [Hp1 Ho1].
  destruct (_ <=? _)%nat; [|done].
  destruct (Hemit (Next {| ok_from := mp_from packet; ok_id := id e |}) _ _ Hp1 Ho1)
    as [Hp2 Ho2].
  destruct (_ <=? _)%nat; [|done].
  destruct (Hemit Complete _ _ Hp2 Ho2) as [Hp3 Ho3].
  by apply Hfin.
Qed.

(** A packet of [message$] acts on the publication [q] as it acts on the
    listener of [q], when that listener is subscribed once. *)
Lemma message_next_stream q packet k ka (before after : list Observer) :
  message_stopped (impl k) = false →
  observers k = before ++ ObsOk q :: after →
  ObsOk q ∉ before → ObsOk q ∉ after →
  same_stream q ka k →
  same_stream q (ok_on_message q packet ka) (message_next packet k).
Proof.
  intros Hm Hobs Hb Ha S. unfold message_next. rewrite Hm, Hobs.
  rewrite fold_left_app. simpl.
  eapply same_stream_trans; [|by apply deliver_others_stream].
  apply ok_on_message_stream.
  eapply same_stream_trans; [exact S | by apply deliver_others_stream].
Qed.

(** The packets that the frames [(w, message)], each a message the
    websocket [w] delivers, put on [message$]. *)
Definition arrival (c : RxNostrImpl) (frame : nat * IncomingMessage)
    : option MessagePacket :=
  match sockets c !! frame.1 with
  | Some s => if ws_piped s
              then Some {| mp_from := ws_url s; mp_message := frame.2 |}
              else None
  | None => None
  end.

Lemma on_message_arrival c w message k :
  sockets (impl k) = sockets c →
  on_message w message k
  = match arrival c (w, message) with
    | Some packet => message_next packet k
    | None => k
    end.
Proof.
  intros Hs. unfold on_message, arrival. rewrite Hs. simpl.
  destruct (sockets c !! w) as [s|]; [|done]. by destruct (ws_piped s).
Qed.

(** The frames act on the publication [q] as their packets act on its
    listener. *)
Lemma on_messages_stream q c (frames : list (nat * IncomingMessage))
    (before after : list Observer) : ∀ k ka,
  message_stopped (impl k) = false → sockets (impl k) = sockets c →
  observers k = before ++ ObsOk q :: after →
  ObsOk q ∉ before → ObsOk q ∉ after →
  same_stream q ka k →
  same_stream q (fold_left (fun k' p => ok_on_message q p k')
                           (omap (arrival c) frames) ka)
              (fold_left (fun k' f => on_message f.1 f.2 k') frames k).
Proof.
  induction frames as [|[w m] frames IH]; intros k ka Hm Hs Hobs Hb Ha S; [done|].
  cbn [fold_left fst snd]. rewrite (on_message_arrival c w m k Hs).
  change (omap (arrival c) ((w, m) :: frames))
    with (match arrival c (w, m) with
          | Some packet => packet :: omap (arrival c) frames
          | None => omap (arrival c) frames
          end).
  destruct (arrival c (w, m)) as [packet|]; [|by apply IH].
  cbn [fold_left]. apply IH; try done.
  - by rewrite (sh_message _ _ (message_next_shrinks packet k)).
  - by rewrite (sh_sockets _ _ (message_next_shrinks packet k)).
  - by rewrite (message_next_observers packet k).
  - by apply message_next_stream with before after.
Qed.

(** With no listener of [q] on [message$], the frames leave the publication
    [q] and its stream alone. *)
Lemma on_messages_unheard q (frames : list (nat * IncomingMessage)) : ∀ k,
  ObsOk q ∉ observers k →
  same_stream q k (fold_left (fun k' f => on_message f.1 f.2 k') frames k).
Proof.
  induction frames as [|[w m] frames IH]; intros k Hq; [done|].
  cbn [fold_left fst snd].
  assert (same_stream q k (on_message w m k) ∧ same_observers k (on_message w m k))
    as [S So].
  { unfold on_message. destruct (sockets (impl k) !! w) as [s|]; [|done].
    destruct (ws_piped s); [|done]. split; [|apply message_next_observers].
    unfold message_next. destruct (message_stopped _); [done|].
    by apply deliver_others_stream. }
  eapply same_stream_trans; [exact S|]. apply IH. by rewrite So.
Qed.

(** With [message$] completed, the frames change nothing. *)
Lemma on_messages_stopped (frames : list (nat * IncomingMessage)) k :
  message_stopped (impl k) = true →
  fold_left (fun k' f => on_message f.1 f.2 k') frames k = k.
Proof.
  intros Hm. induction frames as [|[w m] frames IH]; [done|].
  cbn [fold_left fst snd]. unfold on_message at 2, message_next. rewrite Hm.
  destruct (sockets (impl k) !! w) as [s|]; [|done]. by destruct (ws_piped s).
Qed.

(** *** The listeners on [message$] are those of publications made *)

Record listeners_known (k : Client) : Prop := {
  lk_observers : ∀ q, ObsOk q ∈ observers k → q < length (pubs k);
  lk_oks : ∀ n, n ∈ oks k → n.1 < length (pubs k);
}.

Lemma listeners_known_same k k' :
  same_pubs k k' → same_observers k k' → listeners_known k → listeners_known k'.
Proof. intros [Hp Ho] Hobs [H1 H2]. split; rewrite ?Hp, ?Ho, ?Hobs; done. Qed.

Lemma listeners_known_on_impl f k : listeners_known k → listeners_known (on_impl f k).
Proof. by apply listeners_known_same. Qed.

Lemma listeners_known_finalize_pub q k :
  listeners_known k → listeners_known (finalize_pub q k).
Proof.
  intros [H1 H2]. unfold finalize_pub. destruct (pubs k !! q); [|done].
  split; simpl; by rewrite length_insert.
Qed.

Lemma listeners_known_ok_on_message q packet k :
  listeners_known k → listeners_known (ok_on_message q packet k).
Proof.
  intros [H1 H2].
  destruct (ok_on_message_effect q packet k) as (Hlen & _ & t & Ht & Hq).
  split; rewrite Hlen.
  - rewrite (ok_on_message_observers q packet k). apply H1.
  - rewrite Ht. intros n [Hn|Hn]%elem_of_app; [by apply H2|].
    apply list_elem_of_fmap in Hn as (y & -> & Hy). simpl.
    destruct Hq as [Hq| ->]; [done | by apply elem_of_nil in Hy].
Qed.

Lemma listeners_known_deliver packet k o :
  listeners_known k → listeners_known (deliver packet k o).
Proof.
  intros H. destruct o as [u|i|q].
  - eapply listeners_known_same; [| |exact H];
      [by apply (deliver_other_pubs packet k (ObsForward u))
      |apply deliver_observers].
  - eapply listeners_known_same; [| |exact H];
      [by apply (deliver_other_pubs packet k (ObsInner i))
      |apply deliver_observers].
  - by apply listeners_known_ok_on_message.
Qed.

Lemma listeners_known_fold {A} (f : Client → A → Client) (l : list A) k :
  (∀ k a, listeners_known k → listeners_known (f k a)) →
  listeners_known k → listeners_known (fold_left f l k).
Proof.
  intros Hf. revert k. induction l as [|a l IH]; intros k H; simpl; [done|].
  by apply IH, Hf.
Qed.

Lemma listeners_known_observer o k :
  (∀ q, o ≠ ObsOk q) → listeners_known k →
  listeners_known (with_observers (observers k ++ [o]) k).
Proof.
  intros Ho [H1 H2]. split; [|done]. simpl.
  intros q [Hq|Hq%list_elem_of_singleton]%elem_of_app; [by apply H1|].
  by destruct (Ho q).
Qed.

Lemma listeners_known_created u subId k :
  listeners_known k → listeners_known (createEoseManagedEventObservable u subId k).
Proof.
  intros H. unfold createEoseManagedEventObservable.
  set (k1 := with_inners _ k).
  assert (listeners_known (with_observers (observers k1 ++ [ObsInner (length (inners k))]) k1))
    as H2.
  { apply listeners_known_observer; [done|]. by destruct H. }
  destruct (message_stopped _); [|done].
  eapply listeners_known_same; [| |exact H2].
  - apply complete_inner_pubs.
  - apply complete_inner_observers.
Qed.

Lemma reachable_listeners_known k : reachable k → listeners_known k.
Proof.
  induction 1 as [opt|nz input k _ IH|nz relay k _ IH|nz u k _ IH|u k _ IH
                  |strategy rxReqId k _ IH|u filters k _ IH|u k _ IH|k _ IH
                  |q event k _ IH|q k _ IH|w st k _ IH|w message k _ IH
                  |w reason k _ IH|i k _ IH|k _ IH];
    try by apply listeners_known_on_impl.
  - split; simpl; intros ? H; by apply elem_of_nil in H.
  - unfold use. simpl.
    set (k1 := with_uses _ k).
    assert (listeners_known k1) as H1 by by destruct IH.
    destruct (bool_decide _); [|done].
    by apply (listeners_known_observer (ObsForward (length (uses k))) k1).
  - unfold req_next. destruct (uses k !! u) as [x|]; [|done].
    destruct filters as [fs|]; [|done]. destruct (_ && _); [|done].
    set (k1 := with_uses _ k).
    assert (listeners_known k1) as H1 by by destruct IH.
    destruct (u_strategy x).
    + by apply listeners_known_on_impl.
    + by apply listeners_known_created, listeners_known_on_impl.
    + set (k2 := createEoseManagedEventObservable _ _ _).
      assert (listeners_known k2) as H2
        by by apply listeners_known_created, listeners_known_on_impl.
      destruct (uses k2 !! u) as [x2|]; [|done]. destruct (u_live x2); [|done].
      eapply listeners_known_same; [| |exact H2].
      * eapply same_pubs_trans; [apply set_use_live_pubs | apply settle_pubs].
      * eapply same_observers_trans;
          [apply set_use_live_observers | apply settle_observers].
  - unfold unsubscribe. destruct (uses k !! u) as [x|]; [|done].
    destruct (u_live x); [|done].
    assert (listeners_known (set_use_live u false false k)) as H1.
    { eapply listeners_known_same; [| |exact IH];
        [apply set_use_live_pubs | apply set_use_live_observers]. }
    destruct (u_strategy x); [by apply listeners_known_on_impl| |];
      (eapply listeners_known_same; [| |exact H1];
       [apply teardown_inners_pubs | apply teardown_inners_observers]).
  - unfold send. simpl.
    set (k1 := with_pubs _ k).
    assert (listeners_known k1) as H1.
    { destruct IH as [H1 H2]. split; simpl; rewrite length_app; simpl.
      - intros q Hq. specialize (H1 q Hq). lia.
      - intros n Hn. specialize (H2 n Hn). lia. }
    destruct (_ =? _)%nat; [|done].
    apply listeners_known_finalize_pub.
    destruct H1 as [H1 H2]. split; [done|]. simpl.
    intros n [Hn|Hn%list_elem_of_singleton]%elem_of_app; [by apply H2|].
    subst n. simpl. rewrite length_app. simpl. lia.
  - unfold send_then. destruct (pubs k !! q) as [x|] eqn:Hq; [|done].
    destruct (p_event x); [done|].
    assert (q < length (pubs k)) as Hlt by by eapply lookup_lt_Some.
    apply listeners_known_on_impl.
    set (k1 := set_pub _ _ k).
    assert (listeners_known k1) as H1.
    { destruct IH as [H1 H2]. split; simpl; by rewrite length_insert. }
    destruct (p_live x); [|done].
    destruct H1 as [H1 H2]. split; [|done]. simpl.
    intros q' [Hq'|Hq'%list_elem_of_singleton]%elem_of_app; [by apply H1|].
    injection Hq' as ->. by rewrite length_insert.
  - by apply listeners_known_finalize_pub.
  - unfold on_state. destruct (sockets (impl k) !! w) as [s|]; [|done].
    destruct (status_stopped _); [by apply listeners_known_on_impl|].
    apply listeners_known_fold; [|by apply listeners_known_on_impl].
    intros k' i H'. eapply listeners_known_same; [| |exact H'].
    + apply manageCompletion_pubs.
    + apply manageCompletion_observers.
  - unfold on_message. destruct (sockets (impl k) !! w) as [s|]; [|done].
    destruct (ws_piped s); [|done]. unfold message_next.
    destruct (message_stopped _); [done|].
    apply listeners_known_fold; [|done]. intros. by apply listeners_known_deliver.
  - eapply listeners_known_same; [| |exact IH].
    + apply complete_inner_pubs.
    + apply complete_inner_observers.
  - unfold dispose. do 2 apply listeners_known_on_impl.
    destruct (message_stopped _); [done|].
    apply listeners_known_fold; [|by apply listeners_known_on_impl].
    intros k' o H'. destruct o; simpl; try done.
    eapply listeners_known_same; [| |exact H'].
    + apply complete_inner_pubs.
    + apply complete_inner_observers.
Qed.

Lemma okStream_unmade q k : listeners_known k → length (pubs k) ≤ q → okStream q k = [].
Proof.
  intros [_ H] Hq. unfold okStream.
  rewrite filter_none; [done|]. intros n Hn%H. apply Nat.eqb_neq. lia.
Qed.

Lemma send_event_fold_shrinks event (urls : list string) c :
  shrinks c (fold_left (send_event event) urls c).
Proof.
  apply shrinks_fold. intros c' u. unfold send_event.
  destruct (Map_get u (relays c')); [|apply shrinks_refl]. by split.
Qed.

(** C5.  A publication made by [send()] in a client the caller has come to,
    when [W] relays of the pool are writable, signed as [event], and then
    the messages that [frames] names, each delivered by a websocket of the
    client: the listener that [send] puts on [message$] gives the stream
    returned a packet for each of the first [W] OK messages among those
    that reach [message$], whatever relay they come from and whatever event
    id they carry, each packet with the url of the sender and the id of
    [event]; the stream completes with the [W]-th, at once when [W] is 0,
    and so yields at most [W] packets.  When [message$] has been completed
    the stream gets no packet. *)
Theorem send_acknowledgements (k : Client) (event : Event)
    (frames : list (nat * IncomingMessage)) :
  reachable k →
  let W := length (List.filter write (Map_values (relays (impl k)))) in
  let q := (send k).1 in
  let k' := fold_left (fun k' f => on_message f.1 f.2 k') frames
                      (send_then q event (send k).2) in
  let acks := if message_stopped (impl k) then []
              else List.filter isOK (omap (arrival (impl k)) frames) in
  okStream q k' = ((fun p => Next (okPacket event p)) <$> take W acks)
                  ++ (if (W <=? length acks)%nat then [Complete] else []).
Proof.
  intros Hr. pose proof (reachable_listeners_known k Hr) as Hk.
  cbv zeta. unfold send. cbn [fst snd].
  set (urls := getWritableUrls (Map_values (relays (impl k)))).
  assert (length (List.filter write (Map_values (relays (impl k)))) = length urls)
    as -> by (unfold urls, getWritableUrls; by rewrite length_map).
  set (q := length (pubs k)).
  pose proof (okStream_unmade q k Hk (le_n _)) as Hempty.
  assert (ObsOk q ∉ observers k) as Hfresh.
  { intros Hq%(lk_observers k Hk). unfold q in Hq. lia. }
  destruct (length urls) as [|W] eqn:HW.
  - (* take(0) is EMPTY *)
    simpl Nat.eqb. cbv iota.
    set (k1 := send_then q event _).
    assert (okStream q k1 = [Complete] ∧ observers k1 = observers k) as [Ho Hobs].
    { unfold k1, finalize_pub, emit_ok, send_then, set_pub. simpl.
      rewrite lookup_app_r, Nat.sub_diag by done. simpl.
      rewrite list_lookup_insert_eq by (rewrite length_app; simpl; lia).
      simpl. split; [|done].
      unfold okStream. simpl. rewrite List.filter_app, fmap_app. simpl.
      fold q. rewrite Nat.eqb_refl. simpl.
      by change (snd <$> List.filter _ (oks k)) with (okStream q k); rewrite Hempty. }
    destruct (on_messages_unheard q frames k1) as [_ ->]; [by rewrite Hobs|].
    by rewrite Ho.
  - simpl Nat.eqb. cbv iota.
    set (k1 := send_then q event _).
    assert (pubs k1 !! q = Some {| p_urls := urls; p_event := Some event;
                                   p_listening := true; p_seen := 0;
                                   p_live := true |}
            ∧ oks k1 = oks k ∧ observers k1 = observers k ++ [ObsOk q]
            ∧ shrinks (impl k) (impl k1)) as (Hq & Ho & Hobs & Sh).
    { unfold k1, send_then, set_pub. simpl.
      rewrite lookup_app_r, Nat.sub_diag by done. simpl.
      rewrite list_lookup_insert_eq by (rewrite length_app; simpl; lia).
      split_and!; try done. apply send_event_fold_shrinks. }
    assert (okStream q k1 = []) as Ho1 by (unfold okStream; by rewrite Ho).
    destruct (message_stopped (impl k)) eqn:Hm.
    { rewrite on_messages_stopped by by rewrite (sh_message _ _ Sh). by rewrite Ho1. }
    destruct (on_messages_stream q (impl k) frames (observers k) [] k1 k1)
      as [_ ->]; try done.
    + by rewrite (sh_message _ _ Sh).
    + apply (sh_sockets _ _ Sh).
    + apply not_elem_of_nil.
    + rewrite (okStream_app q k1 _ _
                 (ok_on_message_fold q event urls _ k1 0 Hq ltac:(lia))).
      rewrite Ho1, HW, Nat.sub_0_r. cbn [app].
      rewrite List.filter_app, fmap_app, okStream_tagged_map.
      destruct (S W <=? _)%nat; simpl; by rewrite ?Nat.eqb_refl.
Qed.

Lemma sampleClient_reachable : reachable sampleClient.
Proof.
  change sampleClient
    with (req_next 0 (Some [sampleFilter])
            (use forward "sub"
               (on_impl (exec (setRelays asGiven sampleRelays))
                        (newClient defaultRxNostrOptions))).2).
  apply reach_req_next, reach_use, reach_setRelays, reach_new.
Qed.

(** Both relays of the sample are writable: of three OK messages, none for
    the event sent, the first two reach the stream, which then completes;
    the message of a websocket the client does not have goes nowhere. *)
Lemma send_acknowledgements_witness :
  let q := (send sampleClient).1 in
  let frames := [(0, InOK "e0" true None); (1, InNOTICE "hello");
                 (7, InOK "e1" true None); (1, InOK "e2" false (Some "blocked"));
                 (0, InOK "e1" true None)] in
  let k' := fold_left (fun k' f => on_message f.1 f.2 k') frames
                      (send_then q sampleEvent (send sampleClient).2) in
  okStream q k'
  = [Next {| ok_from := "wss://a.example"; ok_id := "e1" |};
     Next {| ok_from := "wss://b.example"; ok_id := "e1" |};
     Complete].
Proof.
  apply (send_acknowledgements sampleClient sampleEvent
           [(0, InOK "e0" true None); (1, InNOTICE "hello");
            (7, InOK "e1" true None); (1, InOK "e2" false (Some "blocked"));
            (0, InOK "e1" true None)]).
  exact sampleClient_reachable.
Defined.

(** ** The registry holds the last REQ of a forward subscription *)

Lemma forward_req_recorded (k : Client) (u : nat) (x : Use)
    (filters : list Filter) :
  uses k !! u = Some x → u_strategy x = forward →
  u_live x = true → u_source x = true →
  Map_get (makeSubId (u_rxReqId x) None)
          (activeReqs (impl (req_next u (Some filters) k)))
  = Some {| req_subId := makeSubId (u_rxReqId x) None; req_filters := filters |}.
Proof.
  intros Hu Hs Hl Hsrc. unfold req_next. rewrite Hu, Hl, Hsrc, Hs. simpl.
  unfold ensureReqOnNext, ensureReq, attachSubId. rewrite Hs. simpl.
  destruct (ensureReq_fold_frame
              {| req_subId := makeSubId (u_rxReqId x) None; req_filters := filters |}
              true (Map_values (relays (impl k)))
              (recordActiveReq
                 {| req_subId := makeSubId (u_rxReqId x) None;
                    req_filters := filters |} (impl k))) as (_ & -> & _).
  simpl. by rewrite Map_get_set, String.eqb_refl.
Qed.

(** * Further properties of the pool *)

(** ** The lifecycle calls of a transition *)

(** The calls of a trace that are not frames: [start()], [stop()] and
    [dispose()]. *)
Definition lifecycleCalls (t : list Call) : list Call :=
  List.filter (fun k => match k with WsSend _ _ => false | _ => true end) t.

Lemma lifecycleCalls_app t1 t2 :
  lifecycleCalls (t1 ++ t2) = lifecycleCalls t1 ++ lifecycleCalls t2.
Proof. apply List.filter_app. Qed.

Lemma lifecycleCalls_frames t :
  Forall (fun k => isReqSend k ∨ isCloseSend k) t → lifecycleCalls t = [].
Proof.
  induction 1 as [|k t Hk _ IH]; [done|].
  destruct k as [w|w|w|w f]; simpl in *; [destruct Hk as [[]|[]]..|exact IH].
Qed.

Lemma lifecycleCalls_fmap {A} (k : nat → Call) (f : A → nat) (l : list A) :
  (∀ w, match k w with WsSend _ _ => False | _ => True end) →
  lifecycleCalls ((fun a => k (f a)) <$> l) = (fun a => k (f a)) <$> l.
Proof.
  intros Hk. apply filter_all. intros x (a & -> & _)%list_elem_of_fmap.
  specialize (Hk (f a)). by destruct (k (f a)).
Qed.

Lemma appends_frames (P : Call → Prop) c c' :
  (∀ k, P k → isReqSend k ∨ isCloseSend k) →
  appends P c c' → ∃ t, calls c' = calls c ++ t ∧ lifecycleCalls t = [].
Proof.
  intros HP (t & E & F). exists t. split; [done|].
  apply lifecycleCalls_frames. eapply Forall_impl; eauto.
Qed.

(** The loop over [urlsNoLongerRead] calls [stop()] once on each relay it
    is given, in order. *)
Lemma stopReading_stops urls c :
  (∀ u, u ∈ urls → u ∈ Map_keys (relays c)) →
  ∃ t rs,
    calls (stopReading urls c).2 = calls c ++ t
    ∧ Forall2 (fun u r => Map_get u (relays c) = Some r) urls rs
    ∧ lifecycleCalls t = (fun r => WsStop (websocket r)) <$> rs.
Proof.
  revert c. induction urls as [|u urls IH]; intros c Hu; simpl.
  - exists [], []. rewrite app_nil_r. split_and!; [done|constructor|done].
  - assert (u ∈ Map_keys (relays c)) as Hin by (apply Hu, elem_of_cons; by left).
    pose proof Hin as [r Hr]%Map_keys_elem_of.
    pose proof (finalizeReq_url_returns u c Hin) as Hn.
    pose proof (finalizeReq_shrinks {| fp_subId := None; fp_url := Some u |} c) as Hs.
    destruct (appends_frames _ c _ (fun k H => or_intror H)
                (finalizeReq_appends {| fp_subId := None; fp_url := Some u |} c))
      as (t1 & E1 & L1).
    unfold bind at 1.
    destruct (finalizeReq _ c) as [[[]|e] c1]; simpl in *; [|discriminate Hn].
    unfold bind, run. simpl.
    unfold lifecycle at 1. rewrite (sh_relays _ _ Hs), Hr.
    destruct (IH (call (WsStop (websocket r)) c1)) as (t2 & rs & E2 & F2 & L2).
    { intros u' Hu'. simpl. rewrite (sh_relays _ _ Hs).
      apply Hu, elem_of_cons; by right. }
    exists (t1 ++ WsStop (websocket r) :: t2), (r :: rs). split_and!.
    + rewrite E2. simpl. rewrite E1, <- !app_assoc. done.
    + constructor; [done|]. simpl in F2. by rewrite (sh_relays _ _ Hs) in F2.
    + by rewrite lifecycleCalls_app, L1, fmap_cons, <- L2.
Qed.

(** One loop over the registry, once the relays to be read are known. *)
Definition registryPass (rs : list RelayState) (c : RxNostrImpl) : RxNostrImpl :=
  fold_left (fun c' req => ensureReq req (Some rs) false c')
            (Map_values (activeReqs c)) c.

Lemma ensureActiveReqs_fold reqs next urls rs c :
  relaysToBeRead next urls = Normal rs →
  ensureActiveReqs reqs next urls c
  = (Normal (), fold_left (fun c' req => ensureReq req (Some rs) false c') reqs c).
Proof.
  intros Hrs. revert c. induction reqs as [|req reqs IH]; intros c; simpl; [done|].
  unfold bind, liftC, run. rewrite Hrs. apply IH.
Qed.

Lemma ensureReqs_frame rs reqs c :
  let c' := fold_left (fun c' req => ensureReq req (Some rs) false c') reqs c in
  relays c' = relays c ∧ activeReqs c' = activeReqs c ∧ sockets c' = sockets c
  ∧ length (sets c') = length (sets c) ∧ appends isReqSend c c'.
Proof.
  revert c. induction reqs as [|req reqs IH]; intros c; simpl.
  - split_and!; try done. by apply appends_refl.
  - destruct (IH (ensureReq req (Some rs) false c)) as (-> & -> & -> & -> & H).
    destruct (ensureReq_fold_frame req false rs c) as (? & ? & ? & ? & _).
    split_and!; try done.
    eapply appends_trans; [apply ensureReq_appends | exact H].
Qed.

Lemma registryPass_frame rs c :
  relays (registryPass rs c) = relays c
  ∧ activeReqs (registryPass rs c) = activeReqs c
  ∧ sockets (registryPass rs c) = sockets c
  ∧ length (sets (registryPass rs c)) = length (sets c)
  ∧ appends isReqSend c (registryPass rs c).
Proof. apply ensureReqs_frame. Qed.

Section PoolTransition.
Variable normalizeUrl : string → Completion string.

(** From a consistent client no step of [setRelays] throws, and the client
    it leaves is the one its statements build in turn. *)
Lemma setRelays_normal_form input c next c0 :
  consistent c →
  getNextRelayState normalizeUrl (relays c) input c = Normal (next, c0) →
  ∃ c1 rs,
    stopReading (subtract (getReadableUrls (Map_values (relays c)))
                          (getReadableUrls (Map_values next))) c0 = (Normal (), c1)
    ∧ Forall2 (fun u r => Map_get u next = Some r)
        (subtract (getReadableUrls (Map_values next))
                  (getReadableUrls (Map_values (relays c)))) rs
    ∧ setRelays normalizeUrl input c
      = (Normal (),
         with_relays next
           (fold_left (lifecycle WsDispose (relays c))
              (subtract (Map_keys (relays c)) (Map_keys next))
              (registryPass rs (registryPass rs
                 (fold_left (lifecycle WsStart next)
                    (subtract (getReadableUrls (Map_values next))
                              (getReadableUrls (Map_values (relays c)))) c1))))).
Proof.
  intros Hc EG.
  pose proof (next_ok_getNextRelayState normalizeUrl input c next c0 Hc EG) as Hn.
  set (prevR := getReadableUrls (Map_values (relays c))).
  set (nextR := getReadableUrls (Map_values next)).
  destruct (stopReading_returns (subtract prevR nextR) c0) as [E1 S1].
  { intros u [Hu _]%elem_of_subtract. rewrite (nx_relays _ _ _ Hn).
    apply elem_of_getReadableUrls in Hu as (r & [k Hr]%Map_values_elem_of & _ & <-).
    pose proof (proj1 (Forall_forall _ _) (ok_url c Hc) _ Hr) as Hk.
    simpl in Hk. rewrite Hk.
    apply list_elem_of_fmap. by exists (k, r). }
  destruct (stopReading (subtract prevR nextR) c0) as [res1 c1] eqn:ES.
  simpl in E1, S1. subst res1.
  destruct (relaysToBeRead_returns next (subtract nextR prevR)) as (rs & Hrs & HF2).
  { intros u [Hu _]%elem_of_subtract.
    apply elem_of_getReadableUrls in Hu as (r & [k Hr]%Map_values_elem_of & _ & <-).
    pose proof (Map_get_elem_of _ _ _ (nx_keys _ _ _ Hn) Hr) as Hg.
    destruct (nx_get _ _ _ Hn _ _ Hg) as (-> & _).
    apply Map_keys_elem_of. eauto. }
  exists c1, rs. split_and!; [done | done |].
  unfold setRelays. rewrite EG. unfold installRelays. rewrite (nx_relays _ _ _ Hn).
  fold prevR nextR. unfold bind at 1. rewrite ES.
  unfold bind at 1, run at 1. cbn [fst snd].
  unfold bind at 1. rewrite (ensureActiveReqs_fold _ _ _ rs _ Hrs).
  unfold bind at 1. rewrite (ensureActiveReqs_fold _ _ _ rs _ Hrs).
  unfold run. fold (registryPass rs (fold_left (lifecycle WsStart next)
                                       (subtract nextR prevR) c1)).
  set (c2 := fold_left (lifecycle WsStart next) (subtract nextR prevR) c1).
  fold (registryPass rs (registryPass rs c2)).
  destruct (registryPass_frame rs (registryPass rs c2)) as (-> & _).
  destruct (registryPass_frame rs c2) as (-> & _).
  destruct (lifecycle_fold_frame WsStart next (subtract nextR prevR) c1)
    as (_ & H2 & _).
  fold c2 in H2. by rewrite H2, (sh_relays _ _ S1), (nx_relays _ _ _ Hn).
Qed.

End PoolTransition.

Lemma readable_urls_are_keys c u :
  consistent c → u ∈ getReadableUrls (Map_values (relays c)) →
  u ∈ Map_keys (relays c).
Proof.
  intros Hc (r & [k Hr]%Map_values_elem_of & _ & <-)%elem_of_getReadableUrls.
  pose proof (proj1 (Forall_forall _ _) (ok_url c Hc) _ Hr) as Hk.
  simpl in Hk. rewrite Hk. apply list_elem_of_fmap. by exists (k, r).
Qed.

Lemma lookups_exist {V} (m : list (string * V)) urls :
  (∀ u, u ∈ urls → u ∈ Map_keys m) →
  ∃ vs, Forall2 (fun u v => Map_get u m = Some v) urls vs.
Proof.
  induction urls as [|u urls IH]; intros Hu; [by exists []|].
  destruct IH as [vs Hvs]; [intros; apply Hu, elem_of_cons; by right|].
  destruct (proj1 (Map_keys_elem_of u m)) as [v Hv];
    [apply Hu, elem_of_cons; by left|].
  exists (v :: vs). by constructor.
Qed.

Lemma lifecycle_fold_calls k (m : list (string * RelayState)) urls rs c :
  Forall2 (fun u r => Map_get u m = Some r) urls rs →
  calls (fold_left (lifecycle k m) urls c)
  = calls c ++ ((fun r => k (websocket r)) <$> rs).
Proof.
  intros H. revert c. induction H as [|u r urls rs Hu _ IH]; intros c; simpl.
  - by rewrite app_nil_r.
  - rewrite IH. unfold lifecycle. rewrite Hu. simpl. by rewrite <- app_assoc.
Qed.

(** The websocket [createWebsocket(url)] makes. *)
Definition newSocket (u : string) : Socket :=
  {| ws_url := u; ws_state := not_started; ws_soFar := 0; ws_piped := true |}.

(** The websockets of the urls that were not in the pool are new ones, made
    for their url. *)
Lemma nextRelayState_fold_sockets prev l acc :
  (∀ k r, Map_get k acc.1 = Some r → Map_get k prev = None →
          sockets acc.2 !! websocket r = Some (newSocket k)) →
  ∀ k r, Map_get k (fold_left (nextRelayState_step prev) l acc).1 = Some r →
         Map_get k prev = None →
         sockets (fold_left (nextRelayState_step prev) l acc).2 !! websocket r
         = Some (newSocket k).
Proof.
  revert acc. induction l as [|relay l IH]; intros [next c] Hacc; [done|].
  cbn [fold_left]. apply IH. clear IH. intros k r.
  unfold nextRelayState_step.
  destruct (Map_get (r_url relay) prev) as [p|] eqn:Hp; simpl.
  - rewrite Map_get_set. destruct (String.eqb_spec k (r_url relay)) as [->|Hne].
    + intros _ Hk. congruence.
    + apply Hacc.
  - rewrite Map_get_set. destruct (String.eqb_spec k (r_url relay)) as [->|Hne].
    + intros [= <-] _. simpl. by rewrite lookup_app_r, Nat.sub_diag.
    + intros Hg Hk. simpl in Hacc. specialize (Hacc _ _ Hg Hk).
      by apply lookup_app_l_Some.
Qed.

Section PoolLifecycle.
Variable normalizeUrl : string → Completion string.

(** X1.  From a consistent client, the lifecycle calls [setRelays] makes are
    exactly these, in this order: [stop()] once on each relay that was read
    and is no longer, [start()] once on each relay that is read now and was
    not before, and [dispose()] once on each relay whose url has left the
    pool.  A relay that stays as it was gets none of them. *)
Theorem setRelays_lifecycle_calls (input : RelaysInput) (c : RxNostrImpl) :
  consistent c →
  let c' := (setRelays normalizeUrl input c).2 in
  let prevR := getReadableUrls (Map_values (relays c)) in
  let nextR := getReadableUrls (Map_values (relays c')) in
  ∃ t stopped started gone,
    calls c' = calls c ++ t
    ∧ Forall2 (fun u r => Map_get u (relays c) = Some r)
              (subtract prevR nextR) stopped
    ∧ Forall2 (fun u r => Map_get u (relays c') = Some r)
              (subtract nextR prevR) started
    ∧ Forall2 (fun u r => Map_get u (relays c) = Some r)
              (subtract (Map_keys (relays c)) (Map_keys (relays c'))) gone
    ∧ lifecycleCalls t
      = ((fun r => WsStop (websocket r)) <$> stopped)
        ++ ((fun r => WsStart (websocket r)) <$> started)
        ++ ((fun r => WsDispose (websocket r)) <$> gone).
Proof.
  intros Hc.
  destruct (getNextRelayState normalizeUrl (relays c) input c)
    as [[next c0]|e] eqn:EG.
  2:{ unfold setRelays. rewrite EG. cbv zeta. cbn [snd].
      rewrite !subtract_self. exists [], [], [], [].
      rewrite app_nil_r. by split_and!. }
  destruct (setRelays_normal_form normalizeUrl input c next c0 Hc EG)
    as (c1 & started & ES & HF2 & E).
  pose proof (next_ok_getNextRelayState normalizeUrl input c next c0 Hc EG) as Hn.
  pose proof (getNextRelayState_calls normalizeUrl (relays c) input c next c0 EG)
    as Hcalls.
  rewrite E. cbv zeta. cbn [snd]. simpl relays.
  set (prevR := getReadableUrls (Map_values (relays c))) in *.
  set (nextR := getReadableUrls (Map_values next)) in *.
  destruct (stopReading_stops (subtract prevR nextR) c0)
    as (t1 & stopped & E1 & F1 & L1).
  { intros u [Hu _]%elem_of_subtract. rewrite (nx_relays _ _ _ Hn).
    by apply readable_urls_are_keys. }
  rewrite ES in E1. simpl in E1. rewrite (nx_relays _ _ _ Hn) in F1.
  set (c2 := fold_left (lifecycle WsStart next) (subtract nextR prevR) c1).
  pose proof (lifecycle_fold_calls WsStart next _ _ c1 HF2) as E2. fold c2 in E2.
  destruct (registryPass_frame started c2) as (_ & _ & _ & _ & A3).
  destruct (registryPass_frame started (registryPass started c2))
    as (_ & _ & _ & _ & A4).
  destruct (appends_frames _ _ _ (fun k H => or_introl H) A3) as (t3 & E3 & L3).
  destruct (appends_frames _ _ _ (fun k H => or_introl H) A4) as (t4 & E4 & L4).
  destruct (lookups_exist (relays c)
              (subtract (Map_keys (relays c)) (Map_keys next))) as [gone HF5].
  { by intros u [Hu _]%elem_of_subtract. }
  pose proof (lifecycle_fold_calls WsDispose (relays c) _ _
                (registryPass started (registryPass started c2)) HF5) as E5.
  eexists _, stopped, started, gone. split_and!; [|done..|].
  - simpl. rewrite E5, E4, E3, E2, E1, Hcalls, <- !app_assoc. reflexivity.
  - rewrite !lifecycleCalls_app, L1, L3, L4. simpl.
    by rewrite (lifecycleCalls_fmap WsStart), (lifecycleCalls_fmap WsDispose).
Qed.

(** X2.  From a consistent client, a relay of the pool [setRelays] leaves
    has, when its url was in the pool before, the websocket and the set of
    active subscription ids of the record it replaces; otherwise it has a
    websocket and a set that did not exist before, the websocket being one
    made for its url. *)
Theorem setRelays_keeps_transports (input : RelaysInput) (c : RxNostrImpl)
    (u : string) (r : RelayState) :
  consistent c →
  let c' := (setRelays normalizeUrl input c).2 in
  Map_get u (relays c') = Some r →
  match Map_get u (relays c) with
  | Some p => websocket r = websocket p ∧ activeSubIds r = activeSubIds p
  | None => length (sockets c) ≤ websocket r
            ∧ length (sets c) ≤ activeSubIds r
            ∧ ws_url <$> sockets c' !! websocket r = Some u
  end.
Proof.
  intros Hc.
  destruct (getNextRelayState normalizeUrl (relays c) input c)
    as [[next c0]|e] eqn:EG.
  2:{ unfold setRelays. rewrite EG. cbv zeta. cbn [snd]. by intros ->. }
  destruct (setRelays_normal_form normalizeUrl input c next c0 Hc EG)
    as (c1 & rs & ES & HF2 & E).
  pose proof (next_ok_getNextRelayState normalizeUrl input c next c0 Hc EG) as Hn.
  assert (∀ k r, Map_get k next = Some r → Map_get k (relays c) = None →
                 sockets c0 !! websocket r = Some (newSocket k)) as Hso.
  { unfold getNextRelayState in EG.
    destruct (inputRelays normalizeUrl input) as [rels|e]; [|done].
    injection EG as EG.
    pose proof (nextRelayState_fold_sockets (relays c) rels ([], c)) as Hso.
    fold (nextRelayState_loop (relays c) rels c) in Hso. rewrite EG in Hso.
    apply Hso. intros k r0 H. by simpl in H. }
  rewrite E. cbv zeta. cbn [snd]. simpl relays. intros Hg.
  destruct (nx_get _ _ _ Hn _ _ Hg) as (_ & _ & _ & Ho).
  destruct (Map_get u (relays c)) as [p|] eqn:Hp; [tauto|].
  split_and!; [tauto..|]. simpl sockets.
  pose proof (stopReading_returns
                (subtract (getReadableUrls (Map_values (relays c)))
                          (getReadableUrls (Map_values next))) c0) as HS.
  rewrite ES in HS. simpl in HS. destruct HS as [_ S1].
  { intros v [Hv _]%elem_of_subtract. rewrite (nx_relays _ _ _ Hn).
    by apply readable_urls_are_keys. }
  rewrite (sh_sockets _ _ (shrinks_fold _ _ _ (fun c a => lifecycle_shrinks _ _ c a))).
  destruct (registryPass_frame rs (registryPass rs
              (fold_left (lifecycle WsStart next)
                 (subtract (getReadableUrls (Map_values next))
                           (getReadableUrls (Map_values (relays c)))) c1)))
    as (_ & _ & -> & _).
  destruct (registryPass_frame rs
              (fold_left (lifecycle WsStart next)
                 (subtract (getReadableUrls (Map_values next))
                           (getReadableUrls (Map_values (relays c)))) c1))
    as (_ & _ & -> & _).
  rewrite (sh_sockets _ _ (shrinks_fold _ _ _ (fun c a => lifecycle_shrinks _ _ c a))).
  by rewrite (sh_sockets _ _ S1), (Hso u r Hg Hp).
Qed.

End PoolLifecycle.

(** ** The pool rebuilt from its own relays *)

(** The relay [getRelays] answers for a record. *)
Definition relayOf (r : RelayState) : Relay :=
  {| r_url := url r; r_read := read r; r_write := write r |}.

Lemma getRelays_relayOf c : getRelays c = map relayOf (Map_values (relays c)).
Proof. done. Qed.


Lemma with_relays_same c : with_relays (relays c) c = c.
Proof. by destruct c. Qed.

Lemma registryPass_nil c : registryPass [] c = c.
Proof.
  unfold registryPass. generalize (Map_values (activeReqs c)).
  intros l. by induction l.
Qed.

(** [getNextRelayState] run over entries of the previous map gives each its
    record back. *)
Lemma nextRelayState_rebuild prev (m2 : list (string * RelayState)) : ∀ m1 c,
  Forall (fun e : string * RelayState =>
            Map_get e.1 prev = Some e.2 ∧ url e.2 = e.1) m2 →
  NoDup (Map_keys (m1 ++ m2)) →
  fold_left (nextRelayState_step prev) (relayOf <$> Map_values m2) (m1, c)
  = (m1 ++ m2, c).
Proof.
  induction m2 as [|[k r] m2 IH]; intros m1 c HF Hnd.
  - by rewrite app_nil_r.
  - apply Forall_cons in HF as [[Hg Hu] HF]. simpl in Hg, Hu.
    unfold Map_values. rewrite !fmap_cons. cbn [fold_left snd].
    unfold nextRelayState_step at 2. simpl r_url. rewrite Hu, Hg.
    assert (k ∉ Map_keys m1) as Hk.
    { unfold Map_keys in *. rewrite fmap_app, fmap_cons in Hnd.
      apply NoDup_app in Hnd as (_ & Hd & _). intros Hin.
      apply (Hd _ Hin), elem_of_cons. by left. }
    rewrite (Map_set_new _ _ _ Hk).
    replace {| url := k; read := r_read (relayOf r); write := r_write (relayOf r);
               activeSubIds := activeSubIds r; websocket := websocket r |}
      with r by (destruct r; simpl in *; by subst).
    fold (Map_values m2). rewrite IH; [by rewrite <- app_assoc|done|].
    by rewrite <- app_assoc.
Qed.

Section PoolRebuild.
Variable normalizeUrl : string → Completion string.

Lemma normalizeRelay_relayOf (l : list RelayState) :
  (∀ r, r ∈ l → normalizeUrl (url r) = Normal (url r)) →
  normalizeRelays normalizeUrl (map OfRelay (map relayOf l)) = Normal (relayOf <$> l).
Proof.
  induction l as [|r l IH]; intros H; [done|].
  cbn [map normalizeRelays].
  change (relayOf <$> r :: l) with (relayOf r :: (relayOf <$> l)).
  rewrite IH by (intros; apply H, elem_of_cons; by right).
  unfold normalizeRelay. simpl.
  by rewrite H by (apply elem_of_cons; by left).
Qed.

Lemma normalizeRelays_app l1 l2 :
  normalizeRelays normalizeUrl (l1 ++ l2)
  = match normalizeRelays normalizeUrl l1 with
    | Normal a => match normalizeRelays normalizeUrl l2 with
                  | Normal b => Normal (a ++ b)
                  | Threw e => Threw e
                  end
    | Threw e => Threw e
    end.
Proof.
  induction l1 as [|x l1 IH]; simpl.
  - by destruct (normalizeRelays normalizeUrl l2).
  - destruct (normalizeRelay normalizeUrl x); [|done]. rewrite IH.
    destruct (normalizeRelays normalizeUrl l1); [|done].
    by destruct (normalizeRelays normalizeUrl l2).
Qed.

Lemma consistent_entries c (m : list (string * RelayState)) :
  consistent c → m ⊆ relays c →
  Forall (fun e : string * RelayState =>
            Map_get e.1 (relays c) = Some e.2 ∧ url e.2 = e.1) m.
Proof.
  intros Hc Hm. apply Forall_forall. intros [k r] Hin%Hm. simpl. split.
  - apply Map_get_elem_of; [apply (ok_keys c Hc)|done].
  - apply (proj1 (Forall_forall _ _) (ok_url c Hc) _ Hin).
Qed.

Lemma fixed_urls c :
  consistent c →
  (∀ u, u ∈ Map_keys (relays c) → normalizeUrl u = Normal u) →
  ∀ r, r ∈ Map_values (relays c) → normalizeUrl (url r) = Normal (url r).
Proof.
  intros Hc Hfix r [k Hr]%Map_values_elem_of.
  pose proof (proj1 (Forall_forall _ _) (ok_url c Hc) _ Hr) as Hk. simpl in Hk.
  rewrite Hk. apply Hfix. apply list_elem_of_fmap. by exists (k, r).
Qed.

End PoolRebuild.

Lemma hasRelay_elem c u :
  hasRelay u c = true ↔ ∃ r, r ∈ Map_values (relays c) ∧ url r = u.
Proof.
  unfold hasRelay. rewrite getRelays_relayOf.
  induction (Map_values (relays c)) as [|r l IH]; simpl.
  - split; [done|]. by intros (r & Hr%elem_of_nil & _).
  - rewrite orb_true_iff, IH. split.
    + intros [H%String.eqb_eq|(r' & Hr' & Hu)].
      * exists r. split; [apply elem_of_cons; by left|done].
      * exists r'. split; [apply elem_of_cons; by right|done].
    + intros (r' & [->|Hr']%elem_of_cons & Hu).
      * left. by apply String.eqb_eq.
      * right. by exists r'.
Qed.

Lemma hasRelay_keys c u :
  Forall (fun e : string * RelayState => url e.2 = e.1) (relays c) →
  hasRelay u c = true ↔ u ∈ Map_keys (relays c).
Proof.
  intros Hurl. rewrite hasRelay_elem. split.
  - intros (r & [k Hr]%Map_values_elem_of & <-).
    pose proof (proj1 (Forall_forall _ _) Hurl _ Hr) as Hk. simpl in Hk.
    rewrite Hk. apply list_elem_of_fmap. by exists (k, r).
  - intros ([k r] & -> & Hin)%list_elem_of_fmap. exists r. split.
    + apply Map_values_elem_of. by exists k.
    + apply (proj1 (Forall_forall _ _) Hurl _ Hin).
Qed.


Lemma elem_of_List_filter {A} (p : A → bool) (l : list A) x :
  x ∈ List.filter p l ↔ x ∈ l ∧ p x = true.
Proof. rewrite !list_elem_of_In. apply List.filter_In. Qed.



Section PoolRoundTrips.
Variable normalizeUrl : string → Completion string.

Lemma getNextRelayState_current (l : list (string * RelayState)) c :
  consistent c →
  (∀ u, u ∈ Map_keys (relays c) → normalizeUrl u = Normal u) →
  l ⊆ relays c → NoDup (Map_keys l) →
  getNextRelayState normalizeUrl (relays c)
    (FromArray (map OfRelay (map relayOf (Map_values l)))) c = Normal (l, c).
Proof.
  intros Hc Hfix Hl Hnd. unfold getNextRelayState, inputRelays.
  rewrite normalizeRelay_relayOf.
  - f_equal. apply (nextRelayState_rebuild (relays c) l [] c); [|done].
    by apply consistent_entries.
  - intros r [k Hr%Hl]%Map_values_elem_of.
    apply (fixed_urls normalizeUrl c Hc Hfix). apply Map_values_elem_of. eauto.
Qed.

(** X3.  In a consistent client whose urls [normalizeUrl] leaves as they
    are, [setRelays(getRelays())] returns and changes nothing: no record is
    replaced, no websocket is made, and no call goes to any transport. *)
Theorem setRelays_current_is_noop (c : RxNostrImpl) :
  consistent c →
  (∀ u, u ∈ Map_keys (relays c) → normalizeUrl u = Normal u) →
  setRelays normalizeUrl (FromArray (map OfRelay (getRelays c))) c = (Normal (), c).
Proof.
  intros Hc Hfix.
  pose proof (getNextRelayState_current (relays c) c Hc Hfix
                (fun x H => H) (ok_keys c Hc)) as EG.
  rewrite <- getRelays_relayOf in EG.
  destruct (setRelays_normal_form normalizeUrl _ c _ _ Hc EG)
    as (c1 & rs & ES & HF2 & E).
  rewrite E. rewrite !subtract_self in *.
  simpl in ES. injection ES as <-. inversion HF2; subst. simpl.
  by rewrite !registryPass_nil, with_relays_same.
Qed.

(** X4.  In a consistent client whose urls [normalizeUrl] leaves as they
    are, [addRelay(relay)] throws what the normalizer throws on the url of
    [relay], and then changes nothing.  When the normalizer returns, the call
    returns and the pool is the previous one with [set] applied at the
    normalized url of [relay]: a url already there keeps its place and takes
    the new flags, a new url goes last, and every other record is the one it
    was.  [hasRelay] answers [true] for that url afterwards. *)
Theorem addRelay_sets_one_record (relay : UrlOrRelay) (c : RxNostrImpl) :
  consistent c →
  (∀ u, u ∈ Map_keys (relays c) → normalizeUrl u = Normal u) →
  match normalizeRelay normalizeUrl relay with
  | Normal nr =>
      ∃ r c',
        addRelay normalizeUrl relay c = (Normal (), c')
        ∧ relays c' = Map_set (r_url nr) r (relays c)
        ∧ relayOf r = nr
        ∧ hasRelay (r_url nr) c' = true
  | Threw e => addRelay normalizeUrl relay c = (Threw e, c)
  end.
Proof.
  intros Hc Hfix. unfold addRelay.
  set (input := FromArray (map OfRelay (getRelays c) ++ [relay])).
  assert (inputRelays normalizeUrl input
          = match normalizeRelay normalizeUrl relay with
            | Normal nr => Normal ((relayOf <$> Map_values (relays c)) ++ [nr])
            | Threw e => Threw e
            end) as EI.
  { unfold input, inputRelays.
    rewrite normalizeRelays_app, getRelays_relayOf,
      (normalizeRelay_relayOf normalizeUrl _ (fixed_urls normalizeUrl c Hc Hfix)).
    simpl. by destruct (normalizeRelay normalizeUrl relay). }
  destruct (normalizeRelay normalizeUrl relay) as [nr|e].
  2:{ unfold setRelays, getNextRelayState. by rewrite EI. }
  assert (getNextRelayState normalizeUrl (relays c) input c
          = Normal (nextRelayState_step (relays c) (relays c, c) nr)) as EG.
  { unfold getNextRelayState. rewrite EI. f_equal.
    unfold nextRelayState_loop. rewrite fold_left_app.
    pose proof (nextRelayState_rebuild (relays c) (relays c) [] c
                  (consistent_entries c (relays c) Hc (fun x H => H))
                  (ok_keys c Hc)) as ER.
    simpl in ER. by rewrite ER. }
  clearbody input.
  destruct (nextRelayState_step (relays c) (relays c, c) nr) as [next c0] eqn:Es.
  destruct (setRelays_normal_form normalizeUrl input c next c0 Hc EG)
    as (c1 & rs & _ & _ & E).
  assert (∃ r, next = Map_set (r_url nr) r (relays c) ∧ relayOf r = nr) as (r & -> & Hr).
  { unfold nextRelayState_step in Es.
    destruct (Map_get (r_url nr) (relays c)); simpl in Es; injection Es as <- _;
      eexists; (split; [reflexivity|by destruct nr]). }
  eexists r, _. split; [exact E|]. split_and!; [done..|].
  apply hasRelay_elem. exists r. split.
  - simpl. apply Map_values_elem_of. exists (r_url nr).
    apply Map_get_Some. by rewrite Map_get_set, String.eqb_refl.
  - by rewrite <- Hr.
Qed.


End PoolRoundTrips.

(** ** Sample runs of the pool *)

Lemma asGiven_fixed (c : RxNostrImpl) u :
  u ∈ Map_keys (relays c) → asGiven u = Normal u.
Proof. done. Qed.


Lemma setRelays_lifecycle_calls_witness :
  let c := impl sampleClient in
  let c' := (setRelays asGiven sampleRelaysBothRead c).2 in
  let prevR := getReadableUrls (Map_values (relays c)) in
  let nextR := getReadableUrls (Map_values (relays c')) in
  ∃ t stopped started gone,
    calls c' = calls c ++ t
    ∧ Forall2 (fun u r => Map_get u (relays c) = Some r)
              (subtract prevR nextR) stopped
    ∧ Forall2 (fun u r => Map_get u (relays c') = Some r)
              (subtract nextR prevR) started
    ∧ Forall2 (fun u r => Map_get u (relays c) = Some r)
              (subtract (Map_keys (relays c)) (Map_keys (relays c'))) gone
    ∧ lifecycleCalls t
      = ((fun r => WsStop (websocket r)) <$> stopped)
        ++ ((fun r => WsStart (websocket r)) <$> started)
        ++ ((fun r => WsDispose (websocket r)) <$> gone).
Proof.
  apply (setRelays_lifecycle_calls asGiven sampleRelaysBothRead (impl sampleClient)).
  exact sampleClient_consistent.
Defined.

(** A third relay joins the first of the sample, and the record it gets. *)
Definition sampleRelaysThird : RelaysInput :=
  FromArray [OfUrl "wss://a.example"; OfUrl "wss://c.example"].

Definition sampleThird : RelayState :=
  {| url := "wss://c.example"; read := true; write := true;
     activeSubIds := 2; websocket := 2 |}.

Lemma setRelays_keeps_transports_witness :
  let c := impl sampleClient in
  let c' := (setRelays asGiven sampleRelaysThird c).2 in
  Map_get "wss://c.example" (relays c') = Some sampleThird
  ∧ match Map_get "wss://c.example" (relays c) with
    | Some p => websocket sampleThird = websocket p
                ∧ activeSubIds sampleThird = activeSubIds p
    | None =>
        length (sockets c) ≤ websocket sampleThird
        ∧ length (sets c) ≤ activeSubIds sampleThird
        ∧ ws_url <$> sockets c' !! websocket sampleThird = Some "wss://c.example"
    end.
Proof.
  split; [reflexivity|].
  apply (setRelays_keeps_transports asGiven sampleRelaysThird
           (impl sampleClient) "wss://c.example" sampleThird).
  - exact sampleClient_consistent.
  - reflexivity.
Defined.

Lemma setRelays_current_is_noop_witness :
  setRelays asGiven (FromArray (map OfRelay (getRelays (impl sampleClient))))
            (impl sampleClient)
  = (Normal (), impl sampleClient).
Proof.
  apply (setRelays_current_is_noop asGiven (impl sampleClient)).
  - exact sampleClient_consistent.
  - apply asGiven_fixed.
Defined.

Lemma trimmed_fixed u :
  u ∈ Map_keys (relays (impl sampleClient)) → trimmed u = Normal u.
Proof.
  intros Hu. apply elem_of_cons in Hu as [->|Hu]; [done|].
  apply elem_of_cons in Hu as [->|Hu]; [done|]. by apply elem_of_nil in Hu.
Qed.

Lemma addRelay_sets_one_record_witness :
  match normalizeRelay trimmed (OfUrl " wss://c.example") with
  | Normal nr =>
      ∃ r c',
        addRelay trimmed (OfUrl " wss://c.example") (impl sampleClient)
        = (Normal (), c')
        ∧ relays c' = Map_set (r_url nr) r (relays (impl sampleClient))
        ∧ relayOf r = nr
        ∧ hasRelay (r_url nr) c' = true
  | Threw e =>
      addRelay trimmed (OfUrl " wss://c.example") (impl sampleClient)
      = (Threw e, impl sampleClient)
  end
  ∧ match normalizeRelay trimmed (OfUrl "") with
    | Normal nr =>
        ∃ r c',
          addRelay trimmed (OfUrl "") (impl sampleClient) = (Normal (), c')
          ∧ relays c' = Map_set (r_url nr) r (relays (impl sampleClient))
          ∧ relayOf r = nr
          ∧ hasRelay (r_url nr) c' = true
    | Threw e =>
        addRelay trimmed (OfUrl "") (impl sampleClient)
        = (Threw e, impl sampleClient)
    end.
Proof.
  split.
  - apply (addRelay_sets_one_record trimmed (OfUrl " wss://c.example")
             (impl sampleClient)).
    + exact sampleClient_consistent.
    + exact trimmed_fixed.
  - apply (addRelay_sets_one_record trimmed (OfUrl "") (impl sampleClient)).
    + exact sampleClient_consistent.
    + exact trimmed_fixed.
Defined.


(** ** [finalizeReq({ subId })]: who is sent a CLOSE *)

Definition closeTo (subId : string) (relay : RelayState) : Call :=
  WsSend (websocket relay) (CLOSE subId).

Lemma includes_put_delete relay c subId r s :
  includes s (subIds (put_subIds (activeSubIds relay)
                        (Set_delete subId (subIds c (activeSubIds relay))) c)
                     (activeSubIds r))
  = includes s (subIds c (activeSubIds r))
    && negb (bool_decide (activeSubIds r = activeSubIds relay)
             && String.eqb subId s).
Proof.
  rewrite subIds_put_subIds. case_decide as Hd.
  - destruct Hd as [-> Hlt]. rewrite bool_decide_eq_true_2 by done.
    simpl. apply includes_Set_delete_eq.
  - destruct (decide (activeSubIds r = activeSubIds relay)) as [Heq|Hne].
    + rewrite Heq. unfold subIds. rewrite lookup_ge_None_2; [done|].
      destruct (decide (activeSubIds relay < length (sets c))); [|lia].
      exfalso. apply Hd. by rewrite Heq.
    + rewrite bool_decide_eq_false_2 by done. simpl. by rewrite andb_true_r.
Qed.

(** One subscription id on one relay: a CLOSE when the relay has it, and the
    id leaves the set of the relay. *)
Lemma finalizeReq_subId_effect relay c subId :
  let c' := finalizeReq_subId relay c subId in
  calls c' = calls c ++ (if isActive c relay subId then [closeTo subId relay] else [])
  ∧ ∀ r s, isActive c' r s
           = isActive c r s
             && negb (bool_decide (activeSubIds r = activeSubIds relay)
                      && String.eqb subId s).
Proof.
  unfold finalizeReq_subId, isActive, Set_has. split.
  - destruct (includes subId _); simpl; [done | by rewrite app_nil_r].
  - intros r s. destruct (includes subId (subIds c (activeSubIds relay)));
      exact (includes_put_delete relay c subId r s).
Qed.

Lemma finalizeReq_subId_fold subId rs : ∀ c,
  NoDup (activeSubIds <$> rs) →
  let c' := fold_left (finalizeReq_relay (Some subId)) rs c in
  subId ≠ "" →
  calls c' = calls c
             ++ (closeTo subId <$> List.filter (fun r => isActive c r subId) rs)
  ∧ ∀ r s, isActive c' r s
           = isActive c r s
             && negb (bool_decide (activeSubIds r ∈ activeSubIds <$> rs)
                      && String.eqb subId s).
Proof.
  induction rs as [|relay rs IH]; intros c Hnd c' Hne.
  - subst c'. simpl. rewrite app_nil_r. split; [done|]. intros r s.
    by rewrite andb_true_r.
  - rewrite fmap_cons in Hnd. apply NoDup_cons in Hnd as [Hhd Hnd].
    subst c'. cbn [fold_left].
    assert (finalizeReq_relay (Some subId) c relay
            = finalizeReq_subId relay c subId) as ->.
    { unfold finalizeReq_relay, truthy.
      destruct (String.eqb_spec subId "") as [->|_]; [done|]. done. }
    destruct (finalizeReq_subId_effect relay c subId) as [E1 A1].
    destruct (IH (finalizeReq_subId relay c subId) Hnd Hne) as [E2 A2].
    split.
    + rewrite E2, E1, <- app_assoc. f_equal. cbn [List.filter].
      assert (List.filter (fun r => isActive (finalizeReq_subId relay c subId) r subId) rs
              = List.filter (fun r => isActive c r subId) rs) as ->.
      { apply List.filter_ext_in. intros r Hr%list_elem_of_In. rewrite A1.
        rewrite bool_decide_eq_false_2; [by rewrite andb_true_r|].
        intros Heq. apply Hhd. rewrite <- Heq. by apply list_elem_of_fmap_2. }
      by destruct (isActive c relay subId).
    + intros r s. rewrite A2, A1, <- andb_assoc. f_equal.
      rewrite fmap_cons.
      destruct (decide (activeSubIds r = activeSubIds relay)) as [Heq|Hneq].
      * rewrite (bool_decide_eq_true_2 (activeSubIds r = _)) by done.
        rewrite (bool_decide_eq_true_2 (activeSubIds r ∈ _ :: _))
          by (rewrite Heq; apply elem_of_cons; by left).
        simpl. by destruct (String.eqb subId s), (bool_decide _).
      * rewrite (bool_decide_eq_false_2 (activeSubIds r = _)) by done. simpl.
        apply (f_equal negb), (f_equal (fun b => b && String.eqb subId s)).
        apply bool_decide_ext. rewrite elem_of_cons. tauto.
Qed.

(** X6.  [finalizeReq({ subId })] for a non-empty [subId], in a pool where
    no two relays share a set: it returns; a CLOSE for [subId] goes to the
    relays that have it among their active subscription ids, in the order
    of the pool, and to no other; afterwards no relay has it, and every
    other subscription id is where it was. *)
Theorem finalizeReq_closes_holders (subId : string) (c : RxNostrImpl) :
  subId ≠ "" →
  NoDup (activeSubIds <$> Map_values (relays c)) →
  ∃ c',
    finalizeReq {| fp_subId := Some subId; fp_url := None |} c = (Normal (), c')
    ∧ calls c' = calls c
                 ++ (closeTo subId <$>
                       List.filter (fun r => isActive c r subId)
                                   (Map_values (relays c)))
    ∧ (∀ r, r ∈ Map_values (relays c) → isActive c' r subId = false)
    ∧ (∀ r s, s ≠ subId → isActive c' r s = isActive c r s)
    ∧ relays c' = relays c.
Proof.
  intros Hne Hnd. unfold finalizeReq. simpl. unfold run.
  eexists. split; [reflexivity|].
  destruct (finalizeReq_subId_fold subId (Map_values (relays c)) c Hnd Hne)
    as [E A].
  split_and!; [exact E| | |].
  - intros r Hr. rewrite A, String.eqb_refl, bool_decide_eq_true_2.
    + by rewrite andb_false_r.
    + by apply list_elem_of_fmap_2.
  - intros r s Hs. rewrite A.
    destruct (String.eqb_spec subId s) as [->|_]; [done|].
    by rewrite andb_false_r, andb_true_r.
  - apply (sh_relays _ _ (shrinks_fold _ _ _
             (fun c' r => finalizeReq_relay_shrinks (Some subId) c' r))).
Qed.

Lemma finalizeReq_closes_holders_witness :
  ∃ c',
    finalizeReq {| fp_subId := Some "sub:0"; fp_url := None |} (impl sampleClient)
    = (Normal (), c')
    ∧ calls c' = calls (impl sampleClient)
                 ++ (closeTo "sub:0" <$>
                       List.filter (fun r => isActive (impl sampleClient) r "sub:0")
                                   (Map_values (relays (impl sampleClient))))
    ∧ (∀ r, r ∈ Map_values (relays (impl sampleClient)) →
            isActive c' r "sub:0" = false)
    ∧ (∀ r s, s ≠ "sub:0" → isActive c' r s = isActive (impl sampleClient) r s)
    ∧ relays c' = relays (impl sampleClient).
Proof.
  apply (finalizeReq_closes_holders "sub:0" (impl sampleClient)).
  - discriminate.
  - by_computation.
Defined.

(** ** Subscription ids *)

Lemma append_inj_r (a b b' : string) : a +:+ b = a +:+ b' → b = b'.
Proof.
  induction a as [|x a IH]; simpl; [done|]. intros [= H]. by apply IH.
Qed.

Lemma makeSubId_nonempty rxReqId index : makeSubId rxReqId index ≠ "".
Proof.
  unfold makeSubId. destruct rxReqId; simpl; discriminate.
Qed.

(** X7.  [makeSubId] gives different subscription ids for different
    indices under one [rxReqId], so the REQs a backward request issues are
    told apart; and without an index it gives the id of index 0, the one
    id the forward and oneshot strategies use. *)
Theorem makeSubId_injective (rxReqId : string) (i j : nat) :
  i ≠ j →
  makeSubId rxReqId (Some i) ≠ makeSubId rxReqId (Some j)
  ∧ makeSubId rxReqId None = makeSubId rxReqId (Some 0).
Proof.
  intros Hij. split; [|done]. unfold makeSubId. simpl.
  intros H%append_inj_r%append_inj_r.
  apply Hij, DecimalNat.Unsigned.to_uint_inj.
  pose proof (NilEmpty.usu (Nat.to_uint i)) as Hi.
  pose proof (NilEmpty.usu (Nat.to_uint j)) as Hj.
  rewrite H in Hi. congruence.
Qed.

Lemma string_of_index_inj (i j : nat) :
  NilEmpty.string_of_uint (Nat.to_uint i) = NilEmpty.string_of_uint (Nat.to_uint j) →
  i = j.
Proof.
  intros H. apply DecimalNat.Unsigned.to_uint_inj.
  pose proof (NilEmpty.usu (Nat.to_uint i)) as Hi.
  pose proof (NilEmpty.usu (Nat.to_uint j)) as Hj.
  rewrite H in Hi. congruence.
Qed.

Lemma makeSubId_injective_witness :
  makeSubId "sub" (Some 9) ≠ makeSubId "sub" (Some 10)
  ∧ makeSubId "sub" None = makeSubId "sub" (Some 0).
Proof. apply (makeSubId_injective "sub" 9 10). lia. Defined.

(** ** The end of a forward subscription *)

Lemma Map_get_delete {V} k (m : list (string * V)) :
  NoDup (Map_keys m) → Map_get k (Map_delete k m) = None.
Proof.
  unfold Map_keys. induction m as [|[k' v] m IH]; [done|].
  rewrite fmap_cons. intros [Hk Hnd]%NoDup_cons. simpl in *.
  destruct (String.eqb_spec k k') as [->|Hne].
  - by apply Map_get_None.
  - simpl. rewrite (proj2 (String.eqb_neq _ _) Hne). by apply IH.
Qed.

(** X8.  The caller unsubscribes a live forward stream of a consistent
    client: a CLOSE for its subscription id goes to the relays that have
    the id, and to no other; the REQ leaves the registry, so no later change
    of the pool sends it again; no relay has the id afterwards; nothing is
    delivered to the stream, and unsubscribing again does nothing. *)
Theorem unsubscribe_forward_closes (k : Client) (u : nat) (x : Use) :
  consistent (impl k) →
  uses k !! u = Some x → u_strategy x = forward → u_live x = true →
  let subId := makeSubId (u_rxReqId x) None in
  let k' := unsubscribe u k in
  calls (impl k')
  = calls (impl k)
    ++ (closeTo subId <$> List.filter (fun r => isActive (impl k) r subId)
                                      (Map_values (relays (impl k))))
  ∧ Map_get subId (activeReqs (impl k')) = None
  ∧ (∀ r, r ∈ Map_values (relays (impl k')) → isActive (impl k') r subId = false)
  ∧ events k' = events k
  ∧ unsubscribe u k' = k'.
Proof.
  intros Hc Hu Hs Hl subId k'.
  set (c' := fold_left (finalizeReq_relay (Some subId))
               (Map_values (relays (impl k))) (forgetActiveReq subId (impl k))).
  assert (finalizeReq {| fp_subId := Some subId; fp_url := None |}
            (forgetActiveReq subId (impl k)) = (Normal (), c')) as E by done.
  destruct (finalizeReq_subId_fold subId (Map_values (relays (impl k)))
              (forgetActiveReq subId (impl k)) (ok_sets _ Hc)
              (makeSubId_nonempty _ _)) as [Ecalls A].
  fold c' in Ecalls, A.
  assert (k' = with_impl c' (set_use_live u false false k)) as Hk'.
  { subst k'. unfold unsubscribe. rewrite Hu, Hl, Hs.
    unfold on_impl, exec. rewrite set_use_live_impl. fold subId. by rewrite E. }
  pose proof (finalizeReq_shrinks {| fp_subId := Some subId; fp_url := None |}
                (forgetActiveReq subId (impl k))) as S.
  rewrite E in S. simpl in S.
  rewrite Hk'. simpl. split_and!.
  - exact Ecalls.
  - rewrite (sh_reqs _ _ S). simpl. apply Map_get_delete, (ok_reqs_keys _ Hc).
  - intros r Hr. rewrite (sh_relays _ _ S) in Hr. simpl in Hr.
    rewrite A, String.eqb_refl, bool_decide_eq_true_2.
    + by rewrite andb_false_r.
    + by apply list_elem_of_fmap_2.
  - apply set_use_live_events.
  - unfold unsubscribe. simpl. unfold set_use_live. rewrite Hu. simpl.
    rewrite list_lookup_insert_eq by (by eapply lookup_lt_Some). done.
Qed.

Lemma unsubscribe_forward_closes_witness :
  let subId := makeSubId "sub" None in
  let k' := unsubscribe 0 sampleClient in
  calls (impl k')
  = calls (impl sampleClient)
    ++ (closeTo subId <$> List.filter (fun r => isActive (impl sampleClient) r subId)
                                      (Map_values (relays (impl sampleClient))))
  ∧ Map_get subId (activeReqs (impl k')) = None
  ∧ (∀ r, r ∈ Map_values (relays (impl k')) → isActive (impl k') r subId = false)
  ∧ events k' = events sampleClient
  ∧ unsubscribe 0 k' = k'.
Proof.
  apply (unsubscribe_forward_closes sampleClient 0
           {| u_strategy := forward; u_rxReqId := "sub"; u_index := 1;
              u_source := true; u_live := true |}).
  - exact sampleClient_consistent.
  - reflexivity.
  - reflexivity.
  - reflexivity.
Defined.

(** ** Sample runs of the engine *)

Lemma reachable_consistent_witness :
  consistent
    (impl (req_next 0 (Some [sampleFilter])
             (use forward "sub"
                (on_impl (exec (setRelays asGiven sampleRelays))
                         (newClient defaultRxNostrOptions))).2)).
Proof.
  apply reachable_consistent.
  apply reach_req_next, reach_use, reach_setRelays, reach_new.
Defined.

Lemma transports_never_error_witness :
  (∀ message, emits notError sampleBackward (on_message 0 message sampleBackward))
  ∧ (∀ st, emits notError sampleBackward (on_state 0 st sampleBackward))
  ∧ (∀ reason, events (on_impl (on_error 0 reason) sampleBackward)
               = events sampleBackward).
Proof.
  apply (transports_never_error sampleBackward 0).
  intros s Hs. vm_compute in Hs. injection Hs as <-. by_computation.
Defined.

(** ** EOSE at an inner stream *)

Lemma finalize_inner_streams j k :
  events (finalize_inner j k) = events k ∧ uses (finalize_inner j k) = uses k.
Proof.
  unfold finalize_inner, set_inner. destruct (inners k !! j) as [x|] eqn:E; [|done].
  by destruct (i_live x).
Qed.

Lemma teardown_inners_streams u k :
  events (teardown_inners u k) = events k ∧ uses (teardown_inners u k) = uses k.
Proof.
  unfold teardown_inners. generalize (seq 0 (length (inners k))) as js.
  intros js. revert k. induction js as [|j js IH]; intros k; simpl; [done|].
  destruct (IH (match inners k !! j with
                | Some x => if (i_use x =? u)%nat then finalize_inner j k else k
                | None => k
                end)) as [-> ->].
  destruct (inners k !! j) as [x|]; [|done].
  destruct (_ =? _)%nat; [apply finalize_inner_streams | done].
Qed.

(** X11.  An EOSE for a live inner stream, from a non-empty url that is
    not in the pool (a relay removed since) and has not sent EOSE before:
    the lookup of the relay in [finalizeReq] fails inside the stream's
    [tap], and the stream of [use()] the inner stream belongs to gets an
    error and is ended. *)
Theorem eose_from_unknown_relay (k : Client) (i : nat) (x : Inner) (from : string) :
  inners k !! i = Some x → i_live x = true →
  from ∉ Map_keys (relays (impl k)) → from ≠ "" → from ∉ eoseRelays x →
  let k' := inner_on_message i {| mp_from := from;
                                  mp_message := InEOSE (i_subId x) |} k in
  (∃ e, events k' = events k ++ [(i_use x, Error e)])
  ∧ (∀ y, uses k' !! i_use x = Some y → u_live y = false).
Proof.
  intros Hi Hl Hfrom Hne Hnot k'. subst k'.
  unfold inner_on_message. rewrite Hi, Hl.
  unfold filterBySubId. simpl. rewrite String.eqb_refl.
  unfold Set_has. rewrite (proj2 (includes_false _ _) Hnot). simpl.
  unfold finalizeReq. simpl.
  rewrite (proj2 (String.eqb_neq _ _) Hne). simpl.
  unfold bind. simpl. rewrite set_inner_impl.
  rewrite (proj2 (Map_get_None _ _) Hfrom). simpl.
  unfold fail_use.
  destruct (teardown_inners_streams (i_use x)
              (set_use_live (i_use x) false false
                 (emit_event (i_use x) (Error "unnull")
                    (with_impl (impl k) (set_inner i (Set_add from (eoseRelays x)) true k)))))
    as [-> ->].
  rewrite set_use_live_events. simpl. rewrite set_inner_events. split.
  - by eexists.
  - unfold set_use_live. simpl.
    assert (uses (set_inner i (Set_add from (eoseRelays x)) true k) = uses k) as ->
      by (unfold set_inner; by rewrite Hi).
    simpl. destruct (uses k !! i_use x) as [ux|] eqn:Hu; simpl.
    + intros y. rewrite list_lookup_insert_eq by (by eapply lookup_lt_Some).
      by intros [= <-].
    + intros y. unfold set_inner. rewrite Hi. simpl. by rewrite Hu.
Qed.

Lemma eose_from_unknown_relay_witness :
  let k' := inner_on_message 0 {| mp_from := "wss://gone.example";
                                  mp_message := InEOSE "sub:0" |} sampleBackward in
  (∃ e, events k' = events sampleBackward ++ [(0, Error e)])
  ∧ (∀ y, uses k' !! 0 = Some y → u_live y = false).
Proof.
  apply (eose_from_unknown_relay sampleBackward 0
           {| i_use := 0; i_subId := "sub:0"; eoseRelays := []; i_live := true |}
           "wss://gone.example").
  - reflexivity.
  - reflexivity.
  - by_computation.
  - discriminate.
  - by_computation.
Defined.

Lemma finalizeReq_at subId from relay c :
  subId ≠ "" → from ≠ "" → Map_get from (relays c) = Some relay →
  finalizeReq {| fp_subId := Some subId; fp_url := Some from |} c
  = (Normal (), finalizeReq_subId relay c subId).
Proof.
  intros Hs Hf Hg. unfold finalizeReq. simpl.
  rewrite (proj2 (String.eqb_neq _ _) Hf). simpl.
  unfold bind, run. simpl. rewrite Hg. simpl.
  unfold finalizeReq_relay, truthy. by rewrite (proj2 (String.eqb_neq _ _) Hs).
Qed.

Lemma complete_inner_appends i k :
  appends isCloseSend (impl k) (impl (complete_inner i k)).
Proof.
  unfold complete_inner. destruct (inners k !! i) as [x|]; [|by apply appends_refl].
  destruct (i_live x); [|by apply appends_refl]. simpl.
  rewrite <- (set_inner_impl i (eoseRelays x) false k) at 1.
  rewrite <- (settle_impl (i_use x) (set_inner i (eoseRelays x) false k)) at 1.
  apply finalizeReq_appends.
Qed.

Lemma manageCompletion_appends i k :
  appends isCloseSend (impl k) (impl (manageCompletion i k)).
Proof.
  unfold manageCompletion. destruct (inners k !! i) as [x|]; [|by apply appends_refl].
  destruct (i_live x); [|by apply appends_refl].
  destruct (getAllRelayState (impl k)); [|by apply appends_refl].
  destruct (shouldComplete _ _); [apply complete_inner_appends | by apply appends_refl].
Qed.

(** X12.  An EOSE for a live inner stream of a consistent client, from a
    relay of the pool that has not sent one before (its url and the
    subscription id not empty): the relay is sent a CLOSE for the
    subscription when it has it, and any call that follows is a CLOSE too;
    the relay does not have the subscription afterwards; and the stream
    takes nothing more from that relay, whatever it sends. *)
Theorem eose_closes_and_mutes (k : Client) (i : nat) (x : Inner)
    (from : string) (relay : RelayState) :
  consistent (impl k) →
  inners k !! i = Some x → i_live x = true →
  Map_get from (relays (impl k)) = Some relay →
  from ≠ "" → i_subId x ≠ "" → from ∉ eoseRelays x →
  let k' := inner_on_message i {| mp_from := from;
                                  mp_message := InEOSE (i_subId x) |} k in
  (∃ t, calls (impl k')
        = calls (impl k)
          ++ (if isActive (impl k) relay (i_subId x)
              then [closeTo (i_subId x) relay] else [])
          ++ t
        ∧ Forall isCloseSend t)
  ∧ isActive (impl k') relay (i_subId x) = false
  ∧ ∀ message,
      inner_on_message i {| mp_from := from; mp_message := message |} k' = k'.
Proof.
  intros Hc Hi Hl Hg Hfrom Hsub Hnot k'.
  destruct (finalizeReq_subId_effect relay (impl k) (i_subId x)) as [E1 A1].
  pose proof (finalizeReq_subId_shrinks relay (impl k) (i_subId x)) as S.
  set (c1 := finalizeReq_subId relay (impl k) (i_subId x)) in *.
  set (k1 := with_impl c1 (set_inner i (Set_add from (eoseRelays x)) true k)).
  assert (k' = manageCompletion i k1) as ->.
  { subst k'. unfold inner_on_message. rewrite Hi, Hl.
    unfold filterBySubId. simpl. rewrite String.eqb_refl.
    unfold Set_has. rewrite (proj2 (includes_false _ _) Hnot). simpl.
    by rewrite set_inner_impl, (finalizeReq_at _ _ _ _ Hsub Hfrom Hg). }
  assert (inners k1 !! i
          = Some {| i_use := i_use x; i_subId := i_subId x;
                    eoseRelays := Set_add from (eoseRelays x); i_live := true |}) as Hi1.
  { subst k1. unfold set_inner. rewrite Hi. simpl.
    apply list_lookup_insert_eq. by eapply lookup_lt_Some. }
  assert (relays (impl k1) = relays (impl k)) as Hr1 by apply (sh_relays _ _ S).
  destruct (manageCompletion_decides i k1 _
              ltac:(rewrite Hr1; apply (ok_keys _ Hc))
              ltac:(rewrite Hr1; apply (ok_url _ Hc))
              Hi1 eq_refl) as (x' & Ex & Ee & _).
  destruct (manageCompletion_appends i k1) as (t & Et & Ft).
  pose proof (manageCompletion_shrinks i k1) as S2.
  split_and!.
  - exists t. split; [|done]. rewrite Et.
    change (calls (impl k1)) with (calls c1). by rewrite E1, <- app_assoc.
  - destruct (isActive (impl (manageCompletion i k1)) relay (i_subId x)) eqn:Ha;
      [|done].
    apply (sh_subIds _ _ S2) in Ha.
    change (isActive c1 relay (i_subId x) = true) in Ha.
    rewrite A1, String.eqb_refl, bool_decide_eq_true_2 in Ha by done.
    by rewrite andb_false_r in Ha.
  - intros message. unfold inner_on_message. rewrite Ex, Ee. simpl.
    unfold Set_has. rewrite includes_Set_add, String.eqb_refl. simpl.
    by rewrite andb_false_r.
Qed.

Lemma eose_closes_and_mutes_witness :
  let relay := {| url := "wss://a.example"; read := true; write := true;
                  activeSubIds := 0; websocket := 0 |} in
  let k' := inner_on_message 0 {| mp_from := "wss://a.example";
                                  mp_message := InEOSE "sub:0" |} sampleBackward in
  (∃ t, calls (impl k')
        = calls (impl sampleBackward)
          ++ (if isActive (impl sampleBackward) relay "sub:0"
              then [closeTo "sub:0" relay] else [])
          ++ t
        ∧ Forall isCloseSend t)
  ∧ isActive (impl k') relay "sub:0" = false
  ∧ ∀ message,
      inner_on_message 0 {| mp_from := "wss://a.example"; mp_message := message |} k'
      = k'.
Proof.
  apply (eose_closes_and_mutes sampleBackward 0
           {| i_use := 0; i_subId := "sub:0"; eoseRelays := []; i_live := true |}
           "wss://a.example"
           {| url := "wss://a.example"; read := true; write := true;
              activeSubIds := 0; websocket := 0 |}).
  - exact sampleBackward_consistent.
  - reflexivity.
  - reflexivity.
  - reflexivity.
  - discriminate.
  - discriminate.
  - by_computation.
Defined.

(** ** The emissions of a forward request *)

Lemma forward_step (k : Client) (u : nat) (x : Use) (fs : list Filter) :
  uses k !! u = Some x → u_strategy x = forward →
  u_live x = true → u_source x = true →
  let req := {| req_subId := makeSubId (u_rxReqId x) None; req_filters := fs |} in
  let k1 := req_next u (Some fs) k in
  uses k1 !! u = Some {| u_strategy := forward; u_rxReqId := u_rxReqId x;
                         u_index := S (u_index x); u_source := true;
                         u_live := true |}
  ∧ relays (impl k1) = relays (impl k)
  ∧ calls (impl k1)
    = calls (impl k) ++ (sendReq req <$> List.filter read (Map_values (relays (impl k))))
  ∧ Map_get (req_subId req) (activeReqs (impl k1)) = Some req
  ∧ events k1 = events k.
Proof.
  intros Hu Hs Hl Hsrc req k1. subst k1.
  unfold req_next. rewrite Hu, Hl, Hsrc, Hs. simpl.
  unfold ensureReqOnNext, ensureReq, attachSubId. rewrite Hs. simpl. fold req.
  destruct (ensureReq_fold_frame req true (Map_values (relays (impl k)))
              (recordActiveReq req (impl k))) as (-> & -> & _).
  rewrite ensureReq_overwrite_calls. simpl.
  rewrite Map_get_set, String.eqb_refl.
  rewrite list_lookup_insert_eq by (by eapply lookup_lt_Some). done.
Qed.

Lemma forward_emissions_run (u : nat) (rxReqId : string) (fss : list (list Filter)) :
  ∀ (k : Client) (x : Use),
  uses k !! u = Some x → u_strategy x = forward → u_rxReqId x = rxReqId →
  u_live x = true → u_source x = true →
  let k' := fold_left (fun k' fs => req_next u (Some fs) k') fss k in
  (∃ x', uses k' !! u = Some x' ∧ u_strategy x' = forward
         ∧ u_rxReqId x' = rxReqId ∧ u_live x' = true ∧ u_source x' = true)
  ∧ relays (impl k') = relays (impl k)
  ∧ calls (impl k')
    = calls (impl k)
      ++ concat ((fun fs => sendReq {| req_subId := makeSubId rxReqId None;
                                       req_filters := fs |}
                              <$> List.filter read (Map_values (relays (impl k))))
                   <$> fss)
  ∧ Map_get (makeSubId rxReqId None) (activeReqs (impl k'))
    = match last fss with
      | Some fs => Some {| req_subId := makeSubId rxReqId None; req_filters := fs |}
      | None => Map_get (makeSubId rxReqId None) (activeReqs (impl k))
      end
  ∧ events k' = events k.
Proof.
  induction fss as [|fs fss IH] using rev_ind; intros k x Hu Hs Hid Hl Hsrc k'.
  - subst k'. simpl. rewrite app_nil_r. split_and!; try done. by exists x.
  - subst k'. rewrite fold_left_app. cbn [fold_left].
    destruct (IH k x Hu Hs Hid Hl Hsrc)
      as ((x' & Hu' & Hs' & Hid' & Hl' & Hsrc') & Hr & Ec & _ & Ee).
    set (ka := fold_left _ fss k) in *.
    destruct (forward_step ka u x' fs Hu' Hs' Hl' Hsrc')
      as (Hu1 & Hr1 & Ec1 & Hg1 & Ee1).
    rewrite Hid' in *.
    split_and!.
    + eexists. split; [exact Hu1|done].
    + by rewrite Hr1.
    + rewrite Ec1, Ec, Hr, fmap_app, concat_app. simpl.
      by rewrite app_nil_r, <- app_assoc.
    + by rewrite last_snoc.
    + by rewrite Ee1.
Qed.

(** X13.  The emissions of a forward request, for a live stream of
    [use()]: each list of filters is sent as a REQ to every readable relay
    of the pool, in the order of the emissions and of the pool, always under
    the one subscription id of the request; the registry holds the REQ of
    the last emission; the stream gets nothing by that; and an emission of
    [null] is passed over. *)
Theorem forward_emissions (k : Client) (u : nat) (x : Use)
    (fss : list (list Filter)) :
  uses k !! u = Some x → u_strategy x = forward →
  u_live x = true → u_source x = true →
  let subId := makeSubId (u_rxReqId x) None in
  let k' := fold_left (fun k' fs => req_next u (Some fs) k') fss k in
  calls (impl k')
  = calls (impl k)
    ++ concat ((fun fs => sendReq {| req_subId := subId; req_filters := fs |}
                            <$> List.filter read (Map_values (relays (impl k))))
                 <$> fss)
  ∧ Map_get subId (activeReqs (impl k'))
    = match last fss with
      | Some fs => Some {| req_subId := subId; req_filters := fs |}
      | None => Map_get subId (activeReqs (impl k))
      end
  ∧ events k' = events k
  ∧ req_next u None k' = k'.
Proof.
  intros Hu Hs Hl Hsrc subId k'.
  destruct (forward_emissions_run u (u_rxReqId x) fss k x Hu Hs eq_refl Hl Hsrc)
    as (_ & _ & Ec & Hg & Ee).
  split_and!; [exact Ec | exact Hg | exact Ee |].
  unfold req_next. by destruct (uses k' !! u).
Qed.

Lemma forward_emissions_witness :
  let k := sampleClient in
  let subId := makeSubId "sub" None in
  let k' := fold_left (fun k' fs => req_next 0 (Some fs) k') [[]; [sampleFilter]] k in
  calls (impl k')
  = calls (impl k)
    ++ concat ((fun fs => sendReq {| req_subId := subId; req_filters := fs |}
                            <$> List.filter read (Map_values (relays (impl k))))
                 <$> [[]; [sampleFilter]])
  ∧ Map_get subId (activeReqs (impl k'))
    = match last [[]; [sampleFilter]] with
      | Some fs => Some {| req_subId := subId; req_filters := fs |}
      | None => Map_get subId (activeReqs (impl k))
      end
  ∧ events k' = events k
  ∧ req_next 0 None k' = k'.
Proof.
  apply (forward_emissions sampleClient 0
           {| u_strategy := forward; u_rxReqId := "sub"; u_index := 1;
              u_source := true; u_live := true |} [[]; [sampleFilter]]);
    reflexivity.
Defined.

(** ** The frames of a publication *)

Definition eventTo (event : Event) (relay : RelayState) : Call :=
  WsSend (websocket relay) (EVENT event).

Lemma send_event_fold event (rs : list RelayState) : ∀ c,
  (∀ r, r ∈ rs → Map_get (url r) (relays c) = Some r) →
  calls (fold_left (send_event event) (url <$> rs) c)
  = calls c ++ (eventTo event <$> rs).
Proof.
  induction rs as [|r rs IH]; intros c Hrs.
  - simpl. by rewrite app_nil_r.
  - rewrite !fmap_cons. cbn [fold_left]. unfold send_event at 2.
    rewrite (Hrs r) by (apply elem_of_cons; by left).
    rewrite IH.
    + simpl. by rewrite <- app_assoc.
    + intros r' Hr'. simpl. apply Hrs, elem_of_cons. by right.
Qed.

(** X14.  [send()] in a consistent client, once the event is signed: the
    EVENT frame goes to every relay that was writable when [send] was
    called, once each and in the order of the pool, and to no other relay;
    the pool itself is not changed. *)
Theorem send_reaches_writable (k : Client) (event : Event) :
  consistent (impl k) →
  let k' := send_then (send k).1 event (send k).2 in
  calls (impl k')
  = calls (impl k)
    ++ (eventTo event <$> List.filter write (Map_values (relays (impl k))))
  ∧ relays (impl k') = relays (impl k).
Proof.
  intros Hc. cbv zeta. unfold send. cbn [fst snd].
  set (urls := getWritableUrls (Map_values (relays (impl k)))).
  assert (∀ c, relays c = relays (impl k) →
               calls (fold_left (send_event event) urls c)
               = calls c ++ (eventTo event
                               <$> List.filter write (Map_values (relays (impl k))))
               ∧ relays (fold_left (send_event event) urls c) = relays (impl k))
    as Hsend.
  { intros c Hr. split.
    - apply send_event_fold. intros r [Hr' _]%elem_of_List_filter.
      apply Map_values_elem_of in Hr' as [u Hin]. rewrite Hr.
      pose proof (proj1 (Forall_forall _ _) (ok_url _ Hc) _ Hin) as Hurl.
      simpl in Hurl. rewrite Hurl.
      by apply Map_get_elem_of; [apply (ok_keys _ Hc)|].
    - rewrite <- Hr. generalize urls. intros l. revert c Hr.
      induction l as [|v l IH]; intros c Hr; [done|]. cbn [fold_left].
      rewrite IH.
      + unfold send_event. by destruct (Map_get v (relays c)).
      + unfold send_event. by destruct (Map_get v (relays c)). }
  destruct (length urls =? 0)%nat.
  - unfold finalize_pub, emit_ok, send_then, set_pub. simpl.
    rewrite lookup_app_r, Nat.sub_diag by done. simpl.
    rewrite list_lookup_insert_eq by (rewrite length_app; simpl; lia).
    simpl. by apply Hsend.
  - unfold send_then, set_pub. simpl.
    rewrite lookup_app_r, Nat.sub_diag by done. simpl. by apply Hsend.
Qed.

Lemma send_reaches_writable_witness :
  let k' := send_then (send sampleClient).1 sampleEvent (send sampleClient).2 in
  calls (impl k')
  = calls (impl sampleClient)
    ++ (eventTo sampleEvent
          <$> List.filter write (Map_values (relays (impl sampleClient))))
  ∧ relays (impl k') = relays (impl sampleClient).
Proof.
  apply (send_reaches_writable sampleClient sampleEvent).
  exact sampleClient_consistent.
Defined.

(** ** The retries of a websocket *)

(** The errors of the websocket [w], one after the other. *)
Definition on_errors (w : nat) (reasons : list string) (c : RxNostrImpl)
    : RxNostrImpl :=
  fold_left (fun c' reason => on_error w reason c') reasons c.

Lemma on_errors_within_budget w (reasons : list string) : ∀ c s,
  sockets c !! w = Some s → ws_piped s = true →
  ws_soFar s + length reasons ≤ retry (options c) →
  let c' := on_errors w reasons c in
  errors c' = errors c ∧ sets c' = sets c ∧ relays c' = relays c
  ∧ options c' = options c ∧ error_stopped c' = error_stopped c
  ∧ calls c' = calls c
  ∧ sockets c' !! w = Some {| ws_url := ws_url s; ws_state := ws_state s;
                              ws_soFar := ws_soFar s + length reasons;
                              ws_piped := true |}.
Proof.
  induction reasons as [|reason reasons IH]; intros c s Hs Hp Hle c'.
  - subst c'. simpl. rewrite Nat.add_0_r. split_and!; try done.
    rewrite Hs. f_equal. destruct s. simpl in *. by subst.
  - subst c'. simpl in Hle.
    change (on_errors w (reason :: reasons) c)
      with (on_errors w reasons (on_error w reason c)).
    assert (on_error w reason c
            = set_socket w {| ws_url := ws_url s; ws_state := ws_state s;
                              ws_soFar := S (ws_soFar s); ws_piped := true |} c) as ->.
    { unfold on_error. rewrite Hs, Hp.
      by rewrite (proj2 (Nat.ltb_lt _ _)) by lia. }
    set (s1 := {| ws_url := ws_url s; ws_state := ws_state s;
                  ws_soFar := S (ws_soFar s); ws_piped := true |}).
    destruct (IH (set_socket w s1 c) s1) as (-> & -> & -> & -> & -> & -> & Hw).
    + simpl. apply list_lookup_insert_eq. by eapply lookup_lt_Some.
    + done.
    + simpl. lia.
    + split_and!; try done. rewrite Hw. simpl. do 2 f_equal. lia.
Qed.

(** X15.  A websocket that has not failed before, while [error$] is not
    completed: the first [options.retry] errors of its message stream emit
    nothing on [error$], take no subscription id from any relay and make no
    call; the error after them emits exactly one packet, with the url of the
    websocket and the reason of that last error. *)
Theorem retry_budget (c : RxNostrImpl) (w : nat) (s : Socket)
    (reasons : list string) (reason : string) :
  sockets c !! w = Some s → ws_piped s = true → ws_soFar s = 0 →
  error_stopped c = false →
  length reasons = retry (options c) →
  errors (on_errors w reasons c) = errors c
  ∧ sets (on_errors w reasons c) = sets c
  ∧ calls (on_errors w reasons c) = calls c
  ∧ errors (on_errors w (reasons ++ [reason]) c)
    = errors c ++ [{| err_from := ws_url s; err_reason := reason |}].
Proof.
  intros Hs Hp H0 He Hlen.
  destruct (on_errors_within_budget w reasons c s Hs Hp)
    as (E1 & E2 & E3 & E4 & E5 & E6 & Hw); [lia|].
  split_and!; [done..|].
  unfold on_errors in *. rewrite fold_left_app. cbn [fold_left].
  set (c1 := fold_left _ reasons c) in *.
  unfold on_error. rewrite Hw. simpl.
  rewrite E4, (proj2 (Nat.ltb_ge _ _)) by lia.
  assert (∀ c2, errors c2 = errors c1 → error_stopped c2 = error_stopped c1 →
                errors (set_socket w
                          {| ws_url := ws_url s; ws_state := ws_state s;
                             ws_soFar := ws_soFar s + length reasons;
                             ws_piped := false |}
                          (if error_stopped c2 then c2
                           else with_errors
                                  (errors c2 ++ [{| err_from := ws_url s;
                                                   err_reason := reason |}]) c2))
                = errors c ++ [{| err_from := ws_url s; err_reason := reason |}])
    as Hfin.
  { intros c2 H1 H2. rewrite H2, E5, He. simpl. by rewrite H1, E1. }
  destruct (Map_get (ws_url s) (relays c1)); by apply Hfin.
Qed.

Lemma retry_budget_witness :
  let c := impl sampleClient in
  let reasons := replicate 10 "closed" in
  errors (on_errors 0 reasons c) = errors c
  ∧ sets (on_errors 0 reasons c) = sets c
  ∧ calls (on_errors 0 reasons c) = calls c
  ∧ errors (on_errors 0 (reasons ++ ["gone"]) c)
    = errors c ++ [{| err_from := ws_url (newSocket "wss://a.example");
                      err_reason := "gone" |}].
Proof.
  apply (retry_budget (impl sampleClient) 0 (newSocket "wss://a.example")
           (replicate 10 "closed") "gone"); reflexivity.
Defined.

(** ** The state queries *)

Lemma Map_get_relayStatus c (m : list (string * RelayState)) u :
  Forall (fun e : string * RelayState => url e.2 = e.1) m →
  Map_get u (relayStatus c <$> Map_values m)
  = (fun r => socket_state c (websocket r)) <$> Map_get u m.
Proof.
  unfold Map_values. induction 1 as [|[k r] m Hk _ IH]; [done|].
  simpl in Hk. rewrite !fmap_cons. cbn [Map_get relayStatus snd fst].
  rewrite Hk. by destruct (String.eqb u k).
Qed.

Lemma Map_keys_relayStatus c (m : list (string * RelayState)) :
  Forall (fun e : string * RelayState => url e.2 = e.1) m →
  Map_keys (relayStatus c <$> Map_values m) = Map_keys m.
Proof.
  unfold Map_values, Map_keys. induction 1 as [|[k r] m Hk _ IH]; [done|].
  simpl in Hk. rewrite !fmap_cons. cbn [relayStatus snd fst]. by rewrite Hk, IH.
Qed.

(** X16.  The state queries of a consistent client agree:
    [getAllRelayState()] returns, with one entry for each relay of the pool
    and in its order; [getRelayState(url)] answers what that record has
    under [url] and throws for a url the record does not have; and it
    returns exactly for the urls [hasRelay] accepts. *)
Theorem state_queries_agree (c : RxNostrImpl) :
  consistent c →
  ∃ status,
    getAllRelayState c = Normal status
    ∧ Map_keys status = Map_keys (relays c)
    ∧ (∀ u, getRelayState u c
            = match Map_get u status with
              | Some st => Normal st
              | None => Threw "Relay not found"
              end)
    ∧ (∀ u, hasRelay u c = true ↔ ∃ st, getRelayState u c = Normal st).
Proof.
  intros Hc. exists (relayStatus c <$> Map_values (relays c)). split_and!.
  - apply getAllRelayState_status; [apply (ok_keys c Hc) | apply (ok_url c Hc)].
  - apply Map_keys_relayStatus, (ok_url c Hc).
  - intros u. rewrite (Map_get_relayStatus c _ u (ok_url c Hc)).
    unfold getRelayState. by destruct (Map_get u (relays c)).
  - intros u. rewrite (hasRelay_keys c u (ok_url c Hc)), Map_keys_elem_of.
    unfold getRelayState. destruct (Map_get u (relays c)) as [r|]; split.
    + intros _. by eexists.
    + intros _. by eexists.
    + by intros [? ?].
    + by intros [? ?].
Qed.

Lemma state_queries_agree_witness :
  ∃ status,
    getAllRelayState (impl sampleBackward) = Normal status
    ∧ Map_keys status = Map_keys (relays (impl sampleBackward))
    ∧ (∀ u, getRelayState u (impl sampleBackward)
            = match Map_get u status with
              | Some st => Normal st
              | None => Threw "Relay not found"
              end)
    ∧ (∀ u, hasRelay u (impl sampleBackward) = true
            ↔ ∃ st, getRelayState u (impl sampleBackward) = Normal st).
Proof.
  apply (state_queries_agree (impl sampleBackward)).
  exact sampleBackward_consistent.
Defined.

Lemma send_event_fold_relays event (urls : list string) : ∀ c,
  relays (fold_left (send_event event) urls c) = relays c.
Proof.
  induction urls as [|v urls IH]; intros c; [done|]. cbn [fold_left].
  rewrite IH. unfold send_event. by destruct (Map_get v (relays c)).
Qed.

Lemma writable_lookups c :
  consistent c →
  ∀ r, r ∈ List.filter write (Map_values (relays c)) →
       Map_get (url r) (relays c) = Some r.
Proof.
  intros Hc r [Hr _]%elem_of_List_filter.
  apply Map_values_elem_of in Hr as [u Hin].
  pose proof (proj1 (Forall_forall _ _) (ok_url _ Hc) _ Hin) as Hurl.
  simpl in Hurl. rewrite Hurl.
  by apply Map_get_elem_of; [apply (ok_keys _ Hc)|].
Qed.

(** X17.  The caller unsubscribes the stream of [send()] before the event
    is signed: the publication is not called off.  Once the event is signed
    its EVENT frame still goes to every relay that was writable at the call
    of [send]; but no listener is subscribed to the messages, and no OK
    reaches the stream. *)
Theorem send_after_unsubscribe (k : Client) (event : Event) :
  consistent (impl k) →
  let q := (send k).1 in
  let k' := send_then q event (unsubscribe_send q (send k).2) in
  calls (impl k')
  = calls (impl k)
    ++ (eventTo event <$> List.filter write (Map_values (relays (impl k))))
  ∧ observers k' = observers k
  ∧ oks k' = oks (send k).2
  ∧ ∀ packet, ok_on_message q packet k' = k'.
Proof.
  intros Hc. cbv zeta. unfold send, unsubscribe_send. cbn [fst snd].
  set (urls := getWritableUrls (Map_values (relays (impl k)))).
  set (q := length (pubs k)).
  set (x0 := {| p_urls := urls; p_event := None; p_listening := false;
                p_seen := 0; p_live := true |}).
  assert (∀ k1 x1, pubs k1 !! q = Some x1 → p_event x1 = None →
                   p_urls x1 = urls → impl k1 = impl k →
                   observers k1 = observers k →
                   let k' := send_then q event (finalize_pub q k1) in
                   calls (impl k')
                   = calls (impl k)
                     ++ (eventTo event
                           <$> List.filter write (Map_values (relays (impl k))))
                   ∧ observers k' = observers k ∧ oks k' = oks k1
                   ∧ ∀ packet, ok_on_message q packet k' = k') as Hrun.
  { intros k1 x1 Hq He Hu Hi Ho. unfold finalize_pub. rewrite Hq.
    unfold send_then, set_pub. simpl.
    rewrite list_lookup_insert_eq by (by eapply lookup_lt_Some). simpl.
    rewrite He, Hu. simpl. rewrite Hi. split_and!; [|done..|].
    - apply send_event_fold, writable_lookups, Hc.
    - intros packet. unfold ok_on_message. simpl.
      rewrite list_lookup_insert_eq
        by (rewrite length_insert; by eapply lookup_lt_Some).
      simpl. by destruct (mp_message packet). }
  assert ((pubs k ++ [x0]) !! q = Some x0) as Hq
    by (subst q; by rewrite lookup_app_r, Nat.sub_diag).
  destruct (length urls =? 0)%nat eqn:HW.
  - assert (finalize_pub q (emit_ok q Complete (with_pubs (pubs k ++ [x0]) k))
            = with_pubs (<[q := {| p_urls := urls; p_event := None;
                                   p_listening := false; p_seen := 0;
                                   p_live := false |}]> (pubs k ++ [x0]))
                        (emit_ok q Complete (with_pubs (pubs k ++ [x0]) k))) as ->.
    { unfold finalize_pub, emit_ok, set_pub. simpl. by rewrite Hq. }
    eapply Hrun.
    + simpl. apply list_lookup_insert_eq. by eapply lookup_lt_Some.
    + done.
    + done.
    + done.
    + done.
  - by eapply Hrun.
Qed.

Lemma send_after_unsubscribe_witness :
  let q := (send sampleClient).1 in
  let k' := send_then q sampleEvent (unsubscribe_send q (send sampleClient).2) in
  calls (impl k')
  = calls (impl sampleClient)
    ++ (eventTo sampleEvent
          <$> List.filter write (Map_values (relays (impl sampleClient))))
  ∧ observers k' = observers sampleClient
  ∧ oks k' = oks (send sampleClient).2
  ∧ ∀ packet, ok_on_message q packet k' = k'.
Proof.
  apply (send_after_unsubscribe sampleClient sampleEvent).
  exact sampleClient_consistent.
Defined.

(** ** The end of an inner stream *)

(** X18.  The timeout of a live inner stream of a consistent client, its
    subscription id not empty: a CLOSE for that id goes to the relays that
    still have it, and to no other; no relay has it afterwards; the stream
    of [use()] gets at most a completion; and the inner stream is over: it
    takes no packet any more, and a second timeout does nothing. *)
Theorem timeout_ends_inner_stream (k : Client) (i : nat) (x : Inner) :
  consistent (impl k) →
  inners k !! i = Some x → i_live x = true → i_subId x ≠ "" →
  let k' := on_timeout i k in
  calls (impl k')
  = calls (impl k)
    ++ (closeTo (i_subId x)
          <$> List.filter (fun r => isActive (impl k) r (i_subId x))
                          (Map_values (relays (impl k))))
  ∧ (∀ r, r ∈ Map_values (relays (impl k)) → isActive (impl k') r (i_subId x) = false)
  ∧ emits isComplete k k'
  ∧ (∀ packet, inner_on_message i packet k' = k')
  ∧ on_timeout i k' = k'.
Proof.
  intros Hc Hi Hl Hsub k'.
  pose proof (complete_inner_inners i k x Hi Hl) as Hin.
  pose proof (complete_inner_emits i k) as Hem.
  assert (inners k' !! i
          = Some {| i_use := i_use x; i_subId := i_subId x;
                    eoseRelays := eoseRelays x; i_live := false |}) as Hi'.
  { subst k'. unfold on_timeout. rewrite Hin.
    apply list_lookup_insert_eq. by eapply lookup_lt_Some. }
  assert (impl k' = fold_left (finalizeReq_relay (Some (i_subId x)))
                      (Map_values (relays (impl k))) (impl k)) as Himpl.
  { subst k'. unfold on_timeout, complete_inner. rewrite Hi, Hl. simpl.
    by rewrite settle_impl, set_inner_impl. }
  destruct (finalizeReq_subId_fold (i_subId x) (Map_values (relays (impl k)))
              (impl k) (ok_sets _ Hc) Hsub) as [Ec A].
  rewrite Himpl. split_and!.
  - exact Ec.
  - intros r Hr. rewrite A, String.eqb_refl, bool_decide_eq_true_2.
    + by rewrite andb_false_r.
    + by apply list_elem_of_fmap_2.
  - exact Hem.
  - intros packet. unfold inner_on_message. by rewrite Hi'.
  - unfold on_timeout, complete_inner. by rewrite Hi'.
Qed.

Lemma timeout_ends_inner_stream_witness :
  let k' := on_timeout 0 sampleBackward in
  calls (impl k')
  = calls (impl sampleBackward)
    ++ (closeTo "sub:0"
          <$> List.filter (fun r => isActive (impl sampleBackward) r "sub:0")
                          (Map_values (relays (impl sampleBackward))))
  ∧ (∀ r, r ∈ Map_values (relays (impl sampleBackward)) →
          isActive (impl k') r "sub:0" = false)
  ∧ emits isComplete sampleBackward k'
  ∧ (∀ packet, inner_on_message 0 packet k' = k')
  ∧ on_timeout 0 k' = k'.
Proof.
  apply (timeout_ends_inner_stream sampleBackward 0
           {| i_use := 0; i_subId := "sub:0"; eoseRelays := []; i_live := true |}).
  - exact sampleBackward_consistent.
  - reflexivity.
  - reflexivity.
  - discriminate.
Defined.

(** ** The emissions of a backward request *)

Lemma settle_source u k y :
  uses k !! u = Some y → u_source y = true → settle u k = k.
Proof.
  intros Hu Hs. unfold settle. rewrite Hu, Hs. by rewrite andb_false_r.
Qed.

Lemma complete_inner_subIds i k :
  i_subId <$> inners (complete_inner i k) = i_subId <$> inners k.
Proof.
  destruct (inners k !! i) as [x|] eqn:Hi.
  - destruct (i_live x) eqn:Hl.
    + rewrite (complete_inner_inners i k x Hi Hl).
      rewrite list_fmap_insert. simpl. apply list_insert_id.
      by rewrite list_lookup_fmap, Hi.
    + unfold complete_inner. by rewrite Hi, Hl.
  - unfold complete_inner. by rewrite Hi.
Qed.

Lemma complete_inner_uses i k x y :
  inners k !! i = Some x → uses k !! i_use x = Some y → u_source y = true →
  uses (complete_inner i k) = uses k.
Proof.
  intros Hi Hu Hs. unfold complete_inner. rewrite Hi.
  destruct (i_live x); [|done]. simpl.
  rewrite (settle_source (i_use x) _ y); [| |done].
  - unfold set_inner. by rewrite Hi.
  - unfold set_inner. by rewrite Hi.
Qed.

(** The new inner stream of an emission, for a subscription whose source is
    still subscribed. *)
Lemma createEoseManagedEventObservable_inners u subId k y :
  uses k !! u = Some y → u_source y = true →
  let k' := createEoseManagedEventObservable u subId k in
  i_subId <$> inners k' = (i_subId <$> inners k) ++ [subId]
  ∧ uses k' = uses k.
Proof.
  intros Hu Hs k'. subst k'. unfold createEoseManagedEventObservable.
  set (k2 := with_observers _ _). simpl.
  assert (i_subId <$> inners k2 = (i_subId <$> inners k) ++ [subId]) as H2
    by (subst k2; simpl; by rewrite fmap_app).
  destruct (message_stopped (impl k)); [|done].
  rewrite complete_inner_subIds. split; [done|].
  apply (complete_inner_uses _ k2 {| i_use := u; i_subId := subId;
                                     eoseRelays := []; i_live := true |} y);
    [|exact Hu|exact Hs].
  subst k2. simpl. by rewrite lookup_app_r, Nat.sub_diag.
Qed.

Lemma backward_step (k : Client) (u : nat) (x : Use) (fs : list Filter) :
  uses k !! u = Some x → u_strategy x = backward →
  u_live x = true → u_source x = true →
  let k1 := req_next u (Some fs) k in
  uses k1 !! u = Some {| u_strategy := backward; u_rxReqId := u_rxReqId x;
                         u_index := S (u_index x); u_source := true;
                         u_live := true |}
  ∧ i_subId <$> inners k1
    = (i_subId <$> inners k) ++ [makeSubId (u_rxReqId x) (Some (u_index x))].
Proof.
  intros Hu Hs Hl Hsrc k1. subst k1.
  unfold req_next. rewrite Hu, Hl, Hsrc, Hs. simpl.
  unfold attachSubId. rewrite Hs. simpl.
  set (x1 := {| u_strategy := backward; u_rxReqId := u_rxReqId x;
                u_index := S (u_index x); u_source := true; u_live := true |}).
  set (k0 := on_impl _ _).
  assert (uses k0 !! u = Some x1) as Hu0.
  { subst k0. simpl. apply list_lookup_insert_eq. by eapply lookup_lt_Some. }
  destruct (createEoseManagedEventObservable_inners u
              (makeSubId (u_rxReqId x) (Some (u_index x))) k0 x1 Hu0 eq_refl)
    as [E1 E2].
  by rewrite E2, E1.
Qed.

(** X19.  The emissions of a backward request, for a live stream of
    [use()]: each opens an inner stream of its own, and the subscription
    ids of these streams are [rxReqId:n], [rxReqId:n+1], ... from the count
    [n] of the emissions before; no two of them are equal. *)
Theorem backward_emissions (k : Client) (u : nat) (x : Use)
    (fss : list (list Filter)) :
  uses k !! u = Some x → u_strategy x = backward →
  u_live x = true → u_source x = true →
  let k' := fold_left (fun k' fs => req_next u (Some fs) k') fss k in
  let ids := (fun n => makeSubId (u_rxReqId x) (Some n))
               <$> seq (u_index x) (length fss) in
  i_subId <$> inners k' = (i_subId <$> inners k) ++ ids
  ∧ NoDup ids.
Proof.
  intros Hu Hs Hl Hsrc. cbv zeta. split.
  - revert k x Hu Hs Hl Hsrc.
    induction fss as [|fs fss IH]; intros k x Hu Hs Hl Hsrc.
    + simpl. by rewrite app_nil_r.
    + cbn [fold_left length seq]. rewrite fmap_cons.
      destruct (backward_step k u x fs Hu Hs Hl Hsrc) as [Hu1 E1].
      rewrite (IH _ _ Hu1 eq_refl eq_refl eq_refl). simpl.
      by rewrite E1, <- app_assoc.
  - apply NoDup_fmap_2; [|apply NoDup_seq].
    intros i j H. unfold makeSubId in H. simpl in H.
    apply append_inj_r, append_inj_r in H. by apply string_of_index_inj.
Qed.

Lemma backward_emissions_witness :
  let k := (use backward "back" sampleClient).2 in
  let k' := fold_left (fun k' fs => req_next 1 (Some fs) k')
                      [[sampleFilter]; []; [sampleFilter]] k in
  let ids := (fun n => makeSubId "back" (Some n)) <$> seq 0 3 in
  i_subId <$> inners k' = (i_subId <$> inners k) ++ ids
  ∧ NoDup ids.
Proof.
  apply (backward_emissions (use backward "back" sampleClient).2 1
           {| u_strategy := backward; u_rxReqId := "back"; u_index := 0;
              u_source := true; u_live := true |}
           [[sampleFilter]; []; [sampleFilter]]); reflexivity.
Defined.

(** ** The one emission of a oneshot request *)

Lemma forallb_other_use (u : nat) (l : list Inner) :
  Forall (fun y => i_use y ≠ u) l →
  forallb (fun i => negb (i_live i && (i_use i =? u)%nat)) l = true.
Proof.
  induction 1 as [|y l Hy _ IH]; [done|]. simpl.
  rewrite (proj2 (Nat.eqb_neq _ _) Hy), andb_false_r. by rewrite IH.
Qed.

Lemma ensureReq_message_stopped req rs ow c :
  message_stopped (ensureReq req rs ow c) = message_stopped c.
Proof.
  unfold ensureReq. generalize (default (Map_values (relays c)) rs) as l.
  intros l. revert c. induction l as [|r l IH]; intros c; [done|]. simpl.
  rewrite IH. unfold ensureReq_relay. by destruct (_ || _).
Qed.

(** X20.  A oneshot request on a client that has not been disposed, for a
    live stream of [use()] with no inner stream yet: the first emission
    opens the one inner stream, under the subscription id [rxReqId:0], and
    delivers nothing; every later emission is passed over; and when the
    inner stream ends, the stream of [use()] completes. *)
Theorem oneshot_single_request (k : Client) (u : nat) (x : Use) (fs : list Filter) :
  uses k !! u = Some x → u_strategy x = oneshot →
  u_live x = true → u_source x = true →
  message_stopped (impl k) = false →
  Forall (fun y => i_use y ≠ u) (inners k) →
  let k1 := req_next u (Some fs) k in
  i_subId <$> inners k1 = (i_subId <$> inners k) ++ [makeSubId (u_rxReqId x) None]
  ∧ events k1 = events k
  ∧ (∀ filters, req_next u filters k1 = k1)
  ∧ events (on_timeout (length (inners k)) k1) = events k ++ [(u, Complete)].
Proof.
  intros Hu Hs Hl Hsrc Hm Hno k1.
  set (x1 := {| u_strategy := oneshot; u_rxReqId := u_rxReqId x;
                u_index := S (u_index x); u_source := true; u_live := true |}).
  set (new := {| i_use := u; i_subId := makeSubId (u_rxReqId x) None;
                 eoseRelays := []; i_live := true |}).
  set (req := {| req_subId := makeSubId (u_rxReqId x) None; req_filters := fs |}).
  set (c1 := ensureReqOnNext oneshot req (impl k)).
  assert (Hlt : u < length (uses k)) by (by eapply lookup_lt_Some).
  assert (k1 = {| impl := c1;
                  uses := <[u := {| u_strategy := oneshot; u_rxReqId := u_rxReqId x;
                                    u_index := S (u_index x); u_source := false;
                                    u_live := true |}]> (uses k);
                  inners := inners k ++ [new];
                  pubs := pubs k;
                  observers := observers k ++ [ObsInner (length (inners k))];
                  events := events k; oks := oks k |}) as Hk1.
  { subst k1. unfold req_next. rewrite Hu, Hl, Hsrc, Hs. simpl.
    unfold attachSubId. rewrite Hs. fold req.
    unfold createEoseManagedEventObservable. simpl. fold c1.
    assert (message_stopped c1 = false) as ->
      by (subst c1; unfold ensureReqOnNext; by rewrite ensureReq_message_stopped).
    simpl. rewrite list_lookup_insert_eq by done. simpl.
    unfold set_use_live. simpl. rewrite list_lookup_insert_eq by done. simpl.
    rewrite list_insert_insert_eq.
    unfold settle. simpl. rewrite list_lookup_insert_eq by done. simpl.
    rewrite forallb_app. simpl. rewrite Nat.eqb_refl. simpl.
    by rewrite andb_false_r. }
  rewrite Hk1. simpl. split_and!.
  - by rewrite fmap_app.
  - done.
  - intros filters. unfold req_next. simpl.
    rewrite list_lookup_insert_eq by done. simpl. by destruct filters.
  - unfold on_timeout, complete_inner. simpl.
    rewrite lookup_app_r, Nat.sub_diag by done. simpl.
    unfold set_inner. simpl. rewrite lookup_app_r, Nat.sub_diag by done. simpl.
    unfold settle. simpl. rewrite list_lookup_insert_eq by done. simpl.
    rewrite insert_app_r_alt, Nat.sub_diag by done. simpl.
    rewrite forallb_app, (forallb_other_use u _ Hno). simpl.
    unfold set_use_live. simpl. by rewrite list_lookup_insert_eq by done.
Qed.

Lemma oneshot_single_request_witness :
  let k := (use oneshot "once" sampleClient).2 in
  let k1 := req_next 1 (Some [sampleFilter]) k in
  i_subId <$> inners k1 = (i_subId <$> inners k) ++ [makeSubId "once" None]
  ∧ events k1 = events k
  ∧ (∀ filters, req_next 1 filters k1 = k1)
  ∧ events (on_timeout (length (inners k)) k1) = events k ++ [(1, Complete)].
Proof.
  apply (oneshot_single_request (use oneshot "once" sampleClient).2 1
           {| u_strategy := oneshot; u_rxReqId := "once"; u_index := 0;
              u_source := true; u_live := true |} [sampleFilter]);
    try reflexivity.
  constructor.
Defined.

(** ** What a message delivers to the streams of [use()] *)

(** The subscription to which the observer [o] of [message$] passes an
    EVENT for the subscription id [s] that comes from [from]: a forward
    stream takes the id of its request; an inner stream takes its own id,
    until the sender has sent it EOSE. *)
Definition taker (k : Client) (s from : string) (o : Observer) : option nat :=
  match o with
  | ObsForward u =>
      match uses k !! u with
      | Some x =>
          if u_live x && String.eqb s (makeSubId (u_rxReqId x) None)
          then Some u else None
      | None => None
      end
  | ObsInner i =>
      match inners k !! i with
      | Some y =>
          if i_live y && String.eqb s (i_subId y)
             && negb (Set_has from (eoseRelays y))
          then Some (i_use y) else None
      | None => None
      end
  | ObsOk _ => None
  end.

Lemma ok_on_message_events q packet k : events (ok_on_message q packet k) = events k.
Proof.
  unfold ok_on_message. destruct (pubs k !! q) as [x|]; [|done].
  destruct (mp_message packet); try done. destruct (p_event x); [|done].
  destruct (p_listening x); [|done].
  destruct (_ <=? _)%nat; [|done].
  destruct (_ <=? _)%nat; [|done]. unfold finalize_pub. simpl.
  by destruct (_ !! q).
Qed.

Lemma deliver_event s e from k o :
  let packet := {| mp_from := from; mp_message := InEVENT s e |} in
  let k' := deliver packet k o in
  uses k' = uses k ∧ inners k' = inners k
  ∧ events k'
    = events k
      ++ match taker k s from o with
         | Some u => [(u, Next {| ep_from := from; ep_subId := s; ep_event := e |})]
         | None => []
         end.
Proof.
  intros packet k'. subst k'. destruct o as [u|i|q]; simpl.
  - unfold forward_on_message. destruct (uses k !! u) as [x|] eqn:Hu;
      [|by rewrite app_nil_r].
    unfold filterBySubId. simpl.
    destruct (u_live x && String.eqb s (makeSubId (u_rxReqId x) None));
      simpl; by rewrite ?app_nil_r.
  - unfold inner_on_message. destruct (inners k !! i) as [y|] eqn:Hi;
      [|by rewrite app_nil_r].
    unfold filterBySubId. simpl.
    destruct (i_live y && String.eqb s (i_subId y)
              && negb (Set_has from (eoseRelays y)));
      simpl; by rewrite ?app_nil_r.
  - rewrite ok_on_message_events, app_nil_r. split_and!; [| |done];
      unfold ok_on_message; by destruct (pubs k !! q).
Qed.

Lemma fail_use_events u e k : events (fail_use u e k) = events k ++ [(u, Error e)].
Proof.
  unfold fail_use.
  destruct (teardown_inners_streams u
              (set_use_live u false false (emit_event u (Error e) k))) as [-> _].
  by rewrite set_use_live_events.
Qed.

Lemma deliver_eose s from k o :
  let packet := {| mp_from := from; mp_message := InEOSE s |} in
  emits (fun n => ∀ ev, n.2 ≠ Next ev) k (deliver packet k o).
Proof.
  intros packet. destruct o as [u|i|q]; simpl.
  - apply emits_refl. unfold forward_on_message.
    destruct (uses k !! u); [|done]. by destruct (_ && _).
  - unfold inner_on_message. destruct (inners k !! i) as [y|] eqn:Hi;
      [|by apply emits_refl].
    destruct (_ && _); [|by apply emits_refl]. simpl.
    destruct (finalizeReq _ _) as [[[]|err] c].
    + eapply emits_trans; [|eapply emits_weaken; [|apply manageCompletion_emits]].
      * apply emits_refl. simpl. apply set_inner_events.
      * intros n Hn ev. destruct n as [u [a| |r]]; simpl in *; done.
    + exists [(i_use y, Error err)]. rewrite fail_use_events. simpl.
      rewrite set_inner_events. split; [done|]. by repeat constructor.
  - apply emits_refl, ok_on_message_events.
Qed.

Lemma deliver_other packet k o :
  (∀ s e, mp_message packet ≠ InEVENT s e) → (∀ s, mp_message packet ≠ InEOSE s) →
  events (deliver packet k o) = events k.
Proof.
  intros He Hs. destruct o as [u|i|q]; simpl.
  - unfold forward_on_message. destruct (uses k !! u); [|done].
    unfold filterBySubId. destruct (mp_message packet); try by rewrite andb_false_r.
    + by destruct (He subId event).
    + by destruct (Hs subId).
  - unfold inner_on_message. destruct (inners k !! i); [|done].
    unfold filterBySubId. destruct (mp_message packet);
      try by rewrite andb_false_r.
    + by destruct (He subId event).
    + by destruct (Hs subId).
  - apply ok_on_message_events.
Qed.

(** X21.  What a packet of [message$] delivers to the streams of [use()].
    An EVENT message is delivered, with the url it came from, its
    subscription id and its event as they are, once to each subscription
    that takes it, in the order they subscribed to [message$]: a live
    forward stream whose request has that subscription id, and a live
    inner stream of that subscription id to which the sender has not sent
    EOSE; and to no other.  An EOSE delivers no event; an OK, an AUTH or a
    NOTICE delivers nothing at all; and once [message$] has been completed
    a packet changes nothing. *)
Theorem message_payloads (packet : MessagePacket) (k : Client) :
  if message_stopped (impl k) then message_next packet k = k
  else
    match mp_message packet with
    | InEVENT s e =>
        events (message_next packet k)
        = events k
          ++ ((fun u => (u, Next {| ep_from := mp_from packet; ep_subId := s;
                                    ep_event := e |}))
                <$> omap (taker k s (mp_from packet)) (observers k))
    | InEOSE _ =>
        ∃ t, events (message_next packet k) = events k ++ t
             ∧ Forall (fun n => ∀ ev, n.2 ≠ Next ev) t
    | _ => events (message_next packet k) = events k
    end.
Proof.
  unfold message_next. destruct (message_stopped (impl k)); [done|].
  destruct packet as [from m].
  assert (∀ os k1, (∀ s e, m ≠ InEVENT s e) → (∀ s, m ≠ InEOSE s) →
                   events (fold_left (deliver {| mp_from := from; mp_message := m |})
                                     os k1) = events k1) as Hother.
  { intros os. induction os as [|o os IH]; intros k1 He Hs; [done|]. simpl.
    rewrite IH by done. by apply deliver_other. }
  destruct m as [s e|s|a b c|a|a]; cbn [mp_message mp_from].
  - generalize (observers k) as os. intros os.
    assert (∀ k1, uses k1 = uses k → inners k1 = inners k →
              events (fold_left (deliver {| mp_from := from;
                                            mp_message := InEVENT s e |}) os k1)
              = events k1
                ++ ((fun u => (u, Next {| ep_from := from; ep_subId := s;
                                          ep_event := e |}))
                      <$> omap (taker k s from) os)) as Hev; [|by apply Hev].
    induction os as [|o os IH]; intros k1 Hu Hi; [by rewrite app_nil_r|].
    cbn [fold_left].
    destruct (deliver_event s e from k1 o) as (Hu1 & Hi1 & He1).
    rewrite IH by congruence. rewrite He1, <- app_assoc. f_equal.
    assert (taker k1 s from o = taker k s from o) as ->
      by (unfold taker; by rewrite Hu, Hi).
    change (omap (taker k s from) (o :: os))
      with (match taker k s from o with
            | Some u => u :: omap (taker k s from) os
            | None => omap (taker k s from) os
            end).
    by destruct (taker k s from o).
  - apply emits_fold. intros k1 o. apply deliver_eose.
  - by apply Hother.
  - by apply Hother.
  - by apply Hother.
Qed.

(** The forward subscription of the sample takes an EVENT for its
    subscription id, from either relay. *)
Lemma message_payloads_witness :
  events (message_next {| mp_from := "wss://b.example";
                          mp_message := InEVENT "sub:0" sampleEvent |} sampleClient)
  = events sampleClient
    ++ [(0, Next {| ep_from := "wss://b.example"; ep_subId := "sub:0";
                    ep_event := sampleEvent |})].
Proof.
  exact (message_payloads {| mp_from := "wss://b.example";
                             mp_message := InEVENT "sub:0" sampleEvent |}
                          sampleClient).
Defined.

(** ** The pool [setRelays] leaves is its argument *)

Lemma nextRelayState_step_keys prev acc relay k :
  k ∈ Map_keys acc.1 ∨ k = r_url relay →
  k ∈ Map_keys (nextRelayState_step prev acc relay).1.
Proof.
  destruct acc as [next c]. unfold nextRelayState_step. simpl. intros Hk.
  assert (∀ v, k ∈ Map_keys (Map_set (r_url relay) v next)) as Hset.
  { intros v. rewrite Map_keys_set.
    destruct (includes (r_url relay) (Map_keys next)) eqn:Hi.
    - destruct Hk as [Hk| ->]; [done | by apply includes_elem_of].
    - apply elem_of_app. destruct Hk as [Hk| ->]; [by left|].
      right. by apply list_elem_of_singleton. }
  destruct (Map_get (r_url relay) prev); apply Hset.
Qed.

Lemma nextRelayState_fold_has prev l : ∀ acc k,
  k ∈ Map_keys acc.1 ∨ k ∈ r_url <$> l →
  k ∈ Map_keys (fold_left (nextRelayState_step prev) l acc).1.
Proof.
  induction l as [|relay l IH]; intros acc k Hk.
  - destruct Hk as [Hk|Hk]; [done | by apply elem_of_nil in Hk].
  - cbn [fold_left]. apply IH. rewrite fmap_cons in Hk.
    destruct Hk as [Hk|[->|Hk]%elem_of_cons].
    + left. apply nextRelayState_step_keys. by left.
    + left. apply nextRelayState_step_keys. by right.
    + by right.
Qed.

Lemma nextRelayState_fold_records prev l : ∀ acc k r,
  Map_get k (fold_left (nextRelayState_step prev) l acc).1 = Some r →
  Map_get k acc.1 = Some r ∨ (relayOf r ∈ l ∧ url r = k).
Proof.
  induction l as [|relay l IH]; intros acc k r Hg; [by left|].
  cbn [fold_left] in Hg. apply IH in Hg as [Hg|[Hin Hu]].
  - destruct acc as [next c]. unfold nextRelayState_step in Hg.
    destruct (Map_get (r_url relay) prev); simpl in Hg;
      rewrite Map_get_set in Hg;
      (destruct (String.eqb_spec k (r_url relay)) as [->|_]; [|by left]);
      injection Hg as <-; right; (split; [|done]);
      apply elem_of_cons; left; by destruct relay.
  - right. split; [|done]. apply elem_of_cons. by right.
Qed.

Section PoolInput.
Variable normalizeUrl : string → Completion string.

(** From a consistent client, [setRelays] with relays the normalizer takes
    returns, and the urls of the pool it leaves are those of the relays
    given. *)
Lemma setRelays_installs (input : RelaysInput) (c : RxNostrImpl) (rels : list Relay) :
  consistent c → inputRelays normalizeUrl input = Normal rels →
  ∃ c', setRelays normalizeUrl input c = (Normal (), c')
        ∧ ∀ u, u ∈ Map_keys (relays c') ↔ u ∈ r_url <$> rels.
Proof.
  intros Hc EI.
  assert (getNextRelayState normalizeUrl (relays c) input c
          = Normal (nextRelayState_loop (relays c) rels c)) as EG
    by (unfold getNextRelayState; by rewrite EI).
  destruct (nextRelayState_loop (relays c) rels c) as [next c0] eqn:EL.
  destruct (setRelays_normal_form normalizeUrl input c next c0 Hc EG)
    as (c1 & rs & _ & _ & E).
  eexists. split; [exact E|]. simpl relays.
  assert (next = (fold_left (nextRelayState_step (relays c)) rels ([], c)).1) as ->
    by (unfold nextRelayState_loop in EL; by rewrite EL).
  intros u. split.
  - intros [H|H]%nextRelayState_fold_keys; [by apply elem_of_nil in H | done].
  - intros H. apply nextRelayState_fold_has. by right.
Qed.

(** X22.  From a consistent client, [setRelays] throws what the normalizer
    throws on a url of an array given, and then changes nothing.  Otherwise
    it returns and the pool it leaves is made of its argument alone: its
    urls are the urls of the relays given (normalized for an array, as
    written for a record); each record has the url it is kept under and the
    flags of a relay given for that url; and the relay given last decides
    the flags for its url.  No relay of the previous pool stays unless it is
    given again. *)
Theorem setRelays_pool_is_input (input : RelaysInput) (c : RxNostrImpl) :
  consistent c →
  match inputRelays normalizeUrl input with
  | Normal rels =>
      ∃ c',
        setRelays normalizeUrl input c = (Normal (), c')
        ∧ (∀ u, u ∈ Map_keys (relays c') ↔ u ∈ r_url <$> rels)
        ∧ (∀ u r, Map_get u (relays c') = Some r → relayOf r ∈ rels ∧ url r = u)
        ∧ (∀ l relay, rels = l ++ [relay] →
                      ∃ r, Map_get (r_url relay) (relays c') = Some r
                           ∧ relayOf r = relay)
  | Threw e => setRelays normalizeUrl input c = (Threw e, c)
  end.
Proof.
  intros Hc.
  destruct (inputRelays normalizeUrl input) as [rels|e] eqn:EI.
  2:{ unfold setRelays, getNextRelayState. by rewrite EI. }
  assert (getNextRelayState normalizeUrl (relays c) input c
          = Normal (nextRelayState_loop (relays c) rels c)) as EG
    by (unfold getNextRelayState; by rewrite EI).
  destruct (nextRelayState_loop (relays c) rels c) as [next c0] eqn:EL.
  destruct (setRelays_normal_form normalizeUrl input c next c0 Hc EG)
    as (c1 & rs & _ & _ & E).
  eexists. split; [exact E|]. simpl relays. clear E.
  assert (next = (fold_left (nextRelayState_step (relays c)) rels ([], c)).1) as ->
    by (unfold nextRelayState_loop in EL; by rewrite EL).
  split_and!.
  - intros u. split.
    + intros [H|H]%nextRelayState_fold_keys; [by apply elem_of_nil in H | done].
    + intros H. apply nextRelayState_fold_has. by right.
  - intros u r [H|H]%nextRelayState_fold_records; [done | done].
  - intros l relay ->.
    destruct (last_relay_wins (relays c) l relay c) as (r & Hg & Hu & Hr & Hw).
    exists r. split; [done|]. destruct relay. simpl in *. unfold relayOf.
    by rewrite Hu, Hr, Hw.
Qed.

End PoolInput.

(** An array with a url of white space only, on which the normalizer
    throws. *)
Definition sampleRelaysBlank : RelaysInput :=
  FromArray [OfUrl "wss://c.example"; OfUrl " "].

Lemma setRelays_pool_is_input_witness :
  (∃ c',
     setRelays trimmed sampleRelaysThird (impl sampleClient) = (Normal (), c')
     ∧ (∀ u, u ∈ Map_keys (relays c')
             ↔ u ∈ ["wss://a.example"; "wss://c.example"])
     ∧ (∀ u r, Map_get u (relays c') = Some r →
               relayOf r ∈ [ {| r_url := "wss://a.example"; r_read := true;
                                r_write := true |};
                             {| r_url := "wss://c.example"; r_read := true;
                                r_write := true |} ]
               ∧ url r = u))
  ∧ setRelays trimmed sampleRelaysBlank (impl sampleClient)
    = (Threw "Invalid URL", impl sampleClient).
Proof.
  split.
  - destruct (setRelays_pool_is_input trimmed sampleRelaysThird (impl sampleClient)
                sampleClient_consistent) as (c' & E & Hk & Hr & _).
    exists c'. split; [exact E|]. split; [exact Hk | exact Hr].
  - exact (setRelays_pool_is_input trimmed sampleRelaysBlank (impl sampleClient)
             sampleClient_consistent).
Defined.

(** ** After [dispose()] *)

(** C6, as the code has it.  After [dispose()] the subjects [message$] and
    [error$] are completed, the record map is as it was, and [dispose()]
    has been called on the websocket of every relay of the pool.  A second
    [dispose()] changes nothing in the client but the calls: it calls
    [dispose()] on every websocket again.  A mutation after [dispose()] is
    carried out: in a consistent client [setRelays], through which
    [switchRelays], [addRelay] and [removeRelay] act, still returns for
    relays the normalizer takes, and leaves the pool of the relays given. *)
Theorem dispose_completes_and_disposes (k : Client) :
  let k' := dispose k in
  message_stopped (impl k') = true
  ∧ error_stopped (impl k') = true
  ∧ relays (impl k') = relays (impl k)
  ∧ Forall (fun relay => disposeCall relay ∈ calls (impl k'))
           (Map_values (relays (impl k)))
  ∧ dispose k'
    = on_impl (fun c => with_calls
                 (calls c ++ (disposeCall <$> Map_values (relays c))) c) k'
  ∧ (consistent (impl k) →
     ∀ normalizeUrl input rels,
       inputRelays normalizeUrl input = Normal rels →
       ∃ c', setRelays normalizeUrl input (impl k') = (Normal (), c')
             ∧ ∀ u, u ∈ Map_keys (relays c') ↔ u ∈ r_url <$> rels).
Proof.
  assert (consistent (impl k) →
          ∀ normalizeUrl input rels,
            inputRelays normalizeUrl input = Normal rels →
            ∃ c', setRelays normalizeUrl input (impl (dispose k)) = (Normal (), c')
                  ∧ ∀ u, u ∈ Map_keys (relays c') ↔ u ∈ r_url <$> rels) as Hmut.
  { intros Hc normalizeUrl input rels EI.
    by apply setRelays_installs; [apply consistent_dispose|]. }
  revert Hmut.
  set (k1 := if message_stopped (impl k) then k
             else fold_left complete_observer (observers k)
                    (on_impl (fun c => with_stopped true (error_stopped c) c) k)).
  assert (message_stopped (impl k1) = true ∧ relays (impl k1) = relays (impl k))
    as [Hm Hr].
  { subst k1. destruct (message_stopped (impl k)) eqn:E; [done|].
    pose proof (complete_observers_shrinks (observers k)
      (on_impl (fun c => with_stopped true (error_stopped c) c) k)) as S.
    by rewrite (sh_message _ _ S), (sh_relays _ _ S). }
  assert (dispose k
          = on_impl (fun c => with_calls
              (calls c ++ (disposeCall <$> Map_values (relays c))) c)
              (on_impl (fun c => with_stopped (message_stopped c) true c) k1)) as E.
  { unfold dispose. fold k1. unfold on_impl. simpl. by rewrite dispose_fold. }
  clearbody k1. cbv zeta. rewrite E. clear E. intros Hmut.
  split_and!; try done.
  - simpl. apply Forall_forall. intros relay Hin. rewrite Hr.
    apply elem_of_app. right. apply list_elem_of_fmap. by exists relay.
  - by apply dispose_again.
Qed.

Lemma dispose_completes_and_disposes_witness :
  ∃ c', setRelays asGiven sampleRelaysThird (impl (dispose sampleClient))
        = (Normal (), c')
        ∧ ∀ u, u ∈ Map_keys (relays c') ↔ u ∈ ["wss://a.example"; "wss://c.example"].
Proof.
  destruct (dispose_completes_and_disposes sampleClient)
    as (_ & _ & _ & _ & _ & Hmut).
  exact (Hmut sampleClient_consistent asGiven sampleRelaysThird _ eq_refl).
Defined.

(** C6 as the spec has it fails: after [dispose()] the subject [status$]
    is not completed, and a mutation is no no-op.  Here [addRelay] on the
    disposed sample adds a relay, starts its websocket and sends it the REQ
    of the forward subscription. *)
Lemma mutation_after_dispose :
  let k := dispose sampleClient in
  let c' := exec (addRelay asGiven (OfUrl "wss://c.example")) (impl k) in
  status_stopped (impl k) = false
  ∧ hasRelay "wss://c.example" (impl k) = false
  ∧ hasRelay "wss://c.example" c' = true
  ∧ calls c' = calls (impl k) ++ [WsStart 2; WsSend 2 (OfREQ sampleReq)].
Proof. vm_compute. done. Qed.

(** ** The end of a backward or oneshot subscription *)

(** An inner stream of the subscription [u] is ended; another is left. *)
Definition endInner (u : nat) (y : Inner) : Inner :=
  if (i_use y =? u)%nat
  then {| i_use := i_use y; i_subId := i_subId y; eoseRelays := eoseRelays y;
          i_live := false |}
  else y.

Lemma endInner_idemp u y : endInner u (endInner u y) = endInner u y.
Proof.
  unfold endInner. destruct (i_use y =? u)%nat eqn:E; simpl; by rewrite E.
Qed.

(** One turn of the loop of [teardown_inners]. *)
Definition teardown_step (u : nat) (k : Client) (j : nat) : Client :=
  match inners k !! j with
  | Some x => if (i_use x =? u)%nat then finalize_inner j k else k
  | None => k
  end.

Lemma teardown_step_inners u j k i :
  inners (teardown_step u k j) !! i
  = if decide (i = j) then endInner u <$> inners k !! i else inners k !! i.
Proof.
  unfold teardown_step.
  destruct (inners k !! j) as [x|] eqn:Hj.
  - destruct (i_use x =? u)%nat eqn:Hu.
    + unfold finalize_inner, set_inner. rewrite Hj.
      destruct (i_live x) eqn:Hl; simpl.
      * case_decide as Hd.
        -- subst i. rewrite list_lookup_insert_eq by (by eapply lookup_lt_Some).
           rewrite Hj. simpl. unfold endInner. by rewrite Hu.
        -- by rewrite list_lookup_insert_ne.
      * case_decide as Hd; [|done]. subst i. rewrite Hj. simpl.
        unfold endInner. rewrite Hu. destruct x. simpl in *. by subst.
    + case_decide as Hd; [|done]. subst i. rewrite Hj. simpl.
      unfold endInner. by rewrite Hu.
  - case_decide as Hd; [|done]. subst i. by rewrite Hj.
Qed.

Lemma teardown_fold_inners u js : ∀ k i,
  inners (fold_left (teardown_step u) js k) !! i
  = if decide (i ∈ js) then endInner u <$> inners k !! i else inners k !! i.
Proof.
  induction js as [|j js IH]; intros k i.
  - rewrite decide_False; [done | apply not_elem_of_nil].
  - cbn [fold_left]. rewrite IH, teardown_step_inners.
    destruct (decide (i = j)) as [->|Hne].
    + rewrite (decide_True (P := j ∈ j :: js)) by (apply elem_of_cons; by left).
      destruct (decide (j ∈ js)); [|done].
      destruct (inners k !! j); simpl; [|done]. by rewrite endInner_idemp.
    + destruct (decide (i ∈ js)) as [Hin|Hnin].
      * by rewrite decide_True by (apply elem_of_cons; by right).
      * rewrite decide_False; [done|]. intros [?|?]%elem_of_cons; done.
Qed.

Lemma teardown_inners_inners u k :
  inners (teardown_inners u k) = endInner u <$> inners k.
Proof.
  apply list_eq. intros i. unfold teardown_inners.
  change (fold_left _ (seq 0 (length (inners k))) k)
    with (fold_left (teardown_step u) (seq 0 (length (inners k))) k).
  rewrite teardown_fold_inners, list_lookup_fmap.
  case_decide as Hd; [done|].
  rewrite lookup_ge_None_2; [done|].
  destruct (decide (i < length (inners k))); [|lia].
  exfalso. apply Hd. apply list_elem_of_In, in_seq. lia.
Qed.

Lemma finalize_inner_appends i k :
  appends isCloseSend (impl k) (impl (finalize_inner i k)).
Proof.
  unfold finalize_inner. destruct (inners k !! i) as [x|]; [|by apply appends_refl].
  destruct (i_live x); [|by apply appends_refl]. simpl.
  rewrite <- (set_inner_impl i (eoseRelays x) false k) at 1.
  apply finalizeReq_appends.
Qed.

Lemma teardown_inners_appends u k :
  appends isCloseSend (impl k) (impl (teardown_inners u k)).
Proof.
  unfold teardown_inners. generalize (seq 0 (length (inners k))) as js.
  intros js. revert k. induction js as [|j js IH]; intros k; simpl.
  - by apply appends_refl.
  - eapply appends_trans; [|apply IH].
    destruct (inners k !! j) as [x|]; [|by apply appends_refl].
    destruct (_ =? _)%nat; [apply finalize_inner_appends | by apply appends_refl].
Qed.

(** X23.  The caller unsubscribes a live backward or oneshot stream of
    [use()]: every inner stream of it is ended and the inner streams of
    other subscriptions are left as they are; the calls made are CLOSE
    frames; nothing is delivered to the stream; and the subscription is
    over: a second unsubscription and later emissions of its request do
    nothing. *)
Theorem unsubscribe_backward_ends_inners (k : Client) (u : nat) (x : Use) :
  uses k !! u = Some x → u_strategy x ≠ forward → u_live x = true →
  let k' := unsubscribe u k in
  inners k' = endInner u <$> inners k
  ∧ (∃ t, calls (impl k') = calls (impl k) ++ t ∧ Forall isCloseSend t)
  ∧ events k' = events k
  ∧ unsubscribe u k' = k'
  ∧ (∀ filters, req_next u filters k' = k').
Proof.
  intros Hu Hs Hl k'.
  assert (k' = teardown_inners u (set_use_live u false false k)) as ->.
  { subst k'. unfold unsubscribe. rewrite Hu, Hl. by destruct (u_strategy x). }
  set (k1 := set_use_live u false false k).
  assert (uses k1 !! u = Some {| u_strategy := u_strategy x;
                                 u_rxReqId := u_rxReqId x; u_index := u_index x;
                                 u_source := false; u_live := false |}) as Hu1.
  { subst k1. unfold set_use_live. rewrite Hu. simpl.
    apply list_lookup_insert_eq. by eapply lookup_lt_Some. }
  destruct (teardown_inners_streams u k1) as [Ee Eu].
  split_and!.
  - rewrite teardown_inners_inners. subst k1. unfold set_use_live. by rewrite Hu.
  - destruct (teardown_inners_appends u k1) as (t & Et & Ft). exists t.
    split; [|done]. rewrite Et. subst k1. by rewrite set_use_live_impl.
  - rewrite Ee. apply set_use_live_events.
  - unfold unsubscribe at 1. by rewrite Eu, Hu1.
  - intros filters. unfold req_next. rewrite Eu, Hu1. by destruct filters.
Qed.

Lemma unsubscribe_backward_ends_inners_witness :
  let k' := unsubscribe 0 sampleBackward in
  inners k' = endInner 0 <$> inners sampleBackward
  ∧ (∃ t, calls (impl k') = calls (impl sampleBackward) ++ t ∧ Forall isCloseSend t)
  ∧ events k' = events sampleBackward
  ∧ unsubscribe 0 k' = k'
  ∧ (∀ filters, req_next 0 filters k' = k').
Proof.
  apply (unsubscribe_backward_ends_inners sampleBackward 0
           {| u_strategy := backward; u_rxReqId := "sub"; u_index := 1;
              u_source := true; u_live := true |}).
  - reflexivity.
  - discriminate.
  - reflexivity.
Defined.

(** ** The subscriptions of a relay that is no longer read *)




Lemma finalizeReq_url_run u relay c :
  u ≠ "" → Map_get u (relays c) = Some relay →
  finalizeReq {| fp_subId := None; fp_url := Some u |} c
  = (Normal (), fold_left (finalizeReq_subId relay)
                          (subIds c (activeSubIds relay)) c).
Proof.
  intros Hu Hg. unfold finalizeReq. simpl.
  rewrite (proj2 (String.eqb_neq _ _) Hu). simpl.
  unfold bind, run. simpl. by rewrite Hg.
Qed.


Section PoolDropped.
Variable normalizeUrl : string → Completion string.


End PoolDropped.


(** ** The relays a transition leaves alone *)

(** The websocket a call is made on. *)
Definition target (k : Call) : nat :=
  match k with
  | WsStart w | WsStop w | WsDispose w | WsSend w _ => w
  end.

Lemma appends_fold_in {A} P (f : RxNostrImpl → A → RxNostrImpl) (l : list A) :
  ∀ c, (∀ c a, a ∈ l → appends P c (f c a)) → appends P c (fold_left f l c).
Proof.
  induction l as [|a l IH]; intros c Hf; simpl.
  - by apply appends_refl.
  - eapply appends_trans; [apply Hf, elem_of_cons; by left|].
    apply IH. intros c' a' Ha'. apply Hf, elem_of_cons. by right.
Qed.

Lemma finalizeReq_subId_targets relay c subId :
  appends (fun k => target k = websocket relay) c (finalizeReq_subId relay c subId).
Proof.
  unfold finalizeReq_subId.
  destruct (Set_has subId _); [|by apply appends_refl].
  exists [WsSend (websocket relay) (CLOSE subId)]. split; [done|].
  by apply Forall_singleton.
Qed.

Lemma ensureReq_relay_targets req ow c relay :
  appends (fun k => target k = websocket relay) c (ensureReq_relay req ow c relay).
Proof.
  unfold ensureReq_relay.
  destruct (negb (read relay) || _); [by apply appends_refl|].
  exists [WsSend (websocket relay) (OfREQ req)]. split; [done|].
  by apply Forall_singleton.
Qed.

Lemma registryPass_targets rs c :
  appends (fun k => target k ∈ websocket <$> rs) c (registryPass rs c).
Proof.
  unfold registryPass. apply appends_fold. intros c' req. unfold ensureReq. simpl.
  apply appends_fold_in. intros c'' r Hr.
  eapply appends_weaken; [|apply ensureReq_relay_targets].
  intros k ->. by apply list_elem_of_fmap_2.
Qed.

Lemma lifecycle_fold_targets k (m : list (string * RelayState)) urls rs c :
  (∀ w, target (k w) = w) →
  Forall2 (fun u r => Map_get u m = Some r) urls rs →
  appends (fun k => target k ∈ websocket <$> rs) c (fold_left (lifecycle k m) urls c).
Proof.
  intros Hk HF. exists ((fun r => k (websocket r)) <$> rs).
  split; [by apply lifecycle_fold_calls|].
  apply Forall_fmap, Forall_forall. intros r Hr. simpl. rewrite Hk.
  by apply list_elem_of_fmap_2.
Qed.

Lemma stopReading_targets urls : ∀ c,
  "" ∉ Map_keys (relays c) →
  (∀ v, v ∈ urls → v ∈ Map_keys (relays c)) →
  ∃ rs, Forall2 (fun u r => Map_get u (relays c) = Some r) urls rs
        ∧ appends (fun k => target k ∈ websocket <$> rs) c (stopReading urls c).2.
Proof.
  induction urls as [|v urls IH]; intros c Hne Hkeys.
  - exists []. split; [constructor | by apply appends_refl].
  - assert (v ∈ Map_keys (relays c)) as Hv by (apply Hkeys, elem_of_cons; by left).
    pose proof Hv as [pv Hpv]%Map_keys_elem_of.
    assert (v ≠ "") as Hvne by (intros ->; done).
    simpl. unfold bind at 1. rewrite (finalizeReq_url_run v pv c Hvne Hpv).
    set (c1 := fold_left (finalizeReq_subId pv) (subIds c (activeSubIds pv)) c).
    assert (shrinks c c1) as S
      by (apply shrinks_fold; intros; apply finalizeReq_subId_shrinks).
    assert (appends (fun k => target k = websocket pv) c c1) as A1
      by (apply appends_fold; intros; apply finalizeReq_subId_targets).
    unfold bind, run. simpl. unfold lifecycle. rewrite (sh_relays _ _ S), Hpv.
    destruct (IH (call (WsStop (websocket pv)) c1)) as (rs & HF & A2).
    { simpl. by rewrite (sh_relays _ _ S). }
    { intros w Hw. simpl. rewrite (sh_relays _ _ S).
      apply Hkeys, elem_of_cons. by right. }
    simpl in HF. rewrite (sh_relays _ _ S) in HF.
    exists (pv :: rs). split; [by constructor|].
    eapply appends_trans; [|eapply appends_trans]; [| |].
    + eapply appends_weaken; [|exact A1]. intros k ->.
      rewrite fmap_cons. apply elem_of_cons. by left.
    + apply (appends_call _ (WsStop (websocket pv))).
      rewrite fmap_cons. apply elem_of_cons. by left.
    + eapply appends_weaken; [|exact A2]. intros k Hk.
      rewrite fmap_cons. apply elem_of_cons. by right.
Qed.

Lemma finalizeReq_subId_subIds_other relay c x s :
  s ≠ activeSubIds relay → subIds (finalizeReq_subId relay c x) s = subIds c s.
Proof.
  intros Hs. unfold finalizeReq_subId. rewrite subIds_put_subIds.
  rewrite decide_False by (intros [? _]; congruence).
  by destruct (Set_has x _).
Qed.

Lemma finalizeReq_ids_subIds_other relay ids : ∀ c s,
  s ≠ activeSubIds relay →
  subIds (fold_left (finalizeReq_subId relay) ids c) s = subIds c s.
Proof.
  induction ids as [|x ids IH]; intros c s Hs; [done|]. simpl.
  rewrite IH by done. by apply finalizeReq_subId_subIds_other.
Qed.

Lemma stopReading_subIds_other urls : ∀ c rs s,
  "" ∉ Map_keys (relays c) →
  Forall2 (fun u r => Map_get u (relays c) = Some r) urls rs →
  s ∉ activeSubIds <$> rs →
  subIds (stopReading urls c).2 s = subIds c s.
Proof.
  induction urls as [|v urls IH]; intros c rs s Hne HF Hs.
  - done.
  - inversion HF as [|? pv ? rs' Hpv HF']; subst.
    assert (v ≠ "") as Hvne.
    { intros ->. apply Hne. apply Map_keys_elem_of. eauto. }
    rewrite fmap_cons in Hs. apply not_elem_of_cons in Hs as [Hs1 Hs2].
    simpl. unfold bind at 1. rewrite (finalizeReq_url_run v pv c Hvne Hpv).
    set (c1 := fold_left (finalizeReq_subId pv) (subIds c (activeSubIds pv)) c).
    assert (shrinks c c1) as S
      by (apply shrinks_fold; intros; apply finalizeReq_subId_shrinks).
    unfold bind, run. simpl. unfold lifecycle. rewrite (sh_relays _ _ S), Hpv.
    rewrite (IH (call (WsStop (websocket pv)) c1) rs' s); simpl;
      rewrite ?(sh_relays _ _ S); try done.
    rewrite subIds_call. subst c1. by apply finalizeReq_ids_subIds_other.
Qed.

Lemma registryPass_subIds_other rs c s :
  (∀ r, r ∈ rs → read r = true → s ≠ activeSubIds r) →
  subIds (registryPass rs c) s = subIds c s.
Proof.
  intros Hs. unfold registryPass. generalize (Map_values (activeReqs c)) as reqs.
  intros reqs. revert c. induction reqs as [|req reqs IH]; intros c; [done|].
  simpl. rewrite IH. unfold ensureReq. simpl.
  by destruct (ensureReq_fold_frame req false rs c) as (_ & _ & _ & _ & ->).
Qed.

Section PoolKept.
Variable normalizeUrl : string → Completion string.

(** X25.  A relay that is read before [setRelays] and is read after it,
    in a consistent client with no relay under the empty url, is left
    alone: no call of the transition is made on its websocket (no REQ is
    sent again, no CLOSE, no [start()], [stop()] or [dispose()]), and its
    active subscription ids are what they were. *)
Theorem setRelays_leaves_kept_relays (input : RelaysInput) (c : RxNostrImpl)
    (u : string) (p : RelayState) :
  consistent c → "" ∉ Map_keys (relays c) →
  Map_get u (relays c) = Some p → read p = true →
  u ∈ getReadableUrls (Map_values (relays (setRelays normalizeUrl input c).2)) →
  (∃ t, calls (setRelays normalizeUrl input c).2 = calls c ++ t
        ∧ Forall (fun k => target k ≠ websocket p) t)
  ∧ subIds (setRelays normalizeUrl input c).2 (activeSubIds p)
    = subIds c (activeSubIds p).
Proof.
  intros Hc Hne Hg Hread.
  destruct (getNextRelayState normalizeUrl (relays c) input c)
    as [[next c0]|e] eqn:EG.
  2:{ unfold setRelays. rewrite EG. cbn [snd]. intros _. split; [|done].
      exists []. by rewrite app_nil_r. }
  destruct (setRelays_normal_form normalizeUrl input c next c0 Hc EG)
    as (c1 & rs & ES & HF2 & E).
  pose proof (next_ok_getNextRelayState normalizeUrl input c next c0 Hc EG) as Hn.
  pose proof (getNextRelayState_calls normalizeUrl (relays c) input c next c0 EG)
    as Hcalls.
  rewrite E. cbn [snd]. simpl relays. intros Hnext.
  destruct (consistent_get _ _ _ Hc Hg) as (Hurl & Hlt & _).
  set (prevR := getReadableUrls (Map_values (relays c))) in *.
  set (nextR := getReadableUrls (Map_values next)) in *.
  assert (u ∈ prevR) as Hprev.
  { apply elem_of_getReadableUrls. exists p. split_and!; try done.
    apply Map_values_elem_of. exists u. by apply Map_get_Some. }
  assert (∃ r', Map_get u next = Some r') as [r' Hg'].
  { apply elem_of_getReadableUrls in Hnext
      as (r' & [k Hr']%Map_values_elem_of & _ & Hu').
    pose proof (Map_get_elem_of _ _ _ (nx_keys _ _ _ Hn) Hr') as Hgk.
    destruct (nx_get _ _ _ Hn _ _ Hgk) as (Hk & _). exists r'. congruence. }
  destruct (nx_get _ _ _ Hn _ _ Hg') as (_ & _ & _ & Hsame).
  rewrite Hg in Hsame. destruct Hsame as [Hset Hws].
  (* the three groups of relays the transition calls *)
  destruct (stopReading_targets (subtract prevR nextR) c0) as (stopped & HF1 & A1).
  { by rewrite (nx_relays _ _ _ Hn). }
  { intros v [Hv _]%elem_of_subtract. rewrite (nx_relays _ _ _ Hn).
    by apply readable_urls_are_keys. }
  rewrite ES in A1. simpl in A1. rewrite (nx_relays _ _ _ Hn) in HF1.
  destruct (lookups_exist (relays c)
              (subtract (Map_keys (relays c)) (Map_keys next))) as [gone HF5].
  { by intros v [Hv _]%elem_of_subtract. }
  assert (∀ r, r ∈ stopped → websocket r ≠ websocket p ∧ activeSubIds r ≠ activeSubIds p)
    as Hstopped.
  { intros r Hr. destruct (lookups_elem_of _ _ _ _ HF1 Hr) as (v & Hv & Hgv).
    apply elem_of_subtract in Hv as [_ Hv].
    split; intros Heq; apply Hv.
    - by rewrite (NoDup_ref_inj websocket _ (ok_sockets c Hc) v u r p Hgv Hg Heq).
    - by rewrite (NoDup_ref_inj activeSubIds _ (ok_sets c Hc) v u r p Hgv Hg Heq). }
  assert (∀ r, r ∈ rs → websocket r ≠ websocket p ∧ activeSubIds r ≠ activeSubIds p)
    as Hstarted.
  { intros r Hr. destruct (lookups_elem_of _ _ _ _ HF2 Hr) as (v & Hv & Hgv).
    apply elem_of_subtract in Hv as [_ Hv].
    split; intros Heq; apply Hv.
    - rewrite (nx_inj_sockets _ _ _ Hn v u r r' Hgv Hg'); [done | congruence].
    - rewrite (nx_inj_sets _ _ _ Hn v u r r' Hgv Hg'); [done | congruence]. }
  assert (∀ r, r ∈ gone → websocket r ≠ websocket p) as Hgone.
  { intros r Hr. destruct (lookups_elem_of _ _ _ _ HF5 Hr) as (v & Hv & Hgv).
    apply elem_of_subtract in Hv as [_ Hv]. intros Heq. apply Hv.
    rewrite (NoDup_ref_inj websocket _ (ok_sockets c Hc) v u r p Hgv Hg Heq).
    apply Map_keys_elem_of. eauto. }
  assert (∀ (l : list RelayState),
            (∀ r, r ∈ l → websocket r ≠ websocket p) →
            ∀ k, target k ∈ websocket <$> l → target k ≠ websocket p) as Hout.
  { intros l Hl k (r & -> & Hr)%list_elem_of_fmap. by apply Hl. }
  set (c2 := fold_left (lifecycle WsStart next) (subtract nextR prevR) c1).
  split.
  - assert (appends (fun k => target k ≠ websocket p) c0
              (fold_left (lifecycle WsDispose (relays c))
                 (subtract (Map_keys (relays c)) (Map_keys next))
                 (registryPass rs (registryPass rs c2)))) as (t & Et & Ft).
    { assert (appends (fun k => target k ≠ websocket p) c0 c1) as B1.
      { eapply appends_weaken; [apply (Hout stopped)|exact A1].
        intros r Hr. by apply Hstopped. }
      assert (appends (fun k => target k ≠ websocket p) c1 c2) as B2.
      { eapply appends_weaken; [apply (Hout rs)|].
        - intros r Hr. by apply Hstarted.
        - by apply (lifecycle_fold_targets WsStart next _ rs c1). }
      assert (∀ c', appends (fun k => target k ≠ websocket p) c'
                            (registryPass rs c')) as B3.
      { intros c'. eapply appends_weaken; [apply (Hout rs)|apply registryPass_targets].
        intros r Hr. by apply Hstarted. }
      assert (appends (fun k => target k ≠ websocket p)
                (registryPass rs (registryPass rs c2))
                (fold_left (lifecycle WsDispose (relays c))
                   (subtract (Map_keys (relays c)) (Map_keys next))
                   (registryPass rs (registryPass rs c2)))) as B5.
      { eapply appends_weaken; [apply (Hout gone)|].
        - done.
        - by apply (lifecycle_fold_targets WsDispose (relays c) _ gone). }
      eapply appends_trans; [exact B1|].
      eapply appends_trans; [exact B2|].
      eapply appends_trans; [apply B3|].
      eapply appends_trans; [apply B3|exact B5]. }
    exists t. simpl. by rewrite Et, Hcalls.
  - unfold subIds at 1. simpl.
    destruct (lifecycle_fold_frame WsDispose (relays c)
                (subtract (Map_keys (relays c)) (Map_keys next))
                (registryPass rs (registryPass rs c2))) as (-> & _).
    fold (subIds (registryPass rs (registryPass rs c2)) (activeSubIds p)).
    rewrite !registryPass_subIds_other
      by (intros r Hr _ Heq; by apply (Hstarted r Hr)).
    unfold subIds at 1.
    destruct (lifecycle_fold_frame WsStart next (subtract nextR prevR) c1)
      as (Hs2 & _).
    fold c2 in Hs2. rewrite Hs2. fold (subIds c1 (activeSubIds p)).
    pose proof (stopReading_subIds_other (subtract prevR nextR) c0 stopped
                  (activeSubIds p)) as Hst.
    rewrite ES, (nx_relays _ _ _ Hn) in Hst. simpl in Hst.
    rewrite Hst; [by apply (next_ok_subIds_prev _ _ _ _ Hn)|done|done|].
    intros (r & Heq & Hr)%list_elem_of_fmap. by apply (Hstopped r Hr).
Qed.

End PoolKept.

Lemma setRelays_leaves_kept_relays_witness :
  let p := {| url := "wss://a.example"; read := true; write := true;
              activeSubIds := 0; websocket := 0 |} in
  let c' := (setRelays asGiven sampleRelaysBothRead (impl sampleClient)).2 in
  (∃ t, calls c' = calls (impl sampleClient) ++ t
        ∧ Forall (fun k => target k ≠ websocket p) t)
  ∧ subIds c' (activeSubIds p) = subIds (impl sampleClient) (activeSubIds p).
Proof.
  apply (setRelays_leaves_kept_relays asGiven sampleRelaysBothRead
           (impl sampleClient) "wss://a.example"
           {| url := "wss://a.example"; read := true; write := true;
              activeSubIds := 0; websocket := 0 |}).
  - exact sampleClient_consistent.
  - by_computation.
  - reflexivity.
  - reflexivity.
  - by_computation.
Defined.
